(** * The transform worker: subtask handling and datum processing

    A shallow embedding of package [transform] of the worker
    (tag naming, [plusDuration], [mergeStats], [Worker],
    [uploadRecoveredDatums], [uploadChunk], [handleDatumTask],
    [processDatum], [userCodeEnv], [writeStats], [fetchChunk],
    [handleMergeTask], [merge] and [writeIndex]) together with the
    properties of its specification and further properties of the code.

    Conventions.  A Go [int64] is a [Z] kept in range by [int64]; an
    [uint64] by [uint64].  A Go [error] result is an [option error], [None]
    being [nil].  A pointer that may be [nil] is an [option].  Calls on the
    collaborators of the package (object store, driver, hashtree library)
    are answered by the fields of a [Driver] record; every call that has a
    side effect outside the package is recorded in a trace of [Event]s. *)

From Stdlib Require Import ZArith Lia Ascii String.
From stdpp Require Import base option list strings pretty gmap.

Local Open Scope string_scope.
Local Open Scope Z_scope.

(** ** Go primitives *)

Abbreviation bytes := string (only parsing).

(** Two's-complement wrap-around of the fixed-width integer types. *)
Definition int64 (z : Z) : Z := (z + 2 ^ 63) mod 2 ^ 64 - 2 ^ 63.
Definition int32 (z : Z) : Z := (z + 2 ^ 31) mod 2 ^ 32 - 2 ^ 31.
Definition uint64 (z : Z) : Z := z mod 2 ^ 64.

(** [fmt.Sprintf] restricted to the [%s] verb applied to strings, which is
    all the tag-naming functions use.  A verb without an operand prints
    [%!s(MISSING)], operands left over are reported at the end. *)
Fixpoint Sprintf_extra (args : list string) : string :=
  match args with
  | [] => ""
  | [a] => "string=" +:+ a
  | a :: rest => "string=" +:+ a +:+ ", " +:+ Sprintf_extra rest
  end.

Fixpoint Sprintf (format : string) (args : list string) : string :=
  match format with
  | "" =>
      match args with
      | [] => ""
      | _ => "%!(EXTRA " +:+ Sprintf_extra args +:+ ")"
      end
  | String "%"%char (String "s"%char rest) =>
      match args with
      | a :: args' => a +:+ Sprintf rest args'
      | [] => "%!s(MISSING)" +:+ Sprintf rest []
      end
  | String c rest => String c (Sprintf rest args)
  end.

(** [fmt.Sprint] of an [int]. *)
Definition Sprint (n : Z) : string := pretty n.

(** ** google.protobuf.Duration and its conversions (package [types]) *)

Record Duration := mkDuration { Seconds : Z; Nanos : Z }.

(** An error value made outside the package (object store, driver,
    libraries, context), known by its text.  None of them is the sentinel
    of this package, which is not exported. *)
Record ForeignError := mkForeignError { foreignText : string }.

(** Go error values.  [errDatumRecovered] is the package-level sentinel,
    compared by identity; [errorsNew] and [errorsWrap] are [errors.New] and
    [errors.Wrap] called by the package; [foreign] is an error received
    from a collaborator. *)
Inductive error : Type :=
| errDatumRecovered
| errorsNew (msg : string)
| errorsWrap (cause : error) (msg : string)
| foreign (e : ForeignError).

(** The [Error()] method. *)
Fixpoint Error (e : error) : string :=
  match e with
  | errDatumRecovered => "the datum errored, and the error was handled successfully"
  | errorsNew msg => msg
  | errorsWrap cause msg => msg +:+ ": " +:+ Error cause
  | foreign e' => foreignText e'
  end.

Definition is_errDatumRecovered (e : error) : bool :=
  match e with errDatumRecovered => true | _ => false end.

(** An answer of a collaborator, as the package receives it. *)
Definition received (e : option ForeignError) : option error :=
  match e with
  | Some e' => Some (foreign e')
  | None => None
  end.

Definition receivedOr {A : Type} (r : ForeignError + A) : error + A :=
  match r with
  | inl e => inl (foreign e)
  | inr a => inr a
  end.

Module types.

Definition second : Z := 1000000000.

(** About 10,000 years in seconds: [int64(10000 * 365.25 * 24 * 60 * 60)]. *)
Definition maxSeconds : Z := 315576000000.
Definition minSeconds : Z := - maxSeconds.

(** The [%#v] of a duration, and the [fmt.Errorf] that refuses one. *)
Definition GoString (d : Duration) : string :=
  "&types.Duration{Seconds: " +:+ pretty (Seconds d) +:+ ","
  +:+ String "010"%char ("Nanos: " +:+ pretty (Nanos d) +:+ ","
  +:+ String "010"%char "}").

Definition refused (d : Duration) (why : string) : ForeignError :=
  mkForeignError ("duration: " +:+ GoString d +:+ why).

Definition validateDuration (d : Duration) : option ForeignError :=
  if (Seconds d <? minSeconds) || (maxSeconds <? Seconds d) then
    Some (refused d ": seconds out of range")
  else if (Nanos d <=? -1000000000) || (1000000000 <=? Nanos d) then
    Some (refused d ": nanos out of range")
  else if ((Seconds d <? 0) && (0 <? Nanos d)) || ((0 <? Seconds d) && (Nanos d <? 0)) then
    Some (refused d ": seconds and nanos have different signs")
  else None.

(** [DurationFromProto]: the duration in nanoseconds as a [time.Duration]
    (an [int64]), or an error when the message is invalid or does not
    fit. *)
Definition DurationFromProto (p : Duration) : ForeignError + Z :=
  match validateDuration p with
  | Some err => inl err
  | None =>
      let d := int64 (Seconds p * second) in
      if negb (Z.quot d second =? Seconds p) then
        inl (refused p " is out of range for time.Duration")
      else if negb (Nanos p =? 0) then
        let d' := int64 (d + Nanos p) in
        if negb (Bool.eqb (d' <? 0) (Nanos p <? 0)) then
          inl (refused p " is out of range for time.Duration")
        else inr d'
      else inr d
  end.

(** [DurationProto]: back from nanoseconds; Go's [/] truncates. *)
Definition DurationProto (d : Z) : Duration :=
  let secs := Z.quot d 1000000000 in
  let nanos := int64 (d - int64 (secs * 1000000000)) in
  {| Seconds := secs; Nanos := int32 nanos |}.

End types.

(** ** Statistics *)

Record ProcessStats := mkProcessStats {
  DownloadTime : option Duration;
  ProcessTime : option Duration;
  UploadTime : option Duration;
  DownloadBytes : Z;
  UploadBytes : Z
}.

Record DatumStats := mkDatumStats {
  ProcessStats_ : option ProcessStats;
  DatumsProcessed : Z;
  DatumsSkipped : Z;
  DatumsFailed : Z;
  DatumsRecovered : Z;
  FailedDatumID : string
}.

(** [&pps.ProcessStats{}] and [&DatumStats{}]. *)
Definition emptyProcessStats : ProcessStats := mkProcessStats None None None 0 0.
Definition emptyDatumStats : DatumStats := mkDatumStats None 0 0 0 0 "".

(** [plusDuration]: a [nil] operand counts as the zero duration. *)
Definition plusDuration (x y : option Duration) : error + Duration :=
  match (match x with
         | Some x' => receivedOr (types.DurationFromProto x')
         | None => inr 0
         end) with
  | inl err => inl err
  | inr xd =>
      match (match y with
             | Some y' => receivedOr (types.DurationFromProto y')
             | None => inr 0
             end) with
      | inl err => inl err
      | inr yd => inr (types.DurationProto (int64 (xd + yd)))
      end
  end.

(** What a call leaves behind: it returned [a], it panicked (a [nil]
    pointer was dereferenced) before returning, or the model ran out of
    fuel before the call was over. *)
Inductive outcome (A : Type) : Type :=
| Returned (a : A)
| Panicked
| OutOfFuel.
Arguments Returned {A} a.
Arguments Panicked {A}.
Arguments OutOfFuel {A}.

(** [mergeStats] merges [y] into [x].  [x] is updated in place, so the
    model returns the value of [x] at the moment the call returns, next to
    the error.  Each [xps.F, err = plusDuration(...)] stores the first
    result (which is [nil] on an error) before [err] is tested. *)
Definition mergeStats (x y : DatumStats) : outcome (DatumStats * option error) :=
  let counts (xps : option ProcessStats) : DatumStats * option error :=
    (mkDatumStats xps
       (int64 (DatumsProcessed x + DatumsProcessed y))
       (int64 (DatumsSkipped x + DatumsSkipped y))
       (int64 (DatumsFailed x + DatumsFailed y))
       (int64 (DatumsRecovered x + DatumsRecovered y))
       (if decide (FailedDatumID x = "") then FailedDatumID y else FailedDatumID x),
     None) in
  let failed (xps : ProcessStats) (err : error) : DatumStats * option error :=
    (mkDatumStats (Some xps) (DatumsProcessed x) (DatumsSkipped x)
       (DatumsFailed x) (DatumsRecovered x) (FailedDatumID x),
     Some err) in
  match ProcessStats_ y with
  | None => Returned (counts (ProcessStats_ x))
  | Some yps =>
      match ProcessStats_ x with
      | None => Panicked
      | Some xps =>
          match plusDuration (DownloadTime xps) (DownloadTime yps) with
          | inl err =>
              Returned (failed (mkProcessStats None (ProcessTime xps) (UploadTime xps)
                                  (DownloadBytes xps) (UploadBytes xps)) err)
          | inr dt =>
              match plusDuration (ProcessTime xps) (ProcessTime yps) with
              | inl err =>
                  Returned (failed (mkProcessStats (Some dt) None (UploadTime xps)
                                      (DownloadBytes xps) (UploadBytes xps)) err)
              | inr pt =>
                  match plusDuration (UploadTime xps) (UploadTime yps) with
                  | inl err =>
                      Returned (failed (mkProcessStats (Some dt) (Some pt) None
                                          (DownloadBytes xps) (UploadBytes xps)) err)
                  | inr ut =>
                      Returned (counts (Some (mkProcessStats (Some dt) (Some pt) (Some ut)
                                                (uint64 (DownloadBytes xps + DownloadBytes yps))
                                                (uint64 (UploadBytes xps + UploadBytes yps)))))
                  end
              end
          end
      end
  end.


(** ** Data model *)

(** [common.Input]: a named input file of a datum. *)
Record Input := mkInput {
  Name : string;
  FilePath : string;
  CommitID : string;
  FileHash : string
}.

(** One element of the [DatumInputsList] stored in the [Datums] object. *)
Record DatumInputs := mkDatumInputs {
  Index : Z;
  Inputs : list Input
}.

Record HashtreeInfo := mkHashtreeInfo {
  Address : string;
  Tag : string
}.

Record DatumData := mkDatumData {
  dd_JobID : string;
  dd_Datums : string;
  dd_OutputCommit : string;
  dd_Stats : option DatumStats;
  dd_ChunkHashtree : option HashtreeInfo;
  dd_RecoveredDatumsTag : string;
  dd_StatsHashtree : option HashtreeInfo
}.

Record MergeData := mkMergeData {
  md_JobID : string;
  md_Hashtrees : list HashtreeInfo;
  md_Parent : option string;
  md_Shard : Z;
  md_Stats : bool;
  md_Tree : option string;
  md_TreeSize : Z
}.

(** [work.Task]; [Data] is a pointer to the encoded payload. *)
Record Task := mkTask {
  ID : string;
  Data : option bytes
}.

(** The fields of [driver.PipelineInfo()] the package reads.
    [ContainsS3Inputs] stands for [ppsutil.ContainsS3Inputs(Input)] and
    [ErrCmd] for [Transform.ErrCmd] ([None] when it is [nil]). *)
Record PipelineInfo := mkPipelineInfo {
  PipelineName : string;
  Salt : string;
  EnableStats : bool;
  S3Out : bool;
  ContainsS3Inputs : bool;
  DatumTries : Z;
  MaxQueueSize : Z;
  ErrCmd : option (list string)
}.

(** A file entry of a hashtree, as given to [PutFile]. *)
Record FileNode := mkFileNode {
  fn_path : string;
  fn_hash : option bytes;
  fn_size : Z;
  fn_blockRef : option string
}.

(** A hashtree under construction: the elements of the [path.Join] that
    makes its root, and the files put so far (latest first). *)
Record Hashtree := mkHashtree {
  ht_root : list string;
  ht_files : list FileNode
}.

Definition NewTree (root : list string) : Hashtree := mkHashtree root [].
Definition PutFile (t : Hashtree) (f : FileNode) : Hashtree :=
  mkHashtree (ht_root t) (f :: ht_files t).

(** A [hashtree.MergeCache]: serialized trees by key. *)
Abbreviation MergeCache := (gmap string bytes) (only parsing).

(** Calls with an effect outside the package. *)
Inductive Event : Type :=
| EvRunUserCode (inputs : list Input) (failures : Z)
| EvRunUserErrorHandlingCode (inputs : list Input) (failures : Z)
| EvUploadOutput (inputs : list Input) (tag : string)
| EvPutObject (content : bytes) (tags : list string)
| EvPutObjectAsync (tags : list string) (content : bytes).

(** The state the package works on: the two caches of the running subtask
    (handed out by [WithDatumCache]), the per-job chunk caches of the
    driver, the effects so far (latest first), and how many UUIDs were
    drawn. *)
Record World := mkWorld {
  datumCache : gmap string bytes;
  datumStatsCache : gmap string bytes;
  chunkCaches : gmap string (gmap string bytes);
  chunkStatsCaches : gmap string (gmap string bytes);
  trace : list Event;
  uuids : nat
}.

Definition emptyWorld : World := mkWorld ∅ ∅ ∅ ∅ [] 0.

Definition emit (ev : Event) (w : World) : World :=
  mkWorld (datumCache w) (datumStatsCache w) (chunkCaches w) (chunkStatsCaches w)
          (ev :: trace w) (uuids w).

Definition set_datumCache (c : gmap string bytes) (w : World) : World :=
  mkWorld c (datumStatsCache w) (chunkCaches w) (chunkStatsCaches w) (trace w) (uuids w).

Definition set_datumStatsCache (c : gmap string bytes) (w : World) : World :=
  mkWorld (datumCache w) c (chunkCaches w) (chunkStatsCaches w) (trace w) (uuids w).

Definition set_chunkCaches (c : gmap string (gmap string bytes)) (w : World) : World :=
  mkWorld (datumCache w) (datumStatsCache w) c (chunkStatsCaches w) (trace w) (uuids w).

Definition set_chunkStatsCaches (c : gmap string (gmap string bytes)) (w : World) : World :=
  mkWorld (datumCache w) (datumStatsCache w) (chunkCaches w) c (trace w) (uuids w).

(** The collaborators of the package.  Each [ext_] field answers one kind
    of call; [inl] or [Some] is the error the call returns.  The calls made
    inside the retry loop of [processDatum] also receive the number of
    failures so far, so that an answer may differ from one attempt to the
    next. *)
Record Driver := mkDriver {
  Info : PipelineInfo;
  (* package common *)
  HashDatum : string -> string -> list Input -> string;
  DatumID : list Input -> string;
  (* the object store client *)
  ext_InspectTag : string -> option ForeignError;
  ext_GetTag : string -> ForeignError + bytes;
  ext_PutObject : bytes -> list string -> ForeignError + (string * Z);
  ext_InspectObject : string -> ForeignError + string;
  ext_DecodeHash : string -> ForeignError + bytes;
  ext_PutObjectAsync : list string -> option ForeignError;
  ext_ObjWrite : list string -> bytes -> option ForeignError;
  ext_ObjClose : list string -> bytes -> option ForeignError;
  ext_ReadDatums : string -> ForeignError + list DatumInputs;
  (* the driver *)
  ext_NewDatumCaches : option ForeignError;
  ext_GetOrCreateCache : bool -> string -> option ForeignError;
  ext_DownloadData : list Input -> Z -> ProcessStats * list FileNode * (ForeignError + string);
  ext_LinkData : list Input -> Z -> option ForeignError;
  ext_RunUserCode : list Input -> Z -> ProcessStats -> ProcessStats * option ForeignError;
  ext_RunUserErrorHandlingCode :
    list Input -> Z -> ProcessStats -> ProcessStats * option ForeignError;
  ext_UploadOutput : list Input -> Z -> string -> ProcessStats ->
                     ProcessStats * list FileNode * (ForeignError + bytes);
  ext_ContextErr : list Input -> Z -> option ForeignError;
  (* hashtree, uuid, logs, pbutil, jsonpb, net/http, os *)
  ext_CachePut : string -> bytes -> option ForeignError;
  ext_CacheMerge : gmap string bytes -> ForeignError + bytes;
  ext_HashtreeMerge : list Hashtree -> ForeignError + bytes;
  NewWithoutDashes : nat -> string;
  ext_NewLogger : list Input -> option ForeignError;
  ext_LoggerClose : list Input -> ForeignError + option (string * Z);
  ext_PbWrite : list string -> ForeignError + bytes;
  ext_MarshalToString : option ProcessStats -> ForeignError + string;
  ext_HttpGetRetried : string -> option ForeignError;
  WorkerIP : string
}.

(** The calls, as the package sees them. *)
Definition InspectTag (d : Driver) tag := received (ext_InspectTag d tag).
Definition GetTag (d : Driver) tag := receivedOr (ext_GetTag d tag).
Definition PutObject (d : Driver) content tags := receivedOr (ext_PutObject d content tags).
Definition InspectObject (d : Driver) hash := receivedOr (ext_InspectObject d hash).
Definition DecodeHash (d : Driver) hash := receivedOr (ext_DecodeHash d hash).
Definition PutObjectAsync (d : Driver) tags := received (ext_PutObjectAsync d tags).
Definition ObjWrite (d : Driver) tags buf := received (ext_ObjWrite d tags buf).
Definition ObjClose (d : Driver) tags buf := received (ext_ObjClose d tags buf).
Definition ReadDatums (d : Driver) object := receivedOr (ext_ReadDatums d object).
Definition NewDatumCaches (d : Driver) := received (ext_NewDatumCaches d).
Definition GetOrCreateCache (d : Driver) stats jobID :=
  received (ext_GetOrCreateCache d stats jobID).
Definition DownloadData (d : Driver) inputs failures :=
  let '(ps, files, r) := ext_DownloadData d inputs failures in (ps, files, receivedOr r).
Definition LinkData (d : Driver) inputs failures := received (ext_LinkData d inputs failures).
Definition RunUserCode (d : Driver) inputs failures ps :=
  let '(ps', r) := ext_RunUserCode d inputs failures ps in (ps', received r).
Definition RunUserErrorHandlingCode (d : Driver) inputs failures ps :=
  let '(ps', r) := ext_RunUserErrorHandlingCode d inputs failures ps in (ps', received r).
Definition UploadOutput (d : Driver) inputs failures tag ps :=
  let '(ps', files, r) := ext_UploadOutput d inputs failures tag ps in
  (ps', files, receivedOr r).
Definition ContextErr (d : Driver) inputs failures :=
  received (ext_ContextErr d inputs failures).
Definition CachePut (d : Driver) key data := received (ext_CachePut d key data).
Definition CacheMerge (d : Driver) cache := receivedOr (ext_CacheMerge d cache).
Definition HashtreeMerge (d : Driver) trees := receivedOr (ext_HashtreeMerge d trees).
Definition NewLogger (d : Driver) inputs := received (ext_NewLogger d inputs).
Definition LoggerClose (d : Driver) inputs := receivedOr (ext_LoggerClose d inputs).
Definition PbWrite (d : Driver) hashes := receivedOr (ext_PbWrite d hashes).
Definition MarshalToString (d : Driver) ps := receivedOr (ext_MarshalToString d ps).
Definition HttpGetRetried (d : Driver) jobID := received (ext_HttpGetRetried d jobID).

(** ** The package *)

(** Modelled from the spec: [logger.LogStep] (package [logs], not among the
    sources) brackets a step with log lines; it runs the callback and
    returns its error. *)
Definition LogStep {A : Type} (name : string) (cb : A) : A := cb.

(** Modelled from the spec: [status.withJob], [status.withStats] and
    [status.withDatum] (in a file of the package that is not among the
    sources) are scoped registrations of what the worker is doing, "for
    the duration of the call"; each runs the callback and returns its
    error. *)
Definition withJob {A : Type} (jobID : string) (cb : A) : A := cb.
Definition withStats {A : Type} (cb : A) : A := cb.
Definition withDatum {A : Type} (inputs : list Input) (cb : A) : A := cb.

Definition statsTagSuffix : string := "_stats".

Section Transform.

(** [jobTagPrefix] is defined in a file of the package that is not among
    the sources; the three tag functions share it. *)
Variable jobTagPrefix : string -> string.

Definition jobRecoveredDatumsTag (jobID subtaskID : string) : string :=
  Sprintf "%s-recovered-%s" [jobTagPrefix jobID; subtaskID].

Definition jobChunkStatsTag (jobID subtaskID : string) : string :=
  Sprintf "%s-chunk-stats-%s" [jobTagPrefix jobID; subtaskID].

Definition jobChunkTag (jobID subtaskID : string) : string :=
  Sprintf "%s-chunk-%s" [jobTagPrefix jobID; subtaskID].

(** [uuid.NewWithoutDashes()]: a key not drawn before. *)
Definition newUUID (driver : Driver) (w : World) : string * World :=
  (NewWithoutDashes driver (uuids w),
   mkWorld (datumCache w) (datumStatsCache w) (chunkCaches w) (chunkStatsCaches w)
           (trace w) (S (uuids w))).

(** [cache.Put(key, r)] on a [MergeCache]. *)
Definition MergeCache_Put (driver : Driver) (key : string) (data : bytes)
    (c : gmap string bytes) : error + gmap string bytes :=
  match CachePut driver key data with
  | Some err => inl err
  | None => inr (<[key := data]> c)
  end.

(** [PutObjectAsync(tags)], one [Write] of [buf], then [Close]: the
    object exists once [Close] has succeeded. *)
Definition commitObject (driver : Driver) (tags : list string) (buf : bytes)
    (w : World) : option error * World :=
  match ObjClose driver tags buf with
  | Some err => (Some err, w)
  | None => (None, emit (EvPutObjectAsync tags buf) w)
  end.

(** [uploadRecoveredDatums]. *)
Definition uploadRecoveredDatums (driver : Driver) (recoveredDatums : list string)
    (tag : string) (w : World) : option error * World :=
  LogStep "uploading recovered datums"
    match PbWrite driver recoveredDatums with
    | inl _ => (None, w)
    | inr buf =>
        match PutObject driver buf [tag] with
        | inl err => (Some err, w)
        | inr _ => (None, emit (EvPutObject buf [tag]) w)
        end
    end.

(** The chunk cache of a job in the registry [ChunkCaches()] (or
    [ChunkStatsCaches()] when [stats] is set). *)
Definition registry (stats : bool) (w : World) : gmap string (gmap string bytes) :=
  if stats then chunkStatsCaches w else chunkCaches w.

Definition set_registry (stats : bool) (r : gmap string (gmap string bytes))
    (w : World) : World :=
  if stats then set_chunkStatsCaches r w else set_chunkCaches r w.

Definition chunkCacheOf (stats : bool) (jobID : string) (w : World) : gmap string bytes :=
  default ∅ (registry stats w !! jobID).

(** [GetOrCreateCache(jobID)]. *)
Definition getOrCreateCache (driver : Driver) (stats : bool) (jobID : string)
    (w : World) : option error * World :=
  match GetOrCreateCache driver stats jobID with
  | Some err => (Some err, w)
  | None =>
      (None, set_registry stats (<[jobID := chunkCacheOf stats jobID w]> (registry stats w)) w)
  end.

(** [uploadChunk].  The chunk cache is designated by the registry it
    belongs to and its job. *)
Definition uploadChunk (driver : Driver) (subtaskCache : gmap string bytes)
    (stats : bool) (jobID : string) (tag : string) (w : World) : option error * World :=
  LogStep "uploading hashtree chunk"
    match CacheMerge driver subtaskCache with
    | inl err => (Some err, w)
    | inr buf =>
        match MergeCache_Put driver tag buf (chunkCacheOf stats jobID w) with
        | inl err => (Some err, w)
        | inr cache' =>
            let w1 := set_registry stats (<[jobID := cache']> (registry stats w)) w in
            match PutObjectAsync driver [tag] with
            | Some err => (Some err, w1)
            | None =>
                match ObjWrite driver [tag] buf with
                | Some err => (Some err, w1)
                | None => commitObject driver [tag] buf w1
                end
            end
        end
    end.

(** [checkS3Gateway]: [backoff.RetryNotify] over the GET of the sidecar's
    endpoint, with the notification that only logs; the collaborator
    answers for the whole of the retries: [nil] at the first GET that
    succeeds, the last error when the back-off gives up. *)
Definition checkS3Gateway (driver : Driver) (jobID : string) : option error :=
  HttpGetRetried driver jobID.

(** The variables of [processDatum] that its closures share. *)
Record Locals := mkLocals {
  stats : DatumStats;
  failures : Z;
  inputTree : option Hashtree;
  outputTree : option Hashtree;
  statsTree : option Hashtree;
  world : World
}.

Definition set_world (w : World) (l : Locals) : Locals :=
  mkLocals (stats l) (failures l) (inputTree l) (outputTree l) (statsTree l) w.

Definition set_ProcessStats (ps : option ProcessStats) (st : DatumStats) : DatumStats :=
  mkDatumStats ps (DatumsProcessed st) (DatumsSkipped st) (DatumsFailed st)
               (DatumsRecovered st) (FailedDatumID st).

Definition addFiles (files : list FileNode) (t : option Hashtree) : option Hashtree :=
  match t with
  | Some t' => Some (mkHashtree (ht_root t') (files ++ ht_files t'))
  | None => None
  end.

(** Store [content] as an object and describe it as a file entry called
    [name]: [PutObject], [InspectObject], [DecodeHash].  The first
    component tells whether [PutObject] itself succeeded. *)
Definition putObjectFile (driver : Driver) (name : string) (content : bytes)
    (w : World) : (error + (error + FileNode)) * World :=
  match PutObject driver content [] with
  | inl err => (inl err, w)
  | inr (hash, size) =>
      let w1 := emit (EvPutObject content []) w in
      match InspectObject driver hash with
      | inl err => (inr (inl err), w1)
      | inr blockRef =>
          match DecodeHash driver hash with
          | inl err => (inr (inl err), w1)
          | inr h => (inr (inr (mkFileNode name (Some h) size (Some blockRef))), w1)
          end
      end
  end.

(** [writeStats].  The three trees are never [nil] where it is called.
    The object writer is closed by a deferred call: after a failed
    [Write] nothing is committed, after a failed cache [Put] the object
    still is, and the error of [Close] is returned only when nothing
    failed before. *)
Definition writeStats (driver : Driver) (inputs : list Input) (ps : option ProcessStats)
    (inputTree outputTree statsTree : Hashtree) (tag : string)
    (w : World) : option error * World :=
  match MarshalToString driver ps with
  | inl err => (Some err, w)
  | inr statsString =>
      match putObjectFile driver "stats" statsString w with
      | (inl err, w1) => (Some err, w1)
      | (inr (inl err), w1) => (Some err, w1)
      | (inr (inr file), w1) =>
          let statsTree1 := PutFile statsTree file in
          match LoggerClose driver inputs with
          | inl err => (Some err, w1)
          | inr object =>
              match (match object with
                     | None => inr statsTree1
                     | Some (hash, size) =>
                         match InspectObject driver hash with
                         | inl err => inl err
                         | inr blockRef =>
                             match DecodeHash driver hash with
                             | inl err => inl err
                             | inr h =>
                                 inr (PutFile statsTree1
                                        (mkFileNode "logs" (Some h) size (Some blockRef)))
                             end
                         end
                     end) with
              | inl err => (Some err, w1)
              | inr statsTree2 =>
                  match HashtreeMerge driver [inputTree; outputTree; statsTree2] with
                  | inl err => (Some err, w1)
                  | inr buf =>
                      let tags := [tag +:+ statsTagSuffix] in
                      match PutObjectAsync driver tags with
                      | Some err => (Some err, w1)
                      | None =>
                          match ObjWrite driver tags buf with
                          | Some err => (Some err, w1)
                          | None =>
                              match MergeCache_Put driver tag buf (datumStatsCache w1) with
                              | inl err => (Some err, snd (commitObject driver tags buf w1))
                              | inr c =>
                                  commitObject driver tags buf (set_datumStatsCache c w1)
                              end
                          end
                      end
                  end
              end
          end
      end
  end.

(** Modelled from the spec: [backoff.RetryUntilCancel] (package
    [backoff] is not among the sources), "retry loop with zero-delay
    backoff, cancellable by context": run [operation]; when it fails call
    [notify] with its error; stop with the error [notify] returns if
    any, with the context's error when the context is done, and try
    again otherwise.  [ZeroBackOff] never asks to stop. *)
Fixpoint RetryUntilCancel {St : Type} (fuel : nat) (ctxErr : St -> option error)
    (operation : St -> option error * St)
    (notify : error -> St -> option error * St) (s : St)
    : outcome (option error * St) :=
  match fuel with
  | O => OutOfFuel
  | S fuel' =>
      match operation s with
      | (None, s1) => Returned (None, s1)
      | (Some err, s1) =>
          match notify err s1 with
          | (Some err', s2) => Returned (Some err', s2)
          | (None, s2) =>
              match ctxErr s2 with
              | Some cerr => Returned (Some cerr, s2)
              | None => RetryUntilCancel fuel' ctxErr operation notify s2
              end
          end
      end
  end.

(** The closure given to [status.withDatum]: user code, and the error
    handler on the last try.  Returns the process stats as the two
    programs left them.  The environment of the two programs
    ([userCodeEnv]) is a function of the inputs, the job and the output
    commit, which the answers of the collaborators stand for. *)
Definition runUserCode (driver : Driver) (inputs : list Input) (failures : Z)
    (processStats : ProcessStats) (w : World) : ProcessStats * option error * World :=
  let w1 := emit (EvRunUserCode inputs failures) w in
  match RunUserCode driver inputs failures processStats with
  | (ps1, Some err) =>
      if bool_decide (ErrCmd (Info driver) ≠ None)
         && (failures =? int64 (DatumTries (Info driver) - 1)) then
        let w2 := emit (EvRunUserErrorHandlingCode inputs failures) w1 in
        match RunUserErrorHandlingCode driver inputs failures ps1 with
        | (ps2, Some err') => (ps2, Some (errorsWrap err' "RunUserErrorHandlingCode"), w2)
        | (ps2, None) => (ps2, Some errDatumRecovered, w2)
        end
      else (ps1, Some err, w1)
  | (ps1, None) => (ps1, None, w1)
  end.

(** Modelled from the spec: [driver.WithActiveData] (package [driver], not
    among the sources) "acquires a process-wide mutex so that only one
    datum is active in the shared workspace": it links the inputs into the
    workspace, which may fail, runs the callback and returns its error. *)
Definition WithActiveData {St : Type} (driver : Driver) (inputs : list Input)
    (failures : Z) (cb : St -> option error * St) (s : St) : option error * St :=
  match LinkData driver inputs failures with
  | Some err => (Some err, s)
  | None => cb s
  end.

(** Modelled from the spec: [driver.WithData] (package [driver], not among
    the sources) "materializes the inputs (this fills DownloadTime/Bytes in
    ProcessStats and, if stats are on, populates inputTree)", runs the
    callback on the directory and the process stats, and returns the
    process stats with the error of the download or of the callback. *)
Definition WithData {St : Type} (driver : Driver) (inputs : list Input) (failures : Z)
    (inputTree : option Hashtree)
    (cb : string -> ProcessStats -> St -> ProcessStats * option error * St) (s : St)
    : ProcessStats * option error * option Hashtree * St :=
  let '(ps0, files, downloaded) := DownloadData driver inputs failures in
  let inputTree1 := addFiles files inputTree in
  match downloaded with
  | inl err => (ps0, Some err, inputTree1, s)
  | inr dir => let '(ps, err, s1) := cb dir ps0 s in (ps, err, inputTree1, s1)
  end.

(** The function given to [RetryUntilCancel].  The callbacks work on the
    process stats, the output tree and the world; [stats.ProcessStats]
    receives the process stats whatever the error. *)
Definition operation (driver : Driver) (inputs : list Input) (tag : string)
    (l : Locals) : option error * Locals :=
  let '(ps, err, inputTree1, (outputTree1, w')) :=
    WithData driver inputs (failures l) (inputTree l)
      (fun dir processStats '(outputTree0, w) =>
         match WithActiveData driver inputs (failures l)
                 (fun '(ps0, w0) =>
                    let '(ps1, err, w1) :=
                      withDatum inputs (runUserCode driver inputs (failures l) ps0 w0) in
                    (err, (ps1, w1)))
                 (processStats, w) with
         | (Some err, (ps1, w1)) => (ps1, Some err, (outputTree0, w1))
         | (None, (ps1, w1)) =>
             if S3Out (Info driver) then (ps1, None, (outputTree0, w1))
             else
               let '(ps2, outFiles, uploaded) :=
                 UploadOutput driver inputs (failures l) tag ps1 in
               let outputTree1 := addFiles outFiles outputTree0 in
               let w2 := emit (EvUploadOutput inputs tag) w1 in
               match uploaded with
               | inl err => (ps2, Some err, (outputTree1, w2))
               | inr hashtreeBytes =>
                   let '(key, w3) := newUUID driver w2 in
                   match MergeCache_Put driver key hashtreeBytes (datumCache w3) with
                   | inl err => (ps2, Some err, (outputTree1, w3))
                   | inr c => (ps2, None, (outputTree1, set_datumCache c w3))
                   end
               end
         end)
      (outputTree l, world l) in
  (err, mkLocals (set_ProcessStats (Some ps) (stats l)) (failures l)
                 inputTree1 outputTree1 (statsTree l) w').

(** The notification function of the retry loop. *)
Definition notify (driver : Driver) (datumID : string) (err : error)
    (l : Locals) : option error * Locals :=
  let failures' := int64 (failures l + 1) in
  if DatumTries (Info driver) <=? failures' then
    match statsTree l with
    | Some tree =>
        match putObjectFile driver "failure" (Error err) (world l) with
        | (inl _, w1) =>
            (Some err, mkLocals (stats l) failures' (inputTree l) (outputTree l)
                                (Some tree) w1)
        | (inr (inl err'), w1) =>
            (Some err', mkLocals (stats l) failures' (inputTree l) (outputTree l)
                                 (Some tree) w1)
        | (inr (inr file), w1) =>
            (Some err, mkLocals (stats l) failures' (inputTree l) (outputTree l)
                                (Some (PutFile tree file)) w1)
        end
    | None =>
        (Some err, mkLocals (stats l) failures' (inputTree l) (outputTree l) None (world l))
    end
  else
    match statsTree l with
    | Some tree =>
        (None, mkLocals (stats l) failures'
                        (Some (NewTree ["/"; datumID; "pfs"]))
                        (Some (NewTree ["/"; datumID; "pfs"; "out"]))
                        (Some tree) (world l))
    | None =>
        (None, mkLocals (stats l) failures' (inputTree l) (outputTree l) None (world l))
    end.

(** The three outcomes of the retry loop, as counted after it. *)
Definition classify (tag datumID : string) (err : option error) (st : DatumStats)
    : DatumStats * list string :=
  match err with
  | Some e =>
      if is_errDatumRecovered e then
        (mkDatumStats (ProcessStats_ st) (DatumsProcessed st) (DatumsSkipped st)
                      (DatumsFailed st) (int64 (DatumsRecovered st + 1)) (FailedDatumID st),
         [tag])
      else
        (mkDatumStats (ProcessStats_ st) (DatumsProcessed st) (DatumsSkipped st)
                      (int64 (DatumsFailed st + 1)) (DatumsRecovered st) datumID,
         [])
  | None =>
      (mkDatumStats (ProcessStats_ st) (int64 (DatumsProcessed st + 1)) (DatumsSkipped st)
                    (DatumsFailed st) (DatumsRecovered st) (FailedDatumID st),
       [])
  end.

Definition skipped (st : DatumStats) : DatumStats :=
  mkDatumStats (ProcessStats_ st) (DatumsProcessed st) (int64 (DatumsSkipped st + 1))
               (DatumsFailed st) (DatumsRecovered st) (FailedDatumID st).

(** The cache probe of [processDatum], entered when [InspectTag] found
    the datum's tag. *)
Definition cacheProbe (driver : Driver) (tag : string) (w : World)
    : (DatumStats * list string * option error) * World :=
  let stats := emptyDatumStats in
  match GetTag driver tag with
  | inl err => ((stats, [], Some err), w)
  | inr buf =>
      let '(key, w1) := newUUID driver w in
      match MergeCache_Put driver key buf (datumCache w1) with
      | inl err => ((stats, [], Some err), w1)
      | inr c =>
          let w2 := set_datumCache c w1 in
          if EnableStats (Info driver) then
            match GetTag driver (tag +:+ statsTagSuffix) with
            | inl _ => ((stats, [], None), w2)
            | inr statsBuf =>
                let '(key', w3) := newUUID driver w2 in
                match MergeCache_Put driver key' statsBuf (datumStatsCache w3) with
                | inl err => ((stats, [], Some err), w3)
                | inr c' => ((skipped stats, [], None), set_datumStatsCache c' w3)
                end
            end
          else ((skipped stats, [], None), w2)
      end
  end.

(** The retry loop of [processDatum], started with the locals [l]. *)
Definition retryLoop (fuel : nat) (driver : Driver) (inputs : list Input)
    (tag datumID : string) (l : Locals) : outcome (option error * Locals) :=
  RetryUntilCancel fuel (fun l => ContextErr driver inputs (failures l))
                   (operation driver inputs tag) (notify driver datumID) l.

(** What follows the loop: its error is turned into counts, and when stats
    are enabled the deferred [writeStats] runs, whose error becomes the
    error of [processDatum]. *)
Definition afterLoop (driver : Driver) (inputs : list Input) (tag datumID : string)
    (err : option error) (l1 : Locals)
    : outcome ((DatumStats * list string * option error) * World) :=
  let '(stats1, recovered) := classify tag datumID err (stats l1) in
  if EnableStats (Info driver) then
    match inputTree l1, outputTree l1, statsTree l1 with
    | Some it, Some ot, Some st =>
        let '(werr, w2) :=
          writeStats driver inputs (ProcessStats_ stats1) it ot st tag (world l1) in
        Returned ((stats1, recovered, werr), w2)
    | _, _, _ => Panicked
    end
  else Returned ((stats1, recovered, None), world l1).

(** The locals at the start of the loop, [statsTree] being the stats tree
    when stats are enabled. *)
Definition initialLocals (datumID : string) (statsTree : option Hashtree) (w : World)
    : Locals :=
  match statsTree with
  | Some tree =>
      mkLocals emptyDatumStats 0
               (Some (NewTree ["/"; datumID; "pfs"]))
               (Some (NewTree ["/"; datumID; "pfs"; "out"]))
               (Some tree) w
  | None => mkLocals emptyDatumStats 0 None None None w
  end.

(** [processDatum].  [jobID] is [logger.JobID()]. *)
Definition processDatum (fuel : nat) (driver : Driver) (jobID : string) (datumIndex : Z)
    (inputs : list Input) (outputCommit : string) (w : World)
    : outcome ((DatumStats * list string * option error) * World) :=
  let recoveredDatumTags : list string := [] in
  let stats0 := emptyDatumStats in
  let tag := HashDatum driver (PipelineName (Info driver)) (Salt (Info driver)) inputs in
  let datumID := DatumID driver inputs in
  match InspectTag driver tag with
  | None => Returned (cacheProbe driver tag w)
  | Some _ =>
      let run (l : Locals) :=
        match retryLoop fuel driver inputs tag datumID l with
        | Returned (err, l1) => afterLoop driver inputs tag datumID err l1
        | Panicked => Panicked
        | OutOfFuel => OutOfFuel
        end in
      if EnableStats (Info driver) then
        let statsTree0 :=
          PutFile (NewTree ["/"; datumID])
                  (mkFileNode (Sprintf "job:%s" [jobID]) None 0 None) in
        match putObjectFile driver "index" (Sprint datumIndex) w with
        | (inl err, w1) => Returned ((stats0, recoveredDatumTags, Some err), w1)
        | (inr (inl err), w1) => Returned ((stats0, recoveredDatumTags, Some err), w1)
        | (inr (inr file), w1) =>
            run (initialLocals datumID (Some (PutFile statsTree0 file)) w1)
        end
      else run (initialLocals datumID None w)
  end.

(** What the tasks of one fan-out share: the first error reported to the
    error group, [data.Stats], [recoveredDatums] and the world. *)
Record FanOut := mkFanOut {
  groupErr : option error;
  dataStats : DatumStats;
  recoveredDatums : list string;
  fanWorld : World
}.

Definition firstErr (e1 e2 : option error) : option error :=
  match e1 with
  | Some _ => e1
  | None => e2
  end.

(** One task of the error group: [processDatum], then, under the stats
    mutex, [mergeStats] and the recovered tags. *)
Definition datumTask (fuel : nat) (driver : Driver) (jobID outputCommit : string)
    (datum : DatumInputs) (f : FanOut) : outcome FanOut :=
  match NewLogger driver (Inputs datum) with
  | Some err =>
      Returned (mkFanOut (firstErr (groupErr f) (Some err)) (dataStats f)
                         (recoveredDatums f) (fanWorld f))
  | None =>
      match processDatum fuel driver jobID (Index datum) (Inputs datum) outputCommit
              (fanWorld f) with
      | Returned ((subStats, subRecovered, err), w1) =>
          match mergeStats (dataStats f) subStats with
          | Returned (merged, statsErr) =>
              match err with
              | Some _ =>
                  Returned (mkFanOut (firstErr (groupErr f) err) merged
                                     (recoveredDatums f) w1)
              | None =>
                  Returned (mkFanOut (firstErr (groupErr f) statsErr) merged
                                     (recoveredDatums f ++ subRecovered) w1)
              end
          | Panicked => Panicked
          | OutOfFuel => OutOfFuel
          end
      | Panicked => Panicked
      | OutOfFuel => OutOfFuel
      end
  end.

(** The fan-out over the datums, in the schedule where each task is over
    before the next one starts (the only one when [MaxQueueSize] is 1).
    A task that fails does not stop the iteration: the later tasks still
    run and merge their stats, and the group keeps the first error. *)
Fixpoint fanOut (fuel : nat) (driver : Driver) (jobID outputCommit : string)
    (datums : list DatumInputs) (f : FanOut) : outcome FanOut :=
  match datums with
  | [] => Returned f
  | datum :: rest =>
      match datumTask fuel driver jobID outputCommit datum f with
      | Returned f1 => fanOut fuel driver jobID outputCommit rest f1
      | Panicked => Panicked
      | OutOfFuel => OutOfFuel
      end
  end.

Definition set_Stats (st : option DatumStats) (d : DatumData) : DatumData :=
  mkDatumData (dd_JobID d) (dd_Datums d) (dd_OutputCommit d) st (dd_ChunkHashtree d)
              (dd_RecoveredDatumsTag d) (dd_StatsHashtree d).

Definition set_ChunkHashtree (h : option HashtreeInfo) (d : DatumData) : DatumData :=
  mkDatumData (dd_JobID d) (dd_Datums d) (dd_OutputCommit d) (dd_Stats d) h
              (dd_RecoveredDatumsTag d) (dd_StatsHashtree d).

Definition set_RecoveredDatumsTag (t : string) (d : DatumData) : DatumData :=
  mkDatumData (dd_JobID d) (dd_Datums d) (dd_OutputCommit d) (dd_Stats d)
              (dd_ChunkHashtree d) t (dd_StatsHashtree d).

Definition set_StatsHashtree (h : option HashtreeInfo) (d : DatumData) : DatumData :=
  mkDatumData (dd_JobID d) (dd_Datums d) (dd_OutputCommit d) (dd_Stats d)
              (dd_ChunkHashtree d) (dd_RecoveredDatumsTag d) h.

(** The end of [handleDatumTask], after the fan-out: the output chunk,
    preceded by the recovered datums. *)
Definition publishOutput (driver : Driver) (jobID subtaskID : string) (data : DatumData)
    (failed : Z) (recovered : list string) (w : World)
    : (DatumData * option error) * World :=
  if (failed =? 0) && negb (S3Out (Info driver)) then
    let '(data1, err1, w1) :=
      if (0 <? Z.of_nat (length recovered)) then
        let recoveredDatumsTag := jobRecoveredDatumsTag jobID subtaskID in
        match uploadRecoveredDatums driver recovered recoveredDatumsTag w with
        | (Some err, w1) => (data, Some err, w1)
        | (None, w1) => (set_RecoveredDatumsTag recoveredDatumsTag data, None, w1)
        end
      else (data, None, w) in
    match err1 with
    | Some err => ((data1, Some err), w1)
    | None =>
        match getOrCreateCache driver false jobID w1 with
        | (Some err, w2) => ((data1, Some err), w2)
        | (None, w2) =>
            let chunkTag := jobChunkTag jobID subtaskID in
            match uploadChunk driver (datumCache w2) false jobID chunkTag w2 with
            | (Some err, w3) => ((data1, Some err), w3)
            | (None, w3) =>
                ((set_ChunkHashtree (Some (mkHashtreeInfo (WorkerIP driver) chunkTag)) data1,
                  None), w3)
            end
        end
    end
  else ((data, None), w).

(** ... and the stats chunk. *)
Definition publishStats (driver : Driver) (jobID subtaskID : string) (data : DatumData)
    (w : World) : (DatumData * option error) * World :=
  if EnableStats (Info driver) then
    match getOrCreateCache driver true jobID w with
    | (Some err, w1) => ((data, Some err), w1)
    | (None, w1) =>
        let chunkStatsTag := jobChunkStatsTag jobID subtaskID in
        match uploadChunk driver (datumStatsCache w1) true jobID chunkStatsTag w1 with
        | (Some err, w2) => ((data, Some err), w2)
        | (None, w2) =>
            ((set_StatsHashtree (Some (mkHashtreeInfo (WorkerIP driver) chunkStatsTag)) data,
              None), w2)
        end
    end
  else ((data, None), w).

(** Modelled from the spec: [driver.WithDatumCache] (package [driver], not
    among the sources): "a subtask's local datumCache/statsCache are
    acquired at handler entry via a scoped acquisition and released on all
    exit paths".  Two empty caches are made, which may fail, and the
    callback runs on them; [unchanged] is what the caller gets back when
    the caches could not be made. *)
Definition WithDatumCache {A : Type} (driver : Driver) (unchanged : A)
    (cb : World -> outcome ((A * option error) * World)) (w : World)
    : outcome ((A * option error) * World) :=
  match NewDatumCaches driver with
  | Some err => Returned ((unchanged, Some err), w)
  | None => cb (set_datumStatsCache ∅ (set_datumCache ∅ w))
  end.

(** [forEachDatum], with the callback of [handleDatumTask], which starts a
    task of the error group and never fails: the datums are read from the
    object, then the tasks run ([fanOut]).  With the error of the read no
    task has started. *)
Definition forEachDatum (fuel : nat) (driver : Driver) (jobID outputCommit : string)
    (object : string) (f : FanOut) : outcome (option error * FanOut) :=
  match ReadDatums driver object with
  | inl err => Returned (Some err, f)
  | inr datums =>
      match fanOut fuel driver jobID outputCommit datums f with
      | Returned f1 => Returned (None, f1)
      | Panicked => Panicked
      | OutOfFuel => OutOfFuel
      end
  end.

(** [handleDatumTask].  [data] is updated in place: the model returns it
    as the call leaves it, also when the call fails.  After the
    iteration, [eg.Wait()] gives the first error of the tasks. *)
Definition handleDatumTask (fuel : nat) (driver : Driver) (jobID : string)
    (data : DatumData) (subtaskID : string) (w : World)
    : outcome ((DatumData * option error) * World) :=
  match (if ContainsS3Inputs (Info driver) || S3Out (Info driver)
         then checkS3Gateway driver jobID else None) with
  | Some err => Returned ((data, Some err), w)
  | None =>
      WithDatumCache driver data
        (fun w0 =>
           let stats0 := mkDatumStats (Some emptyProcessStats) 0 0 0 0 "" in
           let data0 := set_Stats (Some stats0) data in
           match LogStep "processing datums"
                   (withStats
                      (forEachDatum fuel driver jobID (dd_OutputCommit data)
                         (dd_Datums data) (mkFanOut None stats0 [] w0))) with
           | Returned (Some err, f) =>
               Returned ((set_Stats (Some (dataStats f)) data, Some err), fanWorld f)
           | Returned (None, f) =>
               let data1 := set_Stats (Some (dataStats f)) data in
               match groupErr f with
               | Some err => Returned ((data1, Some err), fanWorld f)
               | None =>
                   match publishOutput driver jobID subtaskID data1
                           (DatumsFailed (dataStats f)) (recoveredDatums f)
                           (fanWorld f) with
                   | ((data2, Some err), w2) => Returned ((data2, Some err), w2)
                   | ((data2, None), w2) =>
                       Returned (publishStats driver jobID subtaskID data2 w2)
                   end
               end
           | Panicked => Panicked
           | OutOfFuel => OutOfFuel
           end)
        w
  end.

(** The four conversions between a payload and its two shapes, and the
    merge handler, whose merge phase is the hashtree library's:
    parameters of the dispatcher.  A serializer returns its two results
    as Go does. *)
Variable deserializeDatumData : option bytes -> error + DatumData.
Variable serializeDatumData : DatumData -> option bytes * option error.
Variable deserializeMergeData : option bytes -> error + MergeData.
Variable serializeMergeData : MergeData -> option bytes * option error.
Variable handleMergeTask :
  Driver -> string -> MergeData -> World -> outcome ((MergeData * option error) * World).

(** [Worker]. *)
Definition Worker (fuel : nat) (driver : Driver) (subtask : Task) (w : World)
    : outcome ((Task * option error) * World) :=
  match deserializeDatumData (Data subtask) with
  | inr datumData =>
      match withJob (dd_JobID datumData)
              (LogStep "datum task"
                 (handleDatumTask fuel driver (dd_JobID datumData) datumData
                    (ID subtask) w)) with
      | Returned ((_, Some err), w1) => Returned ((subtask, Some err), w1)
      | Returned ((datumData1, None), w1) =>
          let '(data, err) := serializeDatumData datumData1 in
          Returned ((mkTask (ID subtask) data, err), w1)
      | Panicked => Panicked
      | OutOfFuel => OutOfFuel
      end
  | inl _ =>
      match deserializeMergeData (Data subtask) with
      | inr mergeData =>
          match withJob (md_JobID mergeData)
                  (LogStep "merge task"
                     (handleMergeTask driver (md_JobID mergeData) mergeData w)) with
          | Returned ((_, Some err), w1) => Returned ((subtask, Some err), w1)
          | Returned ((mergeData1, None), w1) =>
              let '(data, err) := serializeMergeData mergeData1 in
              Returned ((mkTask (ID subtask) data, err), w1)
          | Panicked => Panicked
          | OutOfFuel => OutOfFuel
          end
      | inl _ => Returned ((subtask, Some (errorsNew "worker task format unrecognized")), w)
      end
  end.

End Transform.

(** ** The download phase of the merge handler

    [handleMergeTask] starts one goroutine per chunk that is not cached,
    then drops the stale keys, then starts the goroutine of the parent
    reader, and only then waits for the group.  The goroutines run
    concurrently with the handler, so the model is a machine that a
    schedule drives: each element of the schedule lets the handler or one
    of the running goroutines take its next step. *)
Module Download.

(** What [io.Copy] will get out of a reader: the body, or a read error. *)
Definition Reader : Type := ForeignError + bytes.

Record Peers := mkPeers {
  FetchChunkFromWorker : string -> string -> string -> Z -> bool -> ForeignError + Reader;
  GetTagReader : string -> ForeignError + Reader;
  ReaderClose : string -> option ForeignError;
  GetObjectReader : string -> option ForeignError;
  CachePutErr : string -> bytes -> option ForeignError
}.

(** [fetchChunk]: the worker that made the chunk first, when its address
    is known, and the object store otherwise or when that failed. *)
Definition fetchChunk (peers : Peers) (jobID : string) (info : HashtreeInfo)
    (shard : Z) (stats : bool) : error + Reader :=
  let fromStore :=
    match GetTagReader peers (Tag info) with
    | inl err => inl (foreign err)
    | inr reader => inr reader
    end in
  if bool_decide (Address info ≠ "") then
    match FetchChunkFromWorker peers jobID (Address info) (Tag info) shard stats with
    | inr reader => inr reader
    | inl _ => fromStore
    end
  else fromStore.

Inductive Goroutine : Type :=
| GoFetch (info : HashtreeInfo)
| GoParent (hash : string).

(** Where the handler is in the phase. *)
Inductive Pc : Type :=
| PcLoop (rest : list HashtreeInfo)
| PcAcquire (info : HashtreeInfo) (rest : list HashtreeInfo)
| PcEvict (ids : list string)
| PcParent
| PcWait
| PcDone (err : option error).

Inductive DlEvent : Type :=
| DlSpawn (tag : string)
| DlPut (tag : string)
| DlFailed (tag : string)
| DlDelete (id : string).

Record State := mkState {
  pc : Pc;
  cache : gmap string bytes;
  cachedIDs : list string;
  usedIDs : gset string;
  running : list Goroutine;
  groupErr : option error;
  parentReader : bool;
  events : list DlEvent
}.

(** The limiter of the phase: [limit.New(20)]. *)
Definition limiterSize : nat := 20.

(** How many slots of the limiter are taken. *)
Fixpoint fetching (gs : list Goroutine) : nat :=
  match gs with
  | [] => 0
  | GoFetch _ :: rest => S (fetching rest)
  | GoParent _ :: rest => fetching rest
  end.

Definition init (data : MergeData) (c : gmap string bytes) : State :=
  mkState (PcLoop (md_Hashtrees data)) c (elements (dom c)) ∅ [] None false [].

Definition first (e1 e2 : option error) : option error :=
  match e1 with
  | Some _ => e1
  | None => e2
  end.

(** One step of the handler.  A handler that waits (for the limiter, or
    for the group) stays where it is. *)
Definition stepMain (data : MergeData) (s : State) : State :=
  match pc s with
  | PcLoop [] =>
      mkState (PcEvict (cachedIDs s)) (cache s) (cachedIDs s) (usedIDs s) (running s)
              (groupErr s) (parentReader s) (events s)
  | PcLoop (hashtreeInfo :: rest) =>
      let used := {[Tag hashtreeInfo]} ∪ usedIDs s in
      if bool_decide (is_Some (cache s !! Tag hashtreeInfo)) then
        mkState (PcLoop rest) (cache s) (cachedIDs s) used (running s)
                (groupErr s) (parentReader s) (events s)
      else
        mkState (PcAcquire hashtreeInfo rest) (cache s) (cachedIDs s) used (running s)
                (groupErr s) (parentReader s) (events s)
  | PcAcquire hashtreeInfo rest =>
      if bool_decide (fetching (running s) < limiterSize)%nat then
        mkState (PcLoop rest) (cache s) (cachedIDs s) (usedIDs s)
                (running s ++ [GoFetch hashtreeInfo])
                (groupErr s) (parentReader s) (DlSpawn (Tag hashtreeInfo) :: events s)
      else s
  | PcEvict [] =>
      mkState PcParent (cache s) (cachedIDs s) (usedIDs s) (running s)
              (groupErr s) (parentReader s) (events s)
  | PcEvict (id :: rest) =>
      if bool_decide (id ∈ usedIDs s) then
        mkState (PcEvict rest) (cache s) (cachedIDs s) (usedIDs s) (running s)
                (groupErr s) (parentReader s) (events s)
      else
        mkState (PcEvict rest) (delete id (cache s)) (cachedIDs s) (usedIDs s) (running s)
                (groupErr s) (parentReader s) (DlDelete id :: events s)
  | PcParent =>
      match md_Parent data with
      | Some hash =>
          mkState PcWait (cache s) (cachedIDs s) (usedIDs s) (running s ++ [GoParent hash])
                  (groupErr s) (parentReader s) (events s)
      | None =>
          mkState PcWait (cache s) (cachedIDs s) (usedIDs s) (running s)
                  (groupErr s) (parentReader s) (events s)
      end
  | PcWait =>
      match running s with
      | [] =>
          mkState (PcDone (groupErr s)) (cache s) (cachedIDs s) (usedIDs s) []
                  (groupErr s) (parentReader s) (events s)
      | _ => s
      end
  | PcDone _ => s
  end.

(** The whole of a goroutine, as one step: fetch the chunk, read it into
    a buffer, put it in the cache and close the reader, whose error counts
    when nothing failed before; or open the parent's reader. *)
Definition stepGoroutine (peers : Peers) (jobID : string) (data : MergeData)
    (g : Goroutine) (others : list Goroutine) (s : State) : State :=
  match g with
  | GoFetch info =>
      let failed (err : error) :=
        mkState (pc s) (cache s) (cachedIDs s) (usedIDs s) others
                (first (groupErr s) (Some err)) (parentReader s)
                (DlFailed (Tag info) :: events s) in
      match fetchChunk peers jobID info (md_Shard data) (md_Stats data) with
      | inl err => failed err
      | inr (inl err) => failed (foreign err)
      | inr (inr buf) =>
          match CachePutErr peers (Tag info) buf with
          | Some err => failed (foreign err)
          | None =>
              mkState (pc s) (<[Tag info := buf]> (cache s)) (cachedIDs s) (usedIDs s) others
                      (first (groupErr s) (received (ReaderClose peers (Tag info))))
                      (parentReader s) (DlPut (Tag info) :: events s)
          end
      end
  | GoParent hash =>
      match GetObjectReader peers hash with
      | Some err =>
          mkState (pc s) (cache s) (cachedIDs s) (usedIDs s) others
                  (first (groupErr s) (Some (foreign err))) (parentReader s) (events s)
      | None =>
          mkState (pc s) (cache s) (cachedIDs s) (usedIDs s) others
                  (groupErr s) true (events s)
      end
  end.

(** A schedule names, step after step, who moves: the handler, or the
    [n]-th of the goroutines that are running. *)
Inductive Choice : Type :=
| Handler
| Nth (n : nat).

Definition step (peers : Peers) (jobID : string) (data : MergeData)
    (c : Choice) (s : State) : State :=
  match c with
  | Handler => stepMain data s
  | Nth n =>
      match running s !! n with
      | Some g => stepGoroutine peers jobID data g (take n (running s) ++ drop (S n) (running s)) s
      | None => s
      end
  end.

Fixpoint run (peers : Peers) (jobID : string) (data : MergeData)
    (schedule : list Choice) (s : State) : State :=
  match schedule with
  | [] => s
  | c :: rest => run peers jobID data rest (step peers jobID data c s)
  end.

(** The order of the events of a run, [events] having the latest first:
    no event satisfying [later] happened after one satisfying [earlier]. *)
Definition never_after (earlier later : DlEvent -> Prop) (evs : list DlEvent) : Prop :=
  ∀ l1 e l2, evs = (l1 ++ e :: l2)%list → earlier e → ∀ e', e' ∈ l1 → ¬ later e'.

Definition isDelete (e : DlEvent) : Prop := ∃ id, e = DlDelete id.
Definition isPut (e : DlEvent) : Prop := ∃ tag, e = DlPut tag.
Definition isSpawn (e : DlEvent) : Prop := ∃ tag, e = DlSpawn tag.

(** The tag [t] is referenced by the merge request. *)
Definition referenced (data : MergeData) (t : string) : Prop :=
  t ∈ Tag <$> md_Hashtrees data.

(** The order of the specification: no eviction before the end of a
    download.  And the order of the code: no eviction before the start of
    a download. *)
Definition evictionsAfterDownloads (evs : list DlEvent) : Prop :=
  never_after isDelete isPut evs.

Definition evictionsAfterSpawns (evs : list DlEvent) : Prop :=
  never_after isDelete isSpawn evs.

Definition noDelete (evs : list DlEvent) : Prop := ∀ e, e ∈ evs → ¬ isDelete e.

(** What holds at each point of the handler, [cache0] being the cache at
    the start of the phase. *)
Definition phase (data : MergeData) (cache0 : gmap string bytes) (s : State) : Prop :=
  match pc s with
  | PcLoop rest =>
      noDelete (events s)
      ∧ (∀ info, info ∈ rest → referenced data (Tag info))
      ∧ (∀ t, referenced data t → t ∈ usedIDs s ∨ t ∈ Tag <$> rest)
  | PcAcquire info rest =>
      noDelete (events s)
      ∧ referenced data (Tag info)
      ∧ (∀ info', info' ∈ rest → referenced data (Tag info'))
      ∧ (∀ t, referenced data t → t ∈ usedIDs s ∨ t ∈ Tag <$> rest)
  | PcEvict ids =>
      (∀ t, referenced data t → t ∈ usedIDs s)
      ∧ (∀ id, id ∈ ids → id ∈ dom cache0)
  | PcParent | PcWait => True
  | PcDone _ => running s = []
  end.

(** What holds throughout a run. *)
Definition invariant (data : MergeData) (cache0 : gmap string bytes) (s : State) : Prop :=
  (∀ info, GoFetch info ∈ running s → referenced data (Tag info))
  ∧ evictionsAfterSpawns (events s)
  ∧ (∀ id, DlDelete id ∈ events s → id ∈ dom cache0 ∧ ¬ referenced data id)
  ∧ (∀ t, DlPut t ∈ events s → referenced data t)
  ∧ (∀ id, id ∈ cachedIDs s → id ∈ dom cache0)
  ∧ phase data cache0 s.

End Download.


(** ** Example collaborators

    A store that holds the objects [tags] and nothing else, user code whose
    result at each attempt is [userCode], an error handler whose result is
    [handler], and a recovered-datums writer that fails when [pbFails] is
    set; every other call succeeds. *)
Definition exampleInput : Input := mkInput "in" "/file" "commit1" "h1".

Definition exampleHash (inputs : list Input) : string :=
  match inputs with
  | i :: _ => "hash-" +:+ Name i
  | [] => "hash"
  end.

Definition tagNotFound : ForeignError := mkForeignError "tag not found".
Definition exitStatus1 : ForeignError := mkForeignError "exit status 1".

Definition exampleDriver (info : PipelineInfo) (tags : gmap string bytes)
    (userCode : Z -> option ForeignError) (handler : option ForeignError)
    (pbFails : bool) : Driver :=
  {| Info := info;
     HashDatum := fun _ _ inputs => exampleHash inputs;
     DatumID := fun inputs => "id-" +:+ exampleHash inputs;
     ext_InspectTag := fun tag =>
       match tags !! tag with Some _ => None | None => Some tagNotFound end;
     ext_GetTag := fun tag =>
       match tags !! tag with Some b => inr b | None => inl tagNotFound end;
     ext_PutObject := fun content _ => inr ("object-" +:+ content, Z.of_nat (String.length content));
     ext_InspectObject := fun hash => inr ("block-" +:+ hash);
     ext_DecodeHash := fun hash => inr hash;
     ext_PutObjectAsync := fun _ => None;
     ext_ObjWrite := fun _ _ => None;
     ext_ObjClose := fun _ _ => None;
     ext_ReadDatums := fun _ => inr [mkDatumInputs 0 [exampleInput]];
     ext_NewDatumCaches := None;
     ext_GetOrCreateCache := fun _ _ => None;
     ext_DownloadData := fun _ _ => (emptyProcessStats, [], inr "/pfs");
     ext_LinkData := fun _ _ => None;
     ext_RunUserCode := fun _ failures ps => (ps, userCode failures);
     ext_RunUserErrorHandlingCode := fun _ _ ps => (ps, handler);
     ext_UploadOutput := fun _ _ _ ps => (ps, [], inr "output-tree");
     ext_ContextErr := fun _ _ => None;
     ext_CachePut := fun _ _ => None;
     ext_CacheMerge := fun c => inr (String.concat "," (map snd (map_to_list c)));
     ext_HashtreeMerge := fun _ => inr "stats-tree";
     NewWithoutDashes := fun n => "uuid-" +:+ pretty n;
     ext_NewLogger := fun _ => None;
     ext_LoggerClose := fun _ => inr None;
     ext_PbWrite := fun hashes =>
       if pbFails then inl (mkForeignError "proto: marshal failed")
       else inr (String.concat "," hashes);
     ext_MarshalToString := fun _ => inr "{}";
     ext_HttpGetRetried := fun _ => None;
     WorkerIP := "10.0.0.1" |}.

Definition exampleInfo (enableStats s3Out : bool) (datumTries : Z)
    (errCmd : option (list string)) : PipelineInfo :=
  mkPipelineInfo "pipeline" "salt" enableStats s3Out false datumTries 1 errCmd.

Definition examplePrefix (jobID : string) : string := "job-" +:+ jobID.

(** ** Specification of [mergeStats] *)

(** The value of a duration field in nanoseconds, as [plusDuration] reads
    it: zero when the field is unset, nothing when the message is
    refused. *)
Definition nanoseconds (d : option Duration) : option Z :=
  match d with
  | None => Some 0
  | Some d' =>
      match types.DurationFromProto d' with
      | inl _ => None
      | inr n => Some n
      end
  end.

(** The duration [c] is the sum of [a] and [b]. *)
Definition duration_sum (a b c : option Duration) : Prop :=
  ∃ na nb, nanoseconds a = Some na ∧ nanoseconds b = Some nb
           ∧ nanoseconds c = Some (int64 (na + nb)).

(** [x'] is [x] with [y] added into it. *)
Definition merged (x y x' : DatumStats) : Prop :=
  DatumsProcessed x' = int64 (DatumsProcessed x + DatumsProcessed y)
  ∧ DatumsSkipped x' = int64 (DatumsSkipped x + DatumsSkipped y)
  ∧ DatumsFailed x' = int64 (DatumsFailed x + DatumsFailed y)
  ∧ DatumsRecovered x' = int64 (DatumsRecovered x + DatumsRecovered y)
  ∧ FailedDatumID x' = (if decide (FailedDatumID x = "") then FailedDatumID y
                        else FailedDatumID x)
  ∧ match ProcessStats_ y with
    | None => ProcessStats_ x' = ProcessStats_ x
    | Some yps =>
        ∃ xps xps', ProcessStats_ x = Some xps ∧ ProcessStats_ x' = Some xps'
          ∧ duration_sum (DownloadTime xps) (DownloadTime yps) (DownloadTime xps')
          ∧ duration_sum (ProcessTime xps) (ProcessTime yps) (ProcessTime xps')
          ∧ duration_sum (UploadTime xps) (UploadTime yps) (UploadTime xps')
          ∧ DownloadBytes xps' = uint64 (DownloadBytes xps + DownloadBytes yps)
          ∧ UploadBytes xps' = uint64 (UploadBytes xps + UploadBytes yps)
    end.

(** The durations of [ps] are all accepted by [DurationFromProto]. *)
Definition valid_durations (ps : ProcessStats) : Prop :=
  nanoseconds (DownloadTime ps) ≠ None
  ∧ nanoseconds (ProcessTime ps) ≠ None
  ∧ nanoseconds (UploadTime ps) ≠ None.

(** The pairs on which [mergeStats] neither panics nor stops on an error:
    when [y] has process stats, [x] has them too and all their durations
    are valid. *)
Definition mergeable (x y : DatumStats) : Prop :=
  match ProcessStats_ y with
  | None => True
  | Some yps =>
      match ProcessStats_ x with
      | None => False
      | Some xps => valid_durations xps ∧ valid_durations yps
      end
  end.

(** Inputs of [mergeStats] used below. *)
Definition statsWithoutProcessStats : DatumStats := mkDatumStats None 0 0 0 0 "".
Definition oneProcessed : DatumStats := mkDatumStats (Some emptyProcessStats) 1 0 0 0 "".
Definition statsAtStart : DatumStats := mkDatumStats (Some emptyProcessStats) 0 0 0 0 "".
Definition oneProcessedBadDuration : DatumStats :=
  mkDatumStats (Some (mkProcessStats (Some (mkDuration 1 (-1))) None None 0 0)) 1 0 0 0 "".
Definition twoSeconds : DatumStats :=
  mkDatumStats (Some (mkProcessStats (Some (mkDuration 2 0)) None None 10 0)) 1 0 0 0 "d1".
Definition threeFailed : DatumStats :=
  mkDatumStats (Some (mkProcessStats (Some (mkDuration 1 500000000)) None None 5 7))
               0 0 3 0 "d7".

(** ** Example runs *)

(** A pipeline with stats on whose store holds the output tree of the
    example datum but not its stats tree (stats were switched on after the
    tree was made). *)
Definition statsMissDriver : Driver :=
  exampleDriver (exampleInfo true false 3 None) {["hash-in" := "tree"]}
                (fun _ => None) None false.

Definition exampleData : DatumData := mkDatumData "j" "datums" "commit-out" None None "" None.

(** The sum that the specification compares with the number of datums. *)
Definition datumCount (st : DatumStats) : Z :=
  DatumsProcessed st + DatumsSkipped st + DatumsFailed st + DatumsRecovered st.

(** A recovered-datums writer that fails. *)
Definition pbFailsDriver : Driver :=
  exampleDriver (exampleInfo false false 3 None) ∅ (fun _ => None) None true.

(** A toy encoding of the two payloads, to run the dispatcher: a datum
    payload is [D] followed by the job id, a merge payload is [M] followed
    by the job id; the answer is the same letter in lower case. *)
Definition toyDeserializeDatumData (payload : option bytes) : error + DatumData :=
  match payload with
  | Some (String "D" job) => inr (mkDatumData job "datums" "commit-out" None None "" None)
  | _ => inl (foreign (mkForeignError "not a DatumData"))
  end.

Definition toySerializeDatumData (data : DatumData) : option bytes * option error :=
  (Some (String "d" (dd_JobID data)), None).

Definition toyDeserializeMergeData (payload : option bytes) : error + MergeData :=
  match payload with
  | Some (String "M" job) => inr (mkMergeData job [] None 0 false None 0)
  | _ => inl (foreign (mkForeignError "not a MergeData"))
  end.

Definition toySerializeMergeData (data : MergeData) : option bytes * option error :=
  (Some (String "m" (md_JobID data)), None).

Definition toyHandleMergeTask (driver : Driver) (jobID : string) (data : MergeData)
    (w : World) : outcome ((MergeData * option error) * World) :=
  Returned ((mkMergeData (md_JobID data) (md_Hashtrees data) (md_Parent data)
               (md_Shard data) (md_Stats data) (Some "tree") 0, None), w).

Definition toyWorker (subtask : Task) : outcome ((Task * option error) * World) :=
  Worker examplePrefix toyDeserializeDatumData toySerializeDatumData
         toyDeserializeMergeData toySerializeMergeData toyHandleMergeTask
         1 statsMissDriver subtask emptyWorld.

(** ** Specification of the publishing rules *)

(** The chunk [tag] of a job is published: peers can fetch it from the
    job's chunk cache (or chunk stats cache), and the object store holds it
    under the same tag. *)
Definition published (stats : bool) (jobID tag : string) (w : World) : Prop :=
  ∃ buf, chunkCacheOf stats jobID w !! tag = Some buf
         ∧ EvPutObjectAsync [tag] buf ∈ trace w.

(** ** Specification of the retry loop *)

(** How often user code was started, in a list of events. *)
Fixpoint userCodeRuns (evs : list Event) : nat :=
  match evs with
  | [] => 0
  | EvRunUserCode _ _ :: rest => S (userCodeRuns rest)
  | _ :: rest => userCodeRuns rest
  end.

(** What user code and the error handler answer at the attempt that
    follows [n] failures: user code receives the process stats of the
    download, the handler those that user code left. *)
Definition userCodeAt (driver : Driver) (inputs : list Input) (n : Z)
    : ProcessStats * option error :=
  RunUserCode driver inputs n (DownloadData driver inputs n).1.1.

Definition handlerAt (driver : Driver) (inputs : list Input) (n : Z)
    : ProcessStats * option error :=
  RunUserErrorHandlingCode driver inputs n (userCodeAt driver inputs n).1.

(** The file entry [file] describes an object that holds [content]. *)
Definition holds (driver : Driver) (file : FileNode) (content : bytes) : Prop :=
  ∃ hash size blockRef h,
    PutObject driver content [] = inr (hash, size)
    ∧ InspectObject driver hash = inr blockRef
    ∧ DecodeHash driver hash = inr h
    ∧ file = mkFileNode (fn_path file) (Some h) size (Some blockRef).

(** The object store takes any object and can describe it afterwards. *)
Definition storeHealthy (driver : Driver) : Prop :=
  ∀ content, ∃ hash size blockRef h,
    PutObject driver content [] = inr (hash, size)
    ∧ InspectObject driver hash = inr blockRef
    ∧ DecodeHash driver hash = inr h.

(** The stats with one more recovered datum. *)
Definition recoveredOnce (st : DatumStats) : DatumStats :=
  mkDatumStats (ProcessStats_ st) (DatumsProcessed st) (DatumsSkipped st)
               (DatumsFailed st) (int64 (DatumsRecovered st + 1)) (FailedDatumID st).

(** User code that fails at every attempt, with stats on, without and with
    an error handler that succeeds. *)
Definition failingDriver : Driver :=
  exampleDriver (exampleInfo true false 3 None) ∅ (fun _ => Some exitStatus1) None false.

Definition recoveringDriver : Driver :=
  exampleDriver (exampleInfo true false 3 (Some ["sh"])) ∅ (fun _ => Some exitStatus1)
                None false.

Definition exampleLocals : Locals :=
  initialLocals "id-hash-in" (Some (NewTree ["/"; "id-hash-in"])) emptyWorld.

(** [processDatum], having missed the cache, enters its retry loop with the
    locals [l0]: with stats enabled the index object was stored and
    described, and the three trees exist. *)
Definition entersLoop (driver : Driver) (jobID : string) (datumIndex : Z)
    (inputs : list Input) (w : World) (l0 : Locals) : Prop :=
  let datumID := DatumID driver inputs in
  if EnableStats (Info driver) then
    ∃ file w1,
      putObjectFile driver "index" (Sprint datumIndex) w = (inr (inr file), w1)
      ∧ l0 = initialLocals datumID
               (Some (PutFile (PutFile (NewTree ["/"; datumID])
                                       (mkFileNode (Sprintf "job:%s" [jobID]) None 0 None))
                              file)) w1
  else l0 = initialLocals datumID None w.

(** The counts of [st] are all zero and no failed datum is recorded. *)
Definition uncounted (st : DatumStats) : Prop :=
  DatumsProcessed st = 0 ∧ DatumsSkipped st = 0 ∧ DatumsFailed st = 0
  ∧ DatumsRecovered st = 0 ∧ FailedDatumID st = "".

(** ** Example of a download phase *)

(** A merge request for one chunk, a cache that holds one stale tree, and
    a schedule in which the handler runs up to the wait before the
    goroutine of the chunk moves. *)
Definition examplePeers : Download.Peers :=
  Download.mkPeers (fun _ _ _ _ _ => inl (mkForeignError "connection refused"))
                   (fun t => inr (inr ("tree-" +:+ t)))
                   (fun _ => None) (fun _ => None) (fun _ _ => None).

Definition exampleMerge : MergeData :=
  mkMergeData "j" [mkHashtreeInfo "" "a"] None 0 false None 0.

Definition staleCache : gmap string bytes := {["stale" := "old-tree"]}.

Definition evictFirst : list Download.Choice :=
  [Download.Handler; Download.Handler; Download.Handler; Download.Handler;
   Download.Nth 0; Download.Handler; Download.Handler; Download.Handler].

(** The loop changes neither the counts nor the presence of the trees. *)
Definition loopKeeps (l : Locals) : Prop :=
  uncounted (stats l)
  ∧ (is_Some (statsTree l) → is_Some (inputTree l) ∧ is_Some (outputTree l)).

(** ** Proof automation *)

(** Closes a goal whose assumptions say both that the output chunk is
    wanted and that it is not. *)
Ltac pub_absurd :=
  match goal with
  | H : _ ∨ _ |- _ => destruct H; congruence
  end.

(** Decides whether an event is in an explicit list of events. *)
Ltac in_events :=
  intros;
  repeat match goal with
         | H : _ ∈ _ :: _ |- _ => apply elem_of_cons in H as [H|H]
         | H : _ ∈ [] |- _ => apply elem_of_nil in H; destruct H
         | |- _ ∉ _ => intros ?
         end;
  try discriminate.

(** Gives the new events of a step that did not run the error handler. *)
Ltac no_handler new :=
  exists new; split; [reflexivity |]; split; [cbn; lia |]; split; in_events.

(** The stats miss of the cache probe: the tree of the datum is in the
    store, stats are enabled, and the stats tree cannot be fetched. *)
Definition statsMiss (driver : Driver) (inputs : list Input) : Prop :=
  EnableStats (Info driver) = true
  ∧ InspectTag driver
      (HashDatum driver (PipelineName (Info driver)) (Salt (Info driver)) inputs) = None
  ∧ ∃ e, GetTag driver
           (HashDatum driver (PipelineName (Info driver)) (Salt (Info driver)) inputs
            +:+ "_stats") = inl e.

(** No count is negative. *)
Definition countsNonNegative (st : DatumStats) : Prop :=
  0 <= DatumsProcessed st ∧ 0 <= DatumsSkipped st
  ∧ 0 <= DatumsFailed st ∧ 0 <= DatumsRecovered st.

(** ** The environment of user code *)

(** What [userCodeEnv] reads besides its arguments: the environment of the
    worker process ([os.Environ]), the input directory and the namespace of
    the driver, the port of the gateway ([os.Getenv]), the names that
    package [client] gives the two variables, and the functions
    [filepath.Join] and [ppsutil.SidecarS3GatewayService]. *)
Record Process := mkProcess {
  Environ : list string;
  InputDir : string;
  Namespace : string;
  S3GatewayPort : string;
  JobIDEnv : string;
  OutputCommitIDEnv : string;
  filepath_Join : list string -> string;
  SidecarS3GatewayService : string -> string
}.

(** [userCodeEnv].  The inputs and the output commit are known by the
    fields that [Input] and [DatumData] keep of them. *)
Definition userCodeEnv (p : Process) (driver : Driver) (jobID outputCommit : string)
    (inputs : list Input) : list string :=
  let result := Environ p in
  let result :=
    foldl (fun result input =>
             ((result
               ++ [Sprintf "%s=%s"
                     [Name input; filepath_Join p [InputDir p; Name input; FilePath input]]])
              ++ [Sprintf "%s_COMMIT=%s" [Name input; CommitID input]])%list)
          result inputs in
  let result := (result ++ [Sprintf "%s=%s" [JobIDEnv p; jobID]])%list in
  let result := (result ++ [Sprintf "%s=%s" [OutputCommitIDEnv p; outputCommit]])%list in
  if ContainsS3Inputs (Info driver) || S3Out (Info driver) then
    (result ++ [Sprintf "S3_ENDPOINT=http://%s.%s:%s"
                  [SidecarS3GatewayService p jobID; Namespace p; S3GatewayPort p]])%list
  else result.

(** ** The merge phase of the merge handler *)
Module Merge.

(** The calls of the merge handler that write or release something outside
    the package, besides those that [World] records; latest first. *)
Inductive Call : Type :=
| CloseObject (content : bytes)
| WriteIndex (path : string) (data : bytes)
| CloseIndex (path : string)
| CloseParent (hash : string).

(** The collaborators of [merge] and [writeIndex] that [Driver] does not
    have: the number of shards, the suffix of the index, the merge of a
    cache through a shard filter into the object writer (what it wrote,
    the size the hashtree writer reports, its error), the object and the
    index of what was written, the path of a block, the writer of the
    index, and the reader of the parent. *)
Record Store := mkStore {
  NumShards : Z;
  IndexPath : string;
  ext_CacheMerge :
    gmap string bytes -> option string -> Z -> Z -> bytes * Z * option ForeignError;
  ext_Object : bytes -> ForeignError + string;
  ext_Index : bytes -> ForeignError + bytes;
  ext_BlockPathFromEnv : string -> ForeignError + string;
  ext_DirectObjWriter : string -> option ForeignError;
  ext_IndexWrite : string -> bytes -> option ForeignError;
  ext_IndexClose : string -> bytes -> option ForeignError;
  ext_ParentClose : string -> option ForeignError
}.

Definition CacheMerge (st : Store) cache parent shards shard :=
  let '(written, size, r) := ext_CacheMerge st cache parent shards shard in
  (written, size, received r).
Definition Object (st : Store) written := receivedOr (ext_Object st written).
Definition Index (st : Store) written := receivedOr (ext_Index st written).
Definition BlockPathFromEnv (st : Store) block := receivedOr (ext_BlockPathFromEnv st block).
Definition DirectObjWriter (st : Store) path := received (ext_DirectObjWriter st path).
Definition IndexWrite (st : Store) path data := received (ext_IndexWrite st path data).
Definition IndexClose (st : Store) path data := received (ext_IndexClose st path data).
Definition ParentClose (st : Store) hash := received (ext_ParentClose st hash).

(** The state of the merge handler: the world, and its calls so far. *)
Record State := mkState {
  mworld : World;
  calls : list Call
}.

Definition call (c : Call) (s : State) : State := mkState (mworld s) (c :: calls s).

(** Modelled from the spec: [errors.EnsureStack] (package [errors] is not
    among the sources) gives an error a stack trace when it has none and
    leaves [nil] alone; "any download or merge error aborts the whole merge
    with that error". *)
Definition EnsureStack (e : option error) : option error := e.

(** [objW.Close()] on the writer of [PutObjectAsync(nil)]: the object
    exists when it returns no error. *)
Definition closeObject (driver : Driver) (written : bytes) (s : State)
    : option error * State :=
  let '(err, w) := commitObject driver [] written (mworld s) in
  (err, mkState w (CloseObject written :: calls s)).

(** [writeIndex].  The index writer is closed by a deferred call, whose
    error is returned only when the write succeeded. *)
Definition writeIndex (store : Store) (driver : Driver) (tree : string)
    (indexData : bytes) (s : State) : option error * State :=
  match InspectObject driver tree with
  | inl err => (EnsureStack (Some err), s)
  | inr block =>
      match BlockPathFromEnv store block with
      | inl err => (EnsureStack (Some err), s)
      | inr path =>
          let indexPath := path +:+ IndexPath store in
          match DirectObjWriter store indexPath with
          | Some err => (EnsureStack (Some err), s)
          | None =>
              let retErr := EnsureStack (IndexWrite store indexPath indexData) in
              let s1 := call (CloseIndex indexPath) (call (WriteIndex indexPath indexData) s) in
              match IndexClose store indexPath indexData, retErr with
              | Some err, None => (EnsureStack (Some err), s1)
              | _, _ => (retErr, s1)
              end
          end
      end
  end.

(** [merge]: the tree and its size, or [nil], 0 and the error. *)
Definition merge (store : Store) (driver : Driver) (parent : option string)
    (cache : gmap string bytes) (shard : Z) (s : State)
    : (option string * Z * option error) * State :=
  match PutObjectAsync driver [] with
  | Some err => ((None, 0, EnsureStack (Some err)), s)
  | None =>
      let '(written, size, merged) := CacheMerge store cache parent (NumShards store) shard in
      match merged with
      | Some err => ((None, 0, EnsureStack (Some err)), (closeObject driver written s).2)
      | None =>
          match closeObject driver written s with
          | (Some err, s1) => ((None, 0, EnsureStack (Some err)), s1)
          | (None, s1) =>
              match Object store written with
              | inl err => ((None, 0, EnsureStack (Some err)), s1)
              | inr tree =>
                  match Index store written with
                  | inl err => ((None, 0, EnsureStack (Some err)), s1)
                  | inr indexData =>
                      match writeIndex store driver tree indexData s1 with
                      | (Some err, s2) => ((None, 0, Some err), s2)
                      | (None, s2) => ((Some tree, size, None), s2)
                      end
                  end
              end
          end
      end
  end.

Definition set_Tree (tree : option string) (size : Z) (d : MergeData) : MergeData :=
  mkMergeData (md_JobID d) (md_Hashtrees d) (md_Parent d) (md_Shard d) (md_Stats d)
              tree size.

(** The deferred call of [handleMergeTask]: the reader of the parent, when
    there is one, is closed, and the error of that is returned when nothing
    failed before. *)
Definition closeParent (store : Store) (parentReader : option string)
    (retErr : option error) (s : State) : option error * State :=
  match parentReader with
  | Some hash =>
      (match retErr with
       | Some _ => retErr
       | None => ParentClose store hash
       end,
       call (CloseParent hash) s)
  | None => (retErr, s)
  end.

(** [handleMergeTask].  The download phase is the machine of [Download],
    driven by [schedule] until the handler has left [eg.Wait()]; a schedule
    that ends before leaves the call unfinished.  The cache is the one of
    the job in the registry, which the phase updates in place.  [data] is
    returned as the call leaves it. *)
Definition handleMergeTask (peers : Download.Peers) (store : Store)
    (schedule : list Download.Choice) (driver : Driver) (jobID : string)
    (data : MergeData) (w : World) : outcome ((MergeData * option error) * State) :=
  match getOrCreateCache driver (md_Stats data) jobID w with
  | (Some err, w1) => Returned ((data, Some err), mkState w1 [])
  | (None, w1) =>
      let d := LogStep "downloading hashtree chunks"
                 (Download.run peers jobID data schedule
                    (Download.init data (chunkCacheOf (md_Stats data) jobID w1))) in
      let w2 := set_registry (md_Stats data)
                  (<[jobID := Download.cache d]> (registry (md_Stats data) w1)) w1 in
      let parentReader := if Download.parentReader d then md_Parent data else None in
      match Download.pc d with
      | Download.PcDone (Some err) =>
          let '(retErr, s1) :=
            closeParent store parentReader (EnsureStack (Some err)) (mkState w2 []) in
          Returned ((data, retErr), s1)
      | Download.PcDone None =>
          match LogStep "merging hashtree chunks"
                  (merge store driver parentReader (Download.cache d) (md_Shard data)
                     (mkState w2 [])) with
          | ((_, _, Some err), s1) =>
              let '(retErr, s2) := closeParent store parentReader (Some err) s1 in
              Returned ((data, retErr), s2)
          | ((tree, size, None), s1) =>
              let '(retErr, s2) := closeParent store parentReader None s1 in
              Returned ((set_Tree tree size data, retErr), s2)
          end
      | _ => OutOfFuel
      end
  end.

(** The merge handler as [Worker] takes it: the calls are dropped. *)
Definition handler (peers : Download.Peers) (store : Store)
    (schedule : list Download.Choice) (driver : Driver) (jobID : string)
    (data : MergeData) (w : World) : outcome ((MergeData * option error) * World) :=
  match handleMergeTask peers store schedule driver jobID data w with
  | Returned (r, s) => Returned (r, mworld s)
  | Panicked => Panicked
  | OutOfFuel => OutOfFuel
  end.

(** The schedule in which every goroutine runs to its end as soon as the
    handler has started it, for [n] steps of the handler. *)
Fixpoint eager (n : nat) : list Download.Choice :=
  match n with
  | O => []
  | S n' => Download.Handler :: Download.Nth 0 :: eager n'
  end.

End Merge.

(** ** Specification of the download phase *)

(** The chunk [t] is taken care of: it is in the cache, a goroutine is
    fetching it, the handler is about to start one, or the group has
    failed. *)
Definition takenCareOf (s : Download.State) (t : string) : Prop :=
  is_Some (Download.cache s !! t)
  ∨ (∃ info, Download.GoFetch info ∈ Download.running s ∧ Tag info = t)
  ∨ (∃ info rest, Download.pc s = Download.PcAcquire info rest ∧ Tag info = t)
  ∨ Download.groupErr s ≠ None.

(** The keys of the cache at the start of the phase that the handler has
    yet to examine. *)
Definition unexamined (s : Download.State) : list string :=
  match Download.pc s with
  | Download.PcLoop _ | Download.PcAcquire _ _ => Download.cachedIDs s
  | Download.PcEvict ids => ids
  | _ => []
  end.

(** The handler has left the loop over the chunks of the request. *)
Definition loopOver (s : Download.State) : Prop :=
  match Download.pc s with
  | Download.PcLoop _ | Download.PcAcquire _ _ => False
  | _ => True
  end.

(** No download of the chunk [t] is running or about to start. *)
Definition notFetched (s : Download.State) (t : string) : Prop :=
  (∀ info, Download.GoFetch info ∈ Download.running s → Tag info ≠ t)
  ∧ (∀ info rest, Download.pc s = Download.PcAcquire info rest → Tag info ≠ t).

(** What the download phase keeps, [cache0] being the cache at its start:
    the tags it has recorded are referenced and taken care of; a key of
    the cache is referenced or yet to be examined; after the loop every
    referenced tag is recorded; the limiter holds; the error of the phase
    is the first of the group; and a referenced chunk that was cached is
    kept as it was, and not fetched. *)
Definition coverage (data : MergeData) (cache0 : gmap string bytes)
    (s : Download.State) : Prop :=
  (∀ t, t ∈ Download.usedIDs s → Download.referenced data t ∧ takenCareOf s t)
  ∧ (∀ id, is_Some (Download.cache s !! id) →
           Download.referenced data id ∨ id ∈ unexamined s)
  ∧ (loopOver s → ∀ t, Download.referenced data t → t ∈ Download.usedIDs s)
  ∧ (Download.fetching (Download.running s) <= Download.limiterSize)%nat
  ∧ (∀ err, Download.pc s = Download.PcDone err → Download.groupErr s = err)
  ∧ (∀ id, Download.referenced data id → is_Some (cache0 !! id) →
           Download.cache s !! id = cache0 !! id ∧ notFetched s id).

(** How many steps the handler has left when no goroutine holds it up. *)
Definition stepsLeft (s : Download.State) : nat :=
  match Download.pc s with
  | Download.PcLoop rest => 2 * length rest + length (Download.cachedIDs s) + 4
  | Download.PcAcquire _ rest => 2 * length rest + 1 + length (Download.cachedIDs s) + 4
  | Download.PcEvict ids => length ids + 3
  | Download.PcParent => 2
  | Download.PcWait => 1
  | Download.PcDone _ => 0
  end.

(** The parent's reader in the download phase: only the parent of the
    request gets a goroutine; an open reader is the parent's; and once the
    handler waits, the parent's goroutine is running, or has opened the
    reader, or has failed the group. *)
Definition parentInv (peers : Download.Peers) (data : MergeData) (s : Download.State) : Prop :=
  (∀ hash, Download.GoParent hash ∈ Download.running s → md_Parent data = Some hash)
  ∧ (Download.parentReader s = true →
     ∃ hash, md_Parent data = Some hash ∧ Download.GetObjectReader peers hash = None)
  ∧ (Download.pc s = Download.PcWait ∨ (∃ err, Download.pc s = Download.PcDone err) →
     ∀ hash, md_Parent data = Some hash →
       Download.GoParent hash ∈ Download.running s
       ∨ Download.parentReader s = true
       ∨ Download.groupErr s ≠ None).

(** ** Example of a merge *)

(** A store that merges a cache into the concatenation of its trees, and
    whose calls all succeed. *)
Definition exampleStore : Merge.Store :=
  Merge.mkStore 4 "/index"
    (fun cache _ _ _ => (String.concat "+" (map snd (map_to_list cache)), 42, None))
    (fun written => inr ("object-of-" +:+ written))
    (fun written => inr ("index-of-" +:+ written))
    (fun block => inr ("/blocks/" +:+ block))
    (fun _ => None) (fun _ _ => None) (fun _ _ => None) (fun _ => None).

(** A driver whose calls all succeed. *)
Definition plainDriver : Driver :=
  exampleDriver (exampleInfo false false 3 None) ∅ (fun _ => None) None false.

(** A merge request for the chunk [a] with a parent. *)
Definition mergeWithParent : MergeData :=
  mkMergeData "j" [mkHashtreeInfo "" "a"] (Some "parent-hash") 0 false None 0.

(** A store where closing the reader of the parent fails, and peers whose
    object store has lost every chunk. *)
Definition closeFailsStore : Merge.Store :=
  Merge.mkStore 4 "/index"
    (fun cache _ _ _ => (String.concat "+" (map snd (map_to_list cache)), 42, None))
    (fun written => inr ("object-of-" +:+ written))
    (fun written => inr ("index-of-" +:+ written))
    (fun block => inr ("/blocks/" +:+ block))
    (fun _ => None) (fun _ _ => None) (fun _ _ => None)
    (fun _ => Some (mkForeignError "close: broken pipe")).

Definition lostChunks : Download.Peers :=
  Download.mkPeers (fun _ _ _ _ _ => inl (mkForeignError "connection refused"))
                   (fun _ => inl tagNotFound)
                   (fun _ => None) (fun _ => None) (fun _ _ => None).

(** Two stats have the same totals: the same process stats and the same
    four counts. *)
Definition sameTotals (a b : DatumStats) : Prop :=
  ProcessStats_ a = ProcessStats_ b
  ∧ DatumsProcessed a = DatumsProcessed b ∧ DatumsSkipped a = DatumsSkipped b
  ∧ DatumsFailed a = DatumsFailed b ∧ DatumsRecovered a = DatumsRecovered b.

(** ** Specification of the outcome of a datum *)

(** How [processDatum] has counted a datum whose tag is [tag] and whose id
    is [datumID]: not at all; or once, as processed, skipped, failed (with
    its id recorded) or recovered (with its tag returned). *)
Definition outcomeOf (tag datumID : string) (st : DatumStats) (recovered : list string)
    : Prop :=
  (uncounted st ∧ recovered = [])
  ∨ (DatumsProcessed st = 1 ∧ DatumsSkipped st = 0 ∧ DatumsFailed st = 0
     ∧ DatumsRecovered st = 0 ∧ FailedDatumID st = "" ∧ recovered = [])
  ∨ (DatumsProcessed st = 0 ∧ DatumsSkipped st = 1 ∧ DatumsFailed st = 0
     ∧ DatumsRecovered st = 0 ∧ FailedDatumID st = "" ∧ recovered = [])
  ∨ (DatumsProcessed st = 0 ∧ DatumsSkipped st = 0 ∧ DatumsFailed st = 1
     ∧ DatumsRecovered st = 0 ∧ FailedDatumID st = datumID ∧ recovered = [])
  ∨ (DatumsProcessed st = 0 ∧ DatumsSkipped st = 0 ∧ DatumsFailed st = 0
     ∧ DatumsRecovered st = 1 ∧ FailedDatumID st = "" ∧ recovered = [tag]).

(** No output was uploaded since the trace was [evs]. *)
Definition noUploadSince (evs : list Event) (w : World) : Prop :=
  ∀ i t, EvUploadOutput i t ∈ trace w → EvUploadOutput i t ∈ evs.

(** A pipeline that writes its output through the gateway, one whose
    [DatumTries] is zero and whose user code fails, and a store that holds
    the tree of the example datum. *)
Definition s3OutDriver : Driver :=
  exampleDriver (exampleInfo false true 3 None) ∅ (fun _ => None) None false.

Definition noTriesDriver : Driver :=
  exampleDriver (exampleInfo false false 0 (Some ["sh"])) ∅ (fun _ => Some exitStatus1)
                None false.

Definition cachedDriver : Driver :=
  exampleDriver (exampleInfo false false 3 None) {["hash-in" := "tree"]}
                (fun _ => None) None false.

(** User code that fails at every attempt and a handler that succeeds,
    stats being off. *)
Definition recoveringOffDriver : Driver :=
  exampleDriver (exampleInfo false false 3 (Some ["sh"])) ∅ (fun _ => Some exitStatus1)
                None false.

(** The two variables that [userCodeEnv] gives an input. *)
Definition inputVars (p : Process) (input : Input) : list string :=
  [Sprintf "%s=%s" [Name input; filepath_Join p [InputDir p; Name input; FilePath input]];
   Sprintf "%s_COMMIT=%s" [Name input; CommitID input]].

(** [d] with another answer to [InspectObject]. *)
Definition withInspectObject (inspect : string -> ForeignError + string) (d : Driver)
    : Driver :=
  {| Info := Info d;
     HashDatum := HashDatum d;
     DatumID := DatumID d;
     ext_InspectTag := ext_InspectTag d;
     ext_GetTag := ext_GetTag d;
     ext_PutObject := ext_PutObject d;
     ext_InspectObject := inspect;
     ext_DecodeHash := ext_DecodeHash d;
     ext_PutObjectAsync := ext_PutObjectAsync d;
     ext_ObjWrite := ext_ObjWrite d;
     ext_ObjClose := ext_ObjClose d;
     ext_ReadDatums := ext_ReadDatums d;
     ext_NewDatumCaches := ext_NewDatumCaches d;
     ext_GetOrCreateCache := ext_GetOrCreateCache d;
     ext_DownloadData := ext_DownloadData d;
     ext_LinkData := ext_LinkData d;
     ext_RunUserCode := ext_RunUserCode d;
     ext_RunUserErrorHandlingCode := ext_RunUserErrorHandlingCode d;
     ext_UploadOutput := ext_UploadOutput d;
     ext_ContextErr := ext_ContextErr d;
     ext_CachePut := ext_CachePut d;
     ext_CacheMerge := ext_CacheMerge d;
     ext_HashtreeMerge := ext_HashtreeMerge d;
     NewWithoutDashes := NewWithoutDashes d;
     ext_NewLogger := ext_NewLogger d;
     ext_LoggerClose := ext_LoggerClose d;
     ext_PbWrite := ext_PbWrite d;
     ext_MarshalToString := ext_MarshalToString d;
     ext_HttpGetRetried := ext_HttpGetRetried d;
     WorkerIP := WorkerIP d |}.

Definition inspectUnavailable : ForeignError := mkForeignError "inspect: unavailable".

(** User code that fails at every attempt and a handler that succeeds,
    stats being on, with a store that cannot describe the object that
    holds the text of the sentinel. *)
Definition inspectFailsDriver : Driver :=
  withInspectObject
    (fun hash => if decide (hash = "object-" +:+ Error errDatumRecovered)
                 then inl inspectUnavailable else inr ("block-" +:+ hash))
    recoveringDriver.

(** The file entry [file] is called [name] and describes the stored
    [object] (its hash and size): it has the size of the object, the
    decoded hash and the block that [InspectObject] reports. *)
Definition describes (driver : Driver) (name : string) (object : string * Z)
    (file : FileNode) : Prop :=
  ∃ blockRef h,
    InspectObject driver object.1 = inr blockRef
    ∧ DecodeHash driver object.1 = inr h
    ∧ file = mkFileNode name (Some h) object.2 (Some blockRef).

(** A pipeline with stats on whose logger has made an object. *)
Definition loggingDriver : Driver :=
  {| Info := Info failingDriver;
     HashDatum := HashDatum failingDriver;
     DatumID := DatumID failingDriver;
     ext_InspectTag := ext_InspectTag failingDriver;
     ext_GetTag := ext_GetTag failingDriver;
     ext_PutObject := ext_PutObject failingDriver;
     ext_InspectObject := ext_InspectObject failingDriver;
     ext_DecodeHash := ext_DecodeHash failingDriver;
     ext_PutObjectAsync := ext_PutObjectAsync failingDriver;
     ext_ObjWrite := ext_ObjWrite failingDriver;
     ext_ObjClose := ext_ObjClose failingDriver;
     ext_ReadDatums := ext_ReadDatums failingDriver;
     ext_NewDatumCaches := ext_NewDatumCaches failingDriver;
     ext_GetOrCreateCache := ext_GetOrCreateCache failingDriver;
     ext_DownloadData := ext_DownloadData failingDriver;
     ext_LinkData := ext_LinkData failingDriver;
     ext_RunUserCode := ext_RunUserCode failingDriver;
     ext_RunUserErrorHandlingCode := ext_RunUserErrorHandlingCode failingDriver;
     ext_UploadOutput := ext_UploadOutput failingDriver;
     ext_ContextErr := ext_ContextErr failingDriver;
     ext_CachePut := ext_CachePut failingDriver;
     ext_CacheMerge := ext_CacheMerge failingDriver;
     ext_HashtreeMerge := fun trees =>
       inr (String.concat "+"
              (map (fun t => String.concat "," (map fn_path (ht_files t))) trees));
     NewWithoutDashes := NewWithoutDashes failingDriver;
     ext_NewLogger := ext_NewLogger failingDriver;
     ext_LoggerClose := fun _ => inr (Some ("object-logs", 7));
     ext_PbWrite := ext_PbWrite failingDriver;
     ext_MarshalToString := ext_MarshalToString failingDriver;
     ext_HttpGetRetried := ext_HttpGetRetried failingDriver;
     WorkerIP := WorkerIP failingDriver |}.

(** * Properties *)

(** ** Tag naming *)

Lemma append_empty_r (s : string) : s +:+ "" = s.
Proof.
  induction s as [|c s IH]; [reflexivity |].
  change (String c (s +:+ "") = String c s). now rewrite IH.
Qed.

(** The only tagged object that [writeStats] commits is tagged with the
    datum's tag followed by [_stats]. *)
Lemma writeStats_tag (driver : Driver) inputs ps it ot st (tag : string) (w : World)
    (tags : list string) (buf : bytes) :
  EvPutObjectAsync tags buf ∈ trace (writeStats driver inputs ps it ot st tag w).2 →
  EvPutObjectAsync tags buf ∈ trace w ∨ tags = [tag +:+ "_stats"].
Proof.
  unfold writeStats, putObjectFile, commitObject, statsTagSuffix.
  repeat case_match; simplify_eq; cbn; intros Hin; in_events; auto;
    injection Hin as -> ->; now right.
Qed.

(** A cache hit that is counted with stats enabled has fetched the stats
    tree under the datum's tag followed by [_stats]. *)
Lemma cacheProbe_stats_tag (driver : Driver) (tag : string) (w w' : World)
    (st : DatumStats) (recovered : list string) :
  cacheProbe driver tag w = ((st, recovered, None), w') →
  EnableStats (Info driver) = true →
  DatumsSkipped st = 1 →
  ∃ key statsBuf, GetTag driver (tag +:+ "_stats") = inr statsBuf
                  ∧ datumStatsCache w' = <[key := statsBuf]> (datumStatsCache w).
Proof.
  unfold cacheProbe, newUUID, MergeCache_Put, statsTagSuffix. intros Hrun Hstats Hskipped.
  rewrite Hstats in Hrun.
  repeat case_match; simplify_eq; cbn in *; try discriminate; eauto.
Qed.

(** C9: the three job tags are the job's prefix, a fixed infix and the
    subtask id, for every job and subtask; and the tag of a datum's stats
    tree is the datum's tag followed by [_stats], in the constant, in what
    [writeStats] commits and in what the cache probe fetches. *)
Theorem tag_names (jobTagPrefix : string -> string) (job sub datumTag : string) :
  jobRecoveredDatumsTag jobTagPrefix job sub = jobTagPrefix job +:+ "-recovered-" +:+ sub
  ∧ jobChunkStatsTag jobTagPrefix job sub = jobTagPrefix job +:+ "-chunk-stats-" +:+ sub
  ∧ jobChunkTag jobTagPrefix job sub = jobTagPrefix job +:+ "-chunk-" +:+ sub
  ∧ datumTag +:+ statsTagSuffix = datumTag +:+ "_stats"
  ∧ (∀ driver inputs ps it ot st w tags buf,
       EvPutObjectAsync tags buf ∈ trace (writeStats driver inputs ps it ot st datumTag w).2 →
       EvPutObjectAsync tags buf ∈ trace w ∨ tags = [datumTag +:+ "_stats"])
  ∧ (∀ driver w w' st recovered,
       cacheProbe driver datumTag w = ((st, recovered, None), w') →
       EnableStats (Info driver) = true →
       DatumsSkipped st = 1 →
       ∃ key statsBuf, GetTag driver (datumTag +:+ "_stats") = inr statsBuf
                       ∧ datumStatsCache w' = <[key := statsBuf]> (datumStatsCache w)).
Proof.
  unfold jobRecoveredDatumsTag, jobChunkStatsTag, jobChunkTag, statsTagSuffix.
  cbn [Sprintf]. rewrite append_empty_r.
  split; [reflexivity |]. split; [reflexivity |]. split; [reflexivity |].
  split; [reflexivity |]. split.
  - intros. eapply writeStats_tag; eassumption.
  - intros. eapply cacheProbe_stats_tag; eassumption.
Qed.

Lemma tag_names_witness :
  jobChunkTag examplePrefix "j" "s" = "job-j-chunk-s"
  ∧ jobChunkStatsTag examplePrefix "j" "s" = "job-j-chunk-stats-s"
  ∧ jobRecoveredDatumsTag examplePrefix "j" "s" = "job-j-recovered-s"
  ∧ EvPutObjectAsync ["hash-in_stats"] "stats-tree"
    ∈ trace (writeStats failingDriver [exampleInput] None (NewTree []) (NewTree [])
               (NewTree []) "hash-in" emptyWorld).2.
Proof.
  destruct (tag_names examplePrefix "j" "s" "hash-in") as (Hr & Hs & Hc & _ & Hw & _).
  split; [exact Hc |]. split; [exact Hs |]. split; [exact Hr |].
  assert (Hin : EvPutObjectAsync ["hash-in_stats"] "stats-tree"
                ∈ trace (writeStats failingDriver [exampleInput] None (NewTree [])
                           (NewTree []) (NewTree []) "hash-in" emptyWorld).2)
    by apply list_elem_of_here.
  destruct (Hw _ _ _ _ _ _ _ _ _ Hin) as [Hold | _]; [| exact Hin].
  now apply elem_of_nil in Hold.
Defined.

(** ** Merging statistics *)

Lemma int64_range (z : Z) : - 2 ^ 63 <= int64 z < 2 ^ 63.
Proof. unfold int64. pose proof (Z.mod_pos_bound (z + 2 ^ 63) (2 ^ 64)). lia. Qed.

Lemma int64_small (z : Z) : - 2 ^ 63 <= z < 2 ^ 63 → int64 z = z.
Proof. intros H. unfold int64. rewrite Z.mod_small; lia. Qed.

Lemma int32_small (z : Z) : - 2 ^ 31 <= z < 2 ^ 31 → int32 z = z.
Proof. intros H. unfold int32. rewrite Z.mod_small; lia. Qed.

(** Go's truncated division by a billion. *)
Lemma quot_billion (d : Z) :
  ∃ q r, Z.quot d 1000000000 = q ∧ d = 1000000000 * q + r
         ∧ (0 <= d → 0 <= q ∧ 0 <= r < 1000000000)
         ∧ (d < 0 → q <= 0 ∧ - 1000000000 < r <= 0).
Proof.
  exists (Z.quot d 1000000000), (Z.rem d 1000000000).
  pose proof (Z.quot_rem' d 1000000000) as Hqr.
  split; [reflexivity |]. split; [exact Hqr |]. split; intros Hd.
  - pose proof (Z.rem_bound_pos d 1000000000 Hd ltac:(lia)).
    pose proof (Z.quot_pos d 1000000000 Hd ltac:(lia)). lia.
  - pose proof (Z.rem_bound_pos (- d) 1000000000 ltac:(lia) ltac:(lia)) as Hr.
    pose proof (Z.quot_pos (- d) 1000000000 ltac:(lia) ltac:(lia)) as Hq.
    rewrite Z.rem_opp_l in Hr by lia. rewrite Z.quot_opp_l in Hq by lia. lia.
Qed.

(** A [time.Duration] survives the way to the message and back. *)
Lemma DurationFromProto_DurationProto (d : Z) :
  - 2 ^ 63 <= d < 2 ^ 63 →
  types.DurationFromProto (types.DurationProto d) = inr d.
Proof.
  intros Hd. unfold types.DurationProto.
  destruct (quot_billion d) as (q & r & Hq & Hsplit & Hpos & Hneg). rewrite Hq.
  assert (Hq64 : int64 (q * 1000000000) = q * 1000000000) by (apply int64_small; lia).
  rewrite Hq64.
  assert (Hr : d - q * 1000000000 = r) by lia. rewrite Hr.
  assert (Hr64 : int64 r = r) by (apply int64_small; lia). rewrite Hr64.
  assert (Hr32 : int32 r = r) by (apply int32_small; lia). rewrite Hr32.
  unfold types.DurationFromProto, types.validateDuration, types.minSeconds,
    types.maxSeconds, types.second. cbn [Seconds Nanos].
  assert (Hquot : Z.quot (q * 1000000000) 1000000000 = q) by (apply Z.quot_mul; lia).
  repeat match goal with
         | |- context [?a <? ?b] => destruct (Z.ltb_spec a b)
         | |- context [?a <=? ?b] => destruct (Z.leb_spec a b)
         | |- context [?a =? ?b] => destruct (Z.eqb_spec a b)
         end; cbn; rewrite ?Hq64, ?Hquot in *; cbn;
    repeat match goal with
           | |- context [?a <? ?b] => destruct (Z.ltb_spec a b)
           | |- context [?a =? ?b] => destruct (Z.eqb_spec a b)
           | H : context [int64 (?a + ?b)] |- _ =>
               rewrite (int64_small (a + b)) in H by lia
           | |- context [int64 (?a + ?b)] => rewrite (int64_small (a + b)) by lia
           end; cbn; try (f_equal; lia); try lia.
Qed.

Lemma nanoseconds_range (d : option Duration) (n : Z) :
  nanoseconds d = Some n → - 2 ^ 63 <= n < 2 ^ 63.
Proof.
  destruct d as [d|]; cbn; [| intros [= <-]; lia].
  unfold types.DurationFromProto.
  destruct (types.validateDuration d); [discriminate |].
  repeat match goal with
         | |- context [if ?b then _ else _] => destruct b
         end; try discriminate; intros [= <-]; apply int64_range.
Qed.

Lemma plusDuration_sum (a b : option Duration) (na nb : Z) :
  nanoseconds a = Some na → nanoseconds b = Some nb →
  plusDuration a b = inr (types.DurationProto (int64 (na + nb)))
  ∧ duration_sum a b (Some (types.DurationProto (int64 (na + nb)))).
Proof.
  intros Ha Hb. split.
  - unfold plusDuration, nanoseconds in *.
    destruct a as [a|], b as [b|];
      repeat match goal with
             | H : context [types.DurationFromProto ?p] |- _ =>
                 destruct (types.DurationFromProto p); [discriminate |]
             end; cbn; now simplify_eq.
  - exists na, nb. repeat split; [assumption.. |].
    cbn. now rewrite DurationFromProto_DurationProto by apply int64_range.
Qed.

Lemma nanoseconds_valid (d : option Duration) :
  nanoseconds d ≠ None → ∃ n, nanoseconds d = Some n.
Proof. destruct (nanoseconds d) as [n|]; [eauto | congruence]. Qed.

(** C6, amended: on every pair of stats that is mergeable ([x] has process
    stats whenever [y] has, and their durations are valid), [mergeStats]
    returns no error and leaves in [x] the sums of the durations, of the
    byte counts and of the four datum counts, and the failed datum id of
    [y] only when [x] had none. *)
Theorem mergeStats_adds (x y : DatumStats) :
  mergeable x y →
  ∃ x', mergeStats x y = Returned (x', None) ∧ merged x y x'.
Proof.
  unfold mergeable, mergeStats, merged.
  destruct (ProcessStats_ y) as [yps|]; [| intros _; eexists; split; [reflexivity |]; cbn; tauto].
  destruct (ProcessStats_ x) as [xps|]; [| tauto].
  intros [(Hx1 & Hx2 & Hx3) (Hy1 & Hy2 & Hy3)].
  apply nanoseconds_valid in Hx1 as [x1 Hx1], Hx2 as [x2 Hx2], Hx3 as [x3 Hx3].
  apply nanoseconds_valid in Hy1 as [y1 Hy1], Hy2 as [y2 Hy2], Hy3 as [y3 Hy3].
  destruct (plusDuration_sum _ _ _ _ Hx1 Hy1) as [-> Hd].
  destruct (plusDuration_sum _ _ _ _ Hx2 Hy2) as [-> Hp].
  destruct (plusDuration_sum _ _ _ _ Hx3 Hy3) as [-> Hu].
  eexists; split; [reflexivity |]. cbn.
  repeat split; try reflexivity.
  eexists _, _. repeat split; cbn; assumption.
Qed.

Lemma mergeStats_adds_witness :
  mergeable twoSeconds threeFailed
  ∧ ∃ x', mergeStats twoSeconds threeFailed = Returned (x', None)
          ∧ merged twoSeconds threeFailed x'.
Proof.
  assert (H : mergeable twoSeconds threeFailed).
  { cbn. repeat split; discriminate. }
  split; [exact H | exact (mergeStats_adds twoSeconds threeFailed H)].
Defined.

(** C6 as stated fails on stats that are not mergeable: with no process
    stats in [x] the call panics, and with a duration that
    [DurationFromProto] refuses it returns the error before any count is
    added. *)
Lemma mergeStats_adds_counterexample :
  (¬ ∃ x' err, mergeStats statsWithoutProcessStats oneProcessed = Returned (x', err)
               ∧ merged statsWithoutProcessStats oneProcessed x')
  ∧ (¬ ∃ x' err, mergeStats statsAtStart oneProcessedBadDuration = Returned (x', err)
                 ∧ merged statsAtStart oneProcessedBadDuration x').
Proof.
  split.
  - intros (x' & err & H & _). discriminate H.
  - intros (x' & err & H & Hm & _). cbn in H. injection H as <- <-.
    cbn in Hm. discriminate Hm.
Qed.

(** ** The cache probe *)

(** The probe, case by case: a failed stats fetch ends the call with no
    error and before the skipped count is touched. *)
Lemma cacheProbe_stats_miss (driver : Driver) (tag : string) (w : World)
    (buf : bytes) (e : ForeignError) :
  EnableStats (Info driver) = true →
  ext_GetTag driver tag = inr buf →
  ext_CachePut driver (NewWithoutDashes driver (uuids w)) buf = None →
  ext_GetTag driver (tag +:+ "_stats") = inl e →
  ∃ w', cacheProbe driver tag w = ((emptyDatumStats, [], None), w')
        ∧ datumCache w' = <[NewWithoutDashes driver (uuids w) := buf]> (datumCache w)
        ∧ datumStatsCache w' = datumStatsCache w.
Proof.
  intros Hstats Hget Hput Hmiss.
  unfold cacheProbe, GetTag, MergeCache_Put, CachePut, newUUID, statsTagSuffix.
  rewrite Hget. cbn. rewrite Hput, Hstats, Hmiss. cbn.
  eexists; split; [reflexivity |]. split; reflexivity.
Qed.

(** C1 (violated by the code): the tag of the example datum is in the
    store, stats are enabled and the fetch of the stats tree fails;
    [processDatum] returns no error, but [DatumsSkipped] is still 0 in the
    stats it returns. *)
Theorem processDatum_stats_miss_not_skipped :
  InspectTag statsMissDriver "hash-in" = None
  ∧ GetTag statsMissDriver "hash-in_stats" = inl (foreign tagNotFound)
  ∧ ∃ w', processDatum 1 statsMissDriver "j" 0 [exampleInput] "commit-out" emptyWorld
          = Returned ((emptyDatumStats, [], None), w')
  ∧ DatumsSkipped emptyDatumStats = 0.
Proof.
  split; [reflexivity |]. split; [reflexivity |].
  eexists. split; [vm_compute; reflexivity | reflexivity].
Qed.

(** C2 (violated by the code, by the same early return): a subtask of one
    datum, handled without error, whose four counts add up to 0. *)
Theorem handleDatumTask_count_lost :
  ReadDatums statsMissDriver (dd_Datums exampleData) = inr [mkDatumInputs 0 [exampleInput]]
  ∧ ∃ data' w' st,
      handleDatumTask examplePrefix 1 statsMissDriver "j" exampleData "s" emptyWorld
      = Returned ((data', None), w')
      ∧ dd_Stats data' = Some st
      ∧ datumCount st = 0.
Proof.
  split; [reflexivity |].
  eexists _, _, _. split; [vm_compute; reflexivity |]. split; reflexivity.
Qed.

(** ** Recovered datums *)

Lemma uploadRecoveredDatums_write_error (driver : Driver) (hashes : list string)
    (tag : string) (w : World) (e : ForeignError) :
  ext_PbWrite driver hashes = inl e →
  uploadRecoveredDatums driver hashes tag w = (None, w).
Proof. intros H. unfold uploadRecoveredDatums, LogStep, PbWrite. now rewrite H. Qed.

(** C5 (violated by the code): writing the message fails, and
    [uploadRecoveredDatums] returns [nil] instead of the error, having
    stored nothing. *)
Theorem uploadRecoveredDatums_swallows_error :
  PbWrite pbFailsDriver ["hash-in"] = inl (foreign (mkForeignError "proto: marshal failed"))
  ∧ uploadRecoveredDatums pbFailsDriver ["hash-in"]
      (jobRecoveredDatumsTag examplePrefix "j" "s") emptyWorld
    = (None, emptyWorld).
Proof. split; reflexivity. Qed.

(** ** The dispatcher *)

(** C7: a payload that decodes as [DatumData] goes to the datum handler,
    whatever the merge decoder would say; otherwise one that decodes as
    [MergeData] goes to the merge handler; otherwise the subtask fails with
    the unrecognized-format error.  When the handler fails its error is
    returned and the subtask is left as it was; when it succeeds the
    payload as the handler left it is encoded again and stored in the
    subtask. *)
Theorem Worker_dispatch (jobTagPrefix : string → string)
    (deserializeDatumData : option bytes → error + DatumData)
    (serializeDatumData : DatumData → option bytes * option error)
    (deserializeMergeData : option bytes → error + MergeData)
    (serializeMergeData : MergeData → option bytes * option error)
    (handleMergeTask :
       Driver → string → MergeData → World → outcome ((MergeData * option error) * World))
    (fuel : nat) (driver : Driver) (subtask : Task) (w : World) :
  let worker :=
    Worker jobTagPrefix deserializeDatumData serializeDatumData deserializeMergeData
           serializeMergeData handleMergeTask fuel driver subtask w in
  (∀ datumData datumData1 err w1,
      deserializeDatumData (Data subtask) = inr datumData →
      handleDatumTask jobTagPrefix fuel driver (dd_JobID datumData) datumData (ID subtask) w
      = Returned ((datumData1, err), w1) →
      worker = Returned (match err with
                         | Some e => (subtask, Some e)
                         | None => (mkTask (ID subtask) (serializeDatumData datumData1).1,
                                    (serializeDatumData datumData1).2)
                         end, w1))
  ∧ (∀ e mergeData mergeData1 err w1,
      deserializeDatumData (Data subtask) = inl e →
      deserializeMergeData (Data subtask) = inr mergeData →
      handleMergeTask driver (md_JobID mergeData) mergeData w
      = Returned ((mergeData1, err), w1) →
      worker = Returned (match err with
                         | Some e => (subtask, Some e)
                         | None => (mkTask (ID subtask) (serializeMergeData mergeData1).1,
                                    (serializeMergeData mergeData1).2)
                         end, w1))
  ∧ (∀ e1 e2,
      deserializeDatumData (Data subtask) = inl e1 →
      deserializeMergeData (Data subtask) = inl e2 →
      worker = Returned ((subtask, Some (errorsNew "worker task format unrecognized")), w)).
Proof.
  cbv zeta. unfold Worker, withJob, LogStep. repeat split.
  - intros d d1 err w1 -> ->. destruct err; [reflexivity |].
    now destruct (serializeDatumData d1).
  - intros e m m1 err w1 -> -> ->. destruct err; [reflexivity |].
    now destruct (serializeMergeData m1).
  - intros e1 e2 -> ->. reflexivity.
Qed.

Lemma Worker_dispatch_witness :
  (∃ w1, toyWorker (mkTask "s" (Some "Dj")) = Returned ((mkTask "s" (Some "dj"), None), w1))
  ∧ toyWorker (mkTask "s" (Some "Mj")) = Returned ((mkTask "s" (Some "mj"), None), emptyWorld)
  ∧ toyWorker (mkTask "s" (Some "?"))
    = Returned ((mkTask "s" (Some "?"), Some (errorsNew "worker task format unrecognized")),
                emptyWorld).
Proof.
  split; [| split].
  - destruct (Worker_dispatch examplePrefix toyDeserializeDatumData toySerializeDatumData
                toyDeserializeMergeData toySerializeMergeData toyHandleMergeTask
                1 statsMissDriver (mkTask "s" (Some "Dj")) emptyWorld) as (H & _ & _).
    assert (Hrun : ∃ d1 w1,
               handleDatumTask examplePrefix 1 statsMissDriver "j"
                 (mkDatumData "j" "datums" "commit-out" None None "" None) "s" emptyWorld
               = Returned ((d1, None), w1) ∧ dd_JobID d1 = "j").
    { eexists _, _. split; [vm_compute; reflexivity | reflexivity]. }
    destruct Hrun as (d1 & w1 & Hrun & Hjob).
    exists w1. unfold toyWorker. rewrite (H _ d1 None w1 eq_refl Hrun).
    cbn. now rewrite Hjob.
  - destruct (Worker_dispatch examplePrefix toyDeserializeDatumData toySerializeDatumData
                toyDeserializeMergeData toySerializeMergeData toyHandleMergeTask
                1 statsMissDriver (mkTask "s" (Some "Mj")) emptyWorld) as (_ & H & _).
    unfold toyWorker. now rewrite (H _ _ _ None emptyWorld eq_refl eq_refl eq_refl).
  - destruct (Worker_dispatch examplePrefix toyDeserializeDatumData toySerializeDatumData
                toyDeserializeMergeData toySerializeMergeData toyHandleMergeTask
                1 statsMissDriver (mkTask "s" (Some "?")) emptyWorld) as (_ & _ & H).
    unfold toyWorker. now rewrite (H _ _ eq_refl eq_refl).
Defined.

(** ** The retry loop, in general *)

(** A property that the operation and the notification keep is kept by the
    loop. *)
Lemma RetryUntilCancel_invariant {St : Type} (P : St → Prop) (fuel : nat)
    (ctxErr : St → option error) (op : St → option error * St)
    (nt : error → St → option error * St) (s s' : St) (r : option error) :
  (∀ s0 e s1, P s0 → op s0 = (e, s1) → P s1) →
  (∀ err s0 e s1, P s0 → nt err s0 = (e, s1) → P s1) →
  P s →
  RetryUntilCancel fuel ctxErr op nt s = Returned (r, s') →
  P s'.
Proof.
  intros Hop Hnt. revert s.
  induction fuel as [|fuel IH]; intros s Hs; cbn; [discriminate |].
  destruct (op s) as [[err|] s1] eqn:Eop.
  - destruct (nt err s1) as [[err'|] s2] eqn:Ent.
    + intros [= <- <-]. eauto.
    + destruct (ctxErr s2).
      * intros [= <- <-]. eauto.
      * apply IH. eauto.
  - intros [= <- <-]. eauto.
Qed.

(** ** What the datum tasks leave alone: the chunk caches of the job *)

Lemma putObjectFile_chunkCaches (driver : Driver) (name : string) (content : bytes)
    (w : World) r w1 :
  putObjectFile driver name content w = (r, w1) → chunkCaches w1 = chunkCaches w.
Proof. unfold putObjectFile. intros H. repeat case_match; simplify_eq; reflexivity. Qed.

Lemma commitObject_chunkCaches (driver : Driver) (tags : list string) (buf : bytes)
    (w : World) :
  chunkCaches (commitObject driver tags buf w).2 = chunkCaches w.
Proof. unfold commitObject. case_match; reflexivity. Qed.

Lemma writeStats_chunkCaches (driver : Driver) inputs ps it ot st tag (w : World) :
  chunkCaches (writeStats driver inputs ps it ot st tag w).2 = chunkCaches w.
Proof.
  unfold writeStats.
  destruct (MarshalToString driver ps); [reflexivity |].
  destruct (putObjectFile _ _ _ _) as [r w1] eqn:Eput.
  apply putObjectFile_chunkCaches in Eput. rewrite <- Eput.
  repeat case_match; simplify_eq; cbn; rewrite ?commitObject_chunkCaches; reflexivity.
Qed.

Lemma operation_chunkCaches (driver : Driver) inputs tag (l l1 : Locals) e :
  operation driver inputs tag l = (e, l1) → chunkCaches (world l1) = chunkCaches (world l).
Proof.
  unfold operation, WithData, WithActiveData, withDatum, runUserCode, newUUID. intros H.
  repeat case_match; simplify_eq; reflexivity.
Qed.

Lemma notify_chunkCaches (driver : Driver) datumID err (l l1 : Locals) e :
  notify driver datumID err l = (e, l1) → chunkCaches (world l1) = chunkCaches (world l).
Proof.
  unfold notify. intros H.
  destruct (DatumTries (Info driver) <=? int64 (failures l + 1)).
  - destruct (statsTree l); [| simplify_eq; reflexivity].
    destruct (putObjectFile _ _ _ _) as [r w1] eqn:Eput.
    apply putObjectFile_chunkCaches in Eput.
    repeat case_match; simplify_eq; cbn; assumption.
  - repeat case_match; simplify_eq; reflexivity.
Qed.

Lemma cacheProbe_chunkCaches (driver : Driver) tag (w : World) :
  chunkCaches (cacheProbe driver tag w).2 = chunkCaches w.
Proof. unfold cacheProbe, newUUID. repeat case_match; simplify_eq; reflexivity. Qed.

Lemma afterLoop_chunkCaches (driver : Driver) inputs tag datumID err (l1 : Locals) r w' :
  afterLoop driver inputs tag datumID err l1 = Returned (r, w') →
  chunkCaches w' = chunkCaches (world l1).
Proof.
  unfold afterLoop. destruct (classify _ _ _ _) as [stats1 recovered].
  destruct (EnableStats (Info driver)); [| intros [= <- <-]; reflexivity].
  destruct (inputTree l1) as [it|], (outputTree l1) as [ot|], (statsTree l1) as [st|];
    try discriminate.
  pose proof (writeStats_chunkCaches driver inputs (ProcessStats_ stats1) it ot st tag
                (world l1)) as H.
  destruct (writeStats _ _ _ _ _ _ _ _) as [werr w2]. now intros [= <- <-].
Qed.

Lemma retryLoop_chunkCaches fuel (driver : Driver) inputs tag datumID (l l1 : Locals) err :
  retryLoop fuel driver inputs tag datumID l = Returned (err, l1) →
  chunkCaches (world l1) = chunkCaches (world l).
Proof.
  apply (RetryUntilCancel_invariant (λ l0, chunkCaches (world l0) = chunkCaches (world l))).
  - intros s0 e s1 Hs0 Hop. apply operation_chunkCaches in Hop. congruence.
  - intros err0 s0 e s1 Hs0 Hnt. apply notify_chunkCaches in Hnt. congruence.
  - reflexivity.
Qed.

Lemma processDatum_chunkCaches fuel (driver : Driver) jobID index inputs commit
    (w w' : World) r :
  processDatum fuel driver jobID index inputs commit w = Returned (r, w') →
  chunkCaches w' = chunkCaches w.
Proof.
  unfold processDatum.
  destruct (InspectTag driver _).
  2:{ intros [= H].
      pose proof (cacheProbe_chunkCaches driver
                    (HashDatum driver (PipelineName (Info driver)) (Salt (Info driver)) inputs)
                    w) as H'.
      now rewrite H in H'. }
  assert (Hrun : ∀ l,
    match retryLoop fuel driver inputs
            (HashDatum driver (PipelineName (Info driver)) (Salt (Info driver)) inputs)
            (DatumID driver inputs) l with
    | Returned (err, l1) =>
        afterLoop driver inputs
          (HashDatum driver (PipelineName (Info driver)) (Salt (Info driver)) inputs)
          (DatumID driver inputs) err l1
    | Panicked => Panicked
    | OutOfFuel => OutOfFuel
    end = Returned (r, w') → chunkCaches w' = chunkCaches (world l)).
  { intros l. destruct (retryLoop _ _ _ _ _ _) as [[err l1]| |] eqn:Eloop; try discriminate.
    intros H. apply afterLoop_chunkCaches in H. apply retryLoop_chunkCaches in Eloop.
    congruence. }
  destruct (EnableStats (Info driver)).
  - destruct (putObjectFile _ _ _ _) as [res w1] eqn:Eput.
    apply putObjectFile_chunkCaches in Eput.
    destruct res as [e1|[e2|file]].
    + now intros [= <- <-].
    + now intros [= <- <-].
    + intros H. apply Hrun in H. cbn in H. congruence.
  - intros H. apply Hrun in H. exact H.
Qed.

Lemma datumTask_chunkCaches fuel (driver : Driver) jobID commit datum (f f1 : FanOut) :
  datumTask fuel driver jobID commit datum f = Returned f1 →
  chunkCaches (fanWorld f1) = chunkCaches (fanWorld f).
Proof.
  unfold datumTask. destruct (NewLogger driver _); [now intros [= <-] |].
  destruct (processDatum _ _ _ _ _ _ _) as [[[[subStats subRecovered] err] w1]| |] eqn:E;
    try discriminate.
  apply processDatum_chunkCaches in E.
  destruct (mergeStats _ _) as [[merged statsErr]| |]; try discriminate.
  destruct err; now intros [= <-].
Qed.

Lemma fanOut_chunkCaches fuel (driver : Driver) jobID commit datums (f f1 : FanOut) :
  fanOut fuel driver jobID commit datums f = Returned f1 →
  chunkCaches (fanWorld f1) = chunkCaches (fanWorld f).
Proof.
  revert f. induction datums as [|datum rest IH]; intros f; cbn.
  - now intros [= <-].
  - destruct (datumTask _ _ _ _ _ _) as [f0| |] eqn:E; try discriminate.
    intros H. apply IH in H. apply datumTask_chunkCaches in E. congruence.
Qed.

(** ** Publishing the chunks *)

Lemma elem_of_trace_emit (ev ev' : Event) (w : World) :
  ev ∈ trace w → ev ∈ trace (emit ev' w).
Proof. cbn. apply list_elem_of_further. Qed.

(** [uploadChunk] without an error has published the chunk; with one it
    may have put it in the cache, but the object is not there. *)
Lemma uploadChunk_ok (driver : Driver) (cache : gmap string bytes) (stats : bool)
    (jobID tag : string) (w w' : World) :
  uploadChunk driver cache stats jobID tag w = (None, w') →
  published stats jobID tag w'
  ∧ registry (negb stats) w' = registry (negb stats) w
  ∧ datumCache w' = datumCache w ∧ datumStatsCache w' = datumStatsCache w
  ∧ ∀ ev, ev ∈ trace w → ev ∈ trace w'.
Proof.
  unfold uploadChunk, LogStep, MergeCache_Put, commitObject.
  destruct (CacheMerge driver cache) as [|buf]; [discriminate |].
  destruct (CachePut driver tag buf); [discriminate |].
  destruct (PutObjectAsync driver [tag]); [discriminate |].
  destruct (ObjWrite driver [tag] buf); [discriminate |].
  destruct (ObjClose driver [tag] buf); [discriminate |].
  intros [= <-]. split; [| destruct stats; cbn; auto using list_elem_of_further].
  exists buf. split.
  - unfold chunkCacheOf. destruct stats; cbn; rewrite lookup_insert_eq; cbn;
      apply lookup_insert_eq.
  - destruct stats; cbn; apply list_elem_of_here.
Qed.

Lemma getOrCreateCache_spec (driver : Driver) (stats : bool) (jobID : string)
    (w w' : World) e :
  getOrCreateCache driver stats jobID w = (e, w') →
  (∀ stats' job, chunkCacheOf stats' job w' = chunkCacheOf stats' job w)
  ∧ registry (negb stats) w' = registry (negb stats) w
  ∧ datumCache w' = datumCache w ∧ datumStatsCache w' = datumStatsCache w
  ∧ trace w' = trace w.
Proof.
  unfold getOrCreateCache. destruct (GetOrCreateCache driver stats jobID).
  - intros [= <- <-]. auto.
  - intros [= <- <-]. split; [| destruct stats; cbn; auto].
    intros stats' job. unfold chunkCacheOf.
    destruct stats, stats'; cbn; try reflexivity;
      (destruct (decide (jobID = job)) as [->|Hne];
       [rewrite lookup_insert_eq; now destruct (_ !! job)
       | now rewrite lookup_insert_ne]).
Qed.

Lemma published_mono (stats : bool) (jobID tag : string) (w w' : World) :
  registry stats w' = registry stats w →
  (∀ ev, ev ∈ trace w → ev ∈ trace w') →
  published stats jobID tag w → published stats jobID tag w'.
Proof.
  intros Hreg Htrace (buf & Hcache & Hev). exists buf. split; [| auto].
  unfold chunkCacheOf in *. now rewrite Hreg.
Qed.

Section Publishing.

Variable jobTagPrefix : string → string.
Variable driver : Driver.
Variables jobID subtaskID : string.

Let chunkInfo : HashtreeInfo :=
  mkHashtreeInfo (WorkerIP driver) (jobChunkTag jobTagPrefix jobID subtaskID).
Let statsInfo : HashtreeInfo :=
  mkHashtreeInfo (WorkerIP driver) (jobChunkStatsTag jobTagPrefix jobID subtaskID).

Lemma uploadRecoveredDatums_world (recovered : list string) (tag : string) (w w' : World) e :
  uploadRecoveredDatums driver recovered tag w = (e, w') →
  chunkCaches w' = chunkCaches w ∧ chunkStatsCaches w' = chunkStatsCaches w
  ∧ datumCache w' = datumCache w ∧ datumStatsCache w' = datumStatsCache w.
Proof.
  unfold uploadRecoveredDatums, LogStep. intros H. repeat case_match; simplify_eq; cbn; auto.
Qed.

Lemma publishOutput_spec (data data' : DatumData) (failed : Z) (recovered : list string)
    (w w' : World) (err : option error) :
  publishOutput jobTagPrefix driver jobID subtaskID data failed recovered w
  = ((data', err), w') →
  dd_Stats data' = dd_Stats data
  ∧ dd_StatsHashtree data' = dd_StatsHashtree data
  ∧ chunkStatsCaches w' = chunkStatsCaches w
  ∧ (failed ≠ 0 ∨ S3Out (Info driver) = true → data' = data ∧ w' = w)
  ∧ (dd_ChunkHashtree data' = dd_ChunkHashtree data
     ∨ failed = 0 ∧ S3Out (Info driver) = false ∧ err = None
       ∧ dd_ChunkHashtree data' = Some chunkInfo
       ∧ published false jobID (Tag chunkInfo) w')
  ∧ (err = None → failed = 0 → S3Out (Info driver) = false →
     dd_ChunkHashtree data' = Some chunkInfo).
Proof.
  unfold publishOutput.
  destruct (Z.eqb_spec failed 0) as [Hf|Hf]; cbn [andb];
    [destruct (S3Out (Info driver)) eqn:Hs3; cbn [negb] |].
  2:{ (* the chunk is wanted *)
    destruct (if 0 <? Z.of_nat (length recovered) then _ else _)
      as [[data1 err1] w1] eqn:Erec.
    assert (Hrec : dd_Stats data1 = dd_Stats data
                   ∧ dd_StatsHashtree data1 = dd_StatsHashtree data
                   ∧ dd_ChunkHashtree data1 = dd_ChunkHashtree data
                   ∧ chunkStatsCaches w1 = chunkStatsCaches w).
    { destruct (0 <? Z.of_nat (length recovered)); [| now simplify_eq].
      destruct (uploadRecoveredDatums _ _ _ _) as [[e|] w0] eqn:Eup;
        apply uploadRecoveredDatums_world in Eup; simplify_eq; cbn; tauto. }
    destruct Hrec as (Hst & Hsh & Hch & Hcs).
    destruct err1 as [e|].
    { intros [= <- <- <-].
      repeat split; try assumption; try pub_absurd;
        try (left; assumption); discriminate. }
    destruct (getOrCreateCache driver false jobID w1) as [[e|] w2] eqn:Eget;
      apply getOrCreateCache_spec in Eget as (Hcache & Hreg & Hdc & Hdsc & Htr); cbn in Hreg.
    { intros [= <- <- <-].
      repeat split; try assumption; try congruence; try pub_absurd;
        try (left; assumption); discriminate. }
    destruct (uploadChunk _ _ _ _ _ _) as [[e|] w3] eqn:Eup.
    { intros [= <- <- <-].
      unfold uploadChunk, LogStep, MergeCache_Put, commitObject in Eup.
      assert (chunkStatsCaches w3 = chunkStatsCaches w2).
      { repeat case_match; simplify_eq; reflexivity. }
      repeat split; try assumption; try congruence; try pub_absurd;
        try (left; assumption); discriminate. }
    apply uploadChunk_ok in Eup as (Hpub & Hreg3 & _ & _ & _). cbn in Hreg3.
    intros [= <- <- <-]. cbn.
    repeat split; try assumption; try congruence; try pub_absurd.
    right. repeat split; assumption. }
  all: intros [= <- <- <-]; repeat split; auto; try pub_absurd; intros; congruence.
Qed.

Lemma publishStats_spec (data data' : DatumData) (w w' : World) (err : option error) :
  publishStats jobTagPrefix driver jobID subtaskID data w = ((data', err), w') →
  dd_Stats data' = dd_Stats data
  ∧ dd_ChunkHashtree data' = dd_ChunkHashtree data
  ∧ chunkCaches w' = chunkCaches w
  ∧ (∀ ev, ev ∈ trace w → ev ∈ trace w')
  ∧ (err = None → EnableStats (Info driver) = true →
     dd_StatsHashtree data' = Some statsInfo ∧ published true jobID (Tag statsInfo) w').
Proof.
  unfold publishStats. destruct (EnableStats (Info driver)).
  2:{ intros [= <- <- <-]. repeat split; auto; intros; congruence. }
  destruct (getOrCreateCache driver true jobID w) as [[e|] w1] eqn:Eget;
    apply getOrCreateCache_spec in Eget as (Hcache & Hreg & Hdc & Hdsc & Htr); cbn in Hreg.
  { intros [= <- <- <-]. repeat split; auto; try (now rewrite Htr); intros; congruence. }
  destruct (uploadChunk _ _ _ _ _ _) as [[e|] w2] eqn:Eup.
  { intros [= <- <- <-].
    unfold uploadChunk, LogStep, MergeCache_Put, commitObject in Eup.
    assert (chunkCaches w2 = chunkCaches w1 ∧ ∀ ev, ev ∈ trace w1 → ev ∈ trace w2) as [? ?].
    { repeat case_match; simplify_eq; cbn; auto using list_elem_of_further. }
    repeat split; auto; try congruence; try (rewrite <- Htr; auto); intros; congruence. }
  apply uploadChunk_ok in Eup as (Hpub & Hreg2 & _ & _ & Htr2). cbn in Hreg2.
  intros [= <- <- <-]. cbn.
  repeat split; auto; try congruence; rewrite <- Htr; auto.
Qed.

End Publishing.

(** C3: when [handleDatumTask] is over, and the payload came without a
    [ChunkHashtree]: with a failed datum or with [S3Out] the
    [ChunkHashtree] is still unset and the chunk cache of the job is as it
    was, whether the handler failed or not; and when the handler returns
    no error, [ChunkHashtree] is set exactly when no datum failed and the
    pipeline has no [S3Out] (it then names the published output chunk),
    while with stats enabled the stats chunk is published and
    [StatsHashtree] names it, failed datums or not. *)
Theorem handleDatumTask_chunks (jobTagPrefix : string → string) (fuel : nat)
    (driver : Driver) (jobID : string) (data : DatumData) (subtaskID : string)
    (w : World) (data' : DatumData) (err : option error) (w' : World) :
  handleDatumTask jobTagPrefix fuel driver jobID data subtaskID w
  = Returned ((data', err), w') →
  dd_ChunkHashtree data = None →
  (∀ st, dd_Stats data' = Some st →
         DatumsFailed st ≠ 0 ∨ S3Out (Info driver) = true →
         dd_ChunkHashtree data' = None ∧ chunkCaches w' = chunkCaches w)
  ∧ (err = None →
     ∃ st, dd_Stats data' = Some st
       ∧ (is_Some (dd_ChunkHashtree data')
          ↔ DatumsFailed st = 0 ∧ S3Out (Info driver) = false)
       ∧ (∀ info, dd_ChunkHashtree data' = Some info →
            info = mkHashtreeInfo (WorkerIP driver) (jobChunkTag jobTagPrefix jobID subtaskID)
            ∧ published false jobID (jobChunkTag jobTagPrefix jobID subtaskID) w')
       ∧ (EnableStats (Info driver) = true →
            dd_StatsHashtree data'
            = Some (mkHashtreeInfo (WorkerIP driver)
                      (jobChunkStatsTag jobTagPrefix jobID subtaskID))
            ∧ published true jobID (jobChunkStatsTag jobTagPrefix jobID subtaskID) w')).
Proof.
  intros Hrun Hunset.
  unfold handleDatumTask, WithDatumCache, LogStep, withStats, forEachDatum in Hrun.
  destruct (if ContainsS3Inputs (Info driver) || S3Out (Info driver) then _ else _).
  { injection Hrun as <- <- <-. split; [auto | discriminate]. }
  destruct (NewDatumCaches driver).
  { injection Hrun as <- <- <-. split; [auto | discriminate]. }
  destruct (ReadDatums driver (dd_Datums data)) as [e|datums].
  { injection Hrun as <- <- <-. split; [auto | discriminate]. }
  destruct (fanOut _ _ _ _ _ _) as [f| |] eqn:Efan; try discriminate.
  apply fanOut_chunkCaches in Efan. cbn in Efan.
  destruct (groupErr f).
  { injection Hrun as <- <- <-. split; [auto | discriminate]. }
  destruct (publishOutput _ _ _ _ _ _ _ _) as [[data2 [e|]] w2] eqn:Eout;
    apply publishOutput_spec in Eout
      as (Hst2 & Hsh2 & Hcs2 & Hnot2 & Hch2 & Hset2); cbn in Hst2, Hch2.
  { injection Hrun as <- <- <-. split; [| discriminate].
    intros st Hst Hcond. rewrite Hst2 in Hst. injection Hst as <-.
    destruct (Hnot2 Hcond) as [-> ->]. cbn. split; [assumption | exact Efan]. }
  destruct (publishStats _ _ _ _ _ _) as [[data3 err3] w3] eqn:Estats.
  injection Hrun as <- <- <-.
  apply publishStats_spec in Estats as (Hst3 & Hch3 & Hcc3 & Htr3 & Hstats3).
  split.
  - intros st Hst Hcond. rewrite Hst3, Hst2 in Hst. injection Hst as <-.
    destruct (Hnot2 Hcond) as [-> ->]. rewrite Hch3, Hcc3. cbn. split; [assumption | exact Efan].
  - intros ->. exists (dataStats f). split; [now rewrite Hst3, Hst2 |].
    rewrite Hch3. split; [| split].
    + split.
      * intros Hsome. destruct Hch2 as [Heq | (? & ? & _)]; [| tauto].
        rewrite Heq, Hunset in Hsome. now destruct Hsome.
      * intros [Hf Hs]. rewrite (Hset2 eq_refl Hf Hs). eauto.
    + intros info Hinfo. destruct Hch2 as [Heq | (_ & _ & _ & Hinfo2 & Hpub)];
        [congruence |].
      rewrite Hinfo2 in Hinfo. injection Hinfo as <-. split; [reflexivity |].
      eapply published_mono; [| exact Htr3 | exact Hpub]. exact Hcc3.
    + intros Hen. apply Hstats3; [reflexivity | exact Hen].
Qed.

Lemma handleDatumTask_chunks_witness :
  ∃ data' w',
    handleDatumTask examplePrefix 3 failingDriver "j" exampleData "s" emptyWorld
    = Returned ((data', None), w')
    ∧ dd_ChunkHashtree exampleData = None
    ∧ dd_ChunkHashtree data' = None
    ∧ dd_StatsHashtree data' = Some (mkHashtreeInfo "10.0.0.1" "job-j-chunk-stats-s")
    ∧ ∃ st, dd_Stats data' = Some st ∧ DatumsFailed st = 1
            ∧ (is_Some (dd_ChunkHashtree data')
               ↔ DatumsFailed st = 0 ∧ S3Out (Info failingDriver) = false).
Proof.
  eexists _, _. split; [vm_compute; reflexivity |]. split; [reflexivity |].
  split; [reflexivity |]. split; [reflexivity |].
  edestruct (handleDatumTask_chunks examplePrefix 3 failingDriver "j" exampleData "s"
               emptyWorld) as (_ & H); [vm_compute; reflexivity | reflexivity |].
  destruct (H eq_refl) as (st & Hst & Hiff & _).
  exists st. split; [exact Hst |]. split; [| exact Hiff].
  cbn in Hst. now injection Hst as <-.
Defined.

(** ** The retry loop of [processDatum] *)

Section RetryLoop.

Variable driver : Driver.
Variable inputs : list Input.
Variables tag datumID : string.

(** What one call of the operation does: it runs user code at most once;
    it runs the error handler only after user code failed, with a handler
    configured, on the last try, and then returns the sentinel or the
    wrapped error of the handler; it stores no object and leaves the
    failure count and the stats tree alone. *)
Lemma operation_spec (l l' : Locals) (e : option error) :
  operation driver inputs tag l = (e, l') →
  failures l' = failures l
  ∧ statsTree l' = statsTree l
  ∧ ∃ new, trace (world l') = (new ++ trace (world l))%list
      ∧ (userCodeRuns new <= 1)%nat
      ∧ (∀ content tags, EvPutObject content tags ∉ new)
      ∧ (∀ i n, EvRunUserErrorHandlingCode i n ∈ new →
           i = inputs ∧ n = failures l
           ∧ n = int64 (DatumTries (Info driver) - 1)
           ∧ ErrCmd (Info driver) ≠ None
           ∧ (userCodeAt driver inputs n).2 ≠ None
           ∧ match (handlerAt driver inputs n).2 with
             | None => e = Some errDatumRecovered
             | Some e' => e = Some (errorsWrap e' "RunUserErrorHandlingCode")
             end).
Proof.
  unfold operation, WithData, WithActiveData, withDatum, runUserCode.
  destruct (DownloadData driver inputs (failures l)) as [[ps0 files] dl] eqn:Edl.
  destruct dl as [err|dir].
  { intros [= <- <-]. split; [reflexivity |]. split; [reflexivity |]. no_handler (@nil Event). }
  destruct (LinkData driver inputs (failures l)).
  { intros [= <- <-]. split; [reflexivity |]. split; [reflexivity |]. no_handler (@nil Event). }
  destruct (RunUserCode driver inputs (failures l) ps0) as [ps1 [uerr|]] eqn:Euc.
  - destruct (bool_decide (ErrCmd (Info driver) ≠ None)) eqn:Ecmd; cbn [andb].
    + destruct (Z.eqb_spec (failures l) (int64 (DatumTries (Info driver) - 1))) as [Hlast|Hlast].
      * apply bool_decide_eq_true in Ecmd.
        destruct (RunUserErrorHandlingCode driver inputs (failures l) ps1)
          as [ps2 [herr|]] eqn:Eh;
          intros [= <- <-]; (split; [reflexivity |]); (split; [reflexivity |]);
          exists [EvRunUserErrorHandlingCode inputs (failures l);
                  EvRunUserCode inputs (failures l)];
          (split; [reflexivity |]); (split; [cbn; lia |]); (split; [in_events |]);
          intros i n Hin; in_events; injection Hin as -> ->;
          unfold handlerAt, userCodeAt; rewrite Edl; cbn [fst]; rewrite Euc; cbn [fst snd];
          rewrite Eh; cbn [snd]; repeat split; auto.
      * intros [= <- <-]. split; [reflexivity |]. split; [reflexivity |].
        no_handler [EvRunUserCode inputs (failures l)].
    + intros [= <- <-]. split; [reflexivity |]. split; [reflexivity |].
      no_handler [EvRunUserCode inputs (failures l)].
  - destruct (S3Out (Info driver)).
    { intros [= <- <-]. split; [reflexivity |]. split; [reflexivity |].
      no_handler [EvRunUserCode inputs (failures l)]. }
    destruct (UploadOutput driver inputs (failures l) tag ps1) as [[ps2 outFiles] up].
    destruct up as [err|hashtreeBytes].
    { intros [= <- <-]. split; [reflexivity |]. split; [reflexivity |].
      no_handler [EvUploadOutput inputs tag; EvRunUserCode inputs (failures l)]. }
    unfold newUUID, MergeCache_Put.
    destruct (CachePut driver _ _); intros [= <- <-];
      (split; [reflexivity |]); (split; [reflexivity |]);
      no_handler [EvUploadOutput inputs tag; EvRunUserCode inputs (failures l)].
Qed.

Lemma userCodeRuns_app (a b : list Event) :
  userCodeRuns (a ++ b) = (userCodeRuns a + userCodeRuns b)%nat.
Proof.
  induction a as [|ev a IH]; [reflexivity |].
  destruct ev; cbn; rewrite IH; reflexivity.
Qed.

(** What one notification does, [failures] being below [DatumTries]
    before: it counts the failure; below [DatumTries] it lets the loop go
    on; at [DatumTries] it stops the loop, and, the store permitting, with
    the error it was given and a [failure] entry that holds its text. *)
Lemma notify_spec (err : error) (l l' : Locals) (e : option error) :
  notify driver datumID err l = (e, l') →
  DatumTries (Info driver) < 2 ^ 63 →
  0 <= failures l < DatumTries (Info driver) →
  failures l' = failures l + 1
  ∧ ∃ new, trace (world l') = (new ++ trace (world l))%list
      ∧ userCodeRuns new = 0%nat
      ∧ (∀ i n, EvRunUserErrorHandlingCode i n ∉ new)
      ∧ (failures l + 1 < DatumTries (Info driver) →
         e = None ∧ statsTree l' = statsTree l)
      ∧ (failures l + 1 = DatumTries (Info driver) →
         is_Some e
         ∧ (statsTree l = None ∨ storeHealthy driver →
            e = Some err
            ∧ ∀ tree, statsTree l = Some tree →
                ∃ file, statsTree l' = Some (PutFile tree file)
                        ∧ fn_path file = "failure"
                        ∧ holds driver file (Error err)
                        ∧ EvPutObject (Error err) [] ∈ new)).
Proof.
  intros Hn Hmax Hk. unfold notify in Hn.
  rewrite (int64_small (failures l + 1)) in Hn by lia.
  destruct (Z.leb_spec (DatumTries (Info driver)) (failures l + 1)) as [Hlast|Hmore].
  - destruct (statsTree l) as [tree|] eqn:Etree.
    + unfold putObjectFile in Hn.
      destruct (PutObject driver (Error err) []) as [perr|[hash size]] eqn:Eput.
      { injection Hn as <- <-. split; [reflexivity |]. exists []. cbn.
        repeat split; try (intros; lia); [in_events | eauto |
          destruct H0 as [|Hh]; [discriminate |];
          destruct (Hh (Error err)) as (? & ? & ? & ? & ? & _); congruence ..]. }
      destruct (InspectObject driver hash) as [ierr|blockRef] eqn:Einspect.
      { injection Hn as <- <-. split; [reflexivity |].
        exists [EvPutObject (Error err) []]. cbn.
        repeat split; try (intros; lia); [in_events | eauto |
          destruct H0 as [|Hh]; [discriminate |];
          destruct (Hh (Error err)) as (? & ? & ? & ? & ? & ? & _); congruence ..]. }
      destruct (DecodeHash driver hash) as [derr|h] eqn:Edecode.
      { injection Hn as <- <-. split; [reflexivity |].
        exists [EvPutObject (Error err) []]. cbn.
        repeat split; try (intros; lia); [in_events | eauto |
          destruct H0 as [|Hh]; [discriminate |];
          destruct (Hh (Error err)) as (? & ? & ? & ? & ? & ? & ?); congruence ..]. }
      injection Hn as <- <-. split; [reflexivity |].
      exists [EvPutObject (Error err) []]. cbn.
      repeat split; try (intros; lia); [in_events | eauto |].
      intros tree' [= <-]. eexists. split; [reflexivity |]. split; [reflexivity |].
      split; [| apply list_elem_of_here].
      exists hash, size, blockRef, h. repeat split; assumption.
    + injection Hn as <- <-. split; [reflexivity |]. exists []. cbn.
      repeat split; try (intros; lia); [in_events | eauto | intros; congruence].
  - assert (Hres : e = None ∧ failures l' = failures l + 1 ∧ world l' = world l
                   ∧ statsTree l' = statsTree l).
    { destruct (statsTree l) eqn:Etree; injection Hn as <- <-; cbn; auto. }
    destruct Hres as (-> & Hf & Hw & Hs). split; [exact Hf |].
    exists []. cbn. rewrite Hw. repeat split; auto; try (intros; lia). in_events.
Qed.

(** The loop, started after [k] failures. *)
Lemma retryLoop_from (fuel : nat) :
  ∀ (l : Locals) (k : Z),
    failures l = k →
    0 <= k < DatumTries (Info driver) →
    DatumTries (Info driver) < 2 ^ 63 →
    (Z.to_nat (DatumTries (Info driver) - k) <= fuel)%nat →
    statsTree l = None ∨ storeHealthy driver →
    ∃ err l1 new,
      retryLoop fuel driver inputs tag datumID l = Returned (err, l1)
      ∧ trace (world l1) = (new ++ trace (world l))%list
      ∧ Z.of_nat (userCodeRuns new) <= DatumTries (Info driver) - k
      ∧ k <= failures l1 <= DatumTries (Info driver)
      ∧ (∀ i n, EvRunUserErrorHandlingCode i n ∈ new →
           i = inputs ∧ n = DatumTries (Info driver) - 1
           ∧ ErrCmd (Info driver) ≠ None
           ∧ (userCodeAt driver inputs n).2 ≠ None
           ∧ match (handlerAt driver inputs n).2 with
             | None => err = Some errDatumRecovered
             | Some e' => err = Some (errorsWrap e' "RunUserErrorHandlingCode")
             end)
      ∧ (failures l1 = DatumTries (Info driver) →
         ∃ e, err = Some e
              ∧ ∀ tree, statsTree l = Some tree →
                  ∃ file, statsTree l1 = Some (PutFile tree file)
                          ∧ fn_path file = "failure"
                          ∧ holds driver file (Error e)
                          ∧ EvPutObject (Error e) [] ∈ new).
Proof.
  induction fuel as [|fuel IH]; intros l k Hk Hrange Hmax Hfuel Hstore; [lia |].
  unfold retryLoop. cbn [RetryUntilCancel].
  destruct (operation driver inputs tag l) as [eo lo] eqn:Eop.
  apply operation_spec in Eop as (Hfo & Hso & newo & Htro & Hrunso & Hputo & Hho).
  assert (Hlast : int64 (DatumTries (Info driver) - 1) = DatumTries (Info driver) - 1)
    by (apply int64_small; lia).
  destruct eo as [err|].
  2:{ (* the attempt succeeded *)
    exists None, lo, newo. split; [reflexivity |]. split; [exact Htro |].
    split; [lia |]. split; [lia |]. split; [| lia].
    intros i n Hin. destruct (Hho i n Hin) as (_ & _ & _ & _ & _ & Hm).
    destruct (handlerAt driver inputs n).2; discriminate. }
  destruct (notify driver datumID err lo) as [en ln] eqn:Ent.
  apply notify_spec in Ent as (Hfn & newn & Htrn & Hrunsn & Hhn & Hmore & Hstop);
    [| lia | lia].
  assert (Htr : trace (world ln) = ((newn ++ newo) ++ trace (world l))%list)
    by (rewrite Htrn, Htro; apply app_assoc).
  destruct (Z.eq_dec (failures lo + 1) (DatumTries (Info driver))) as [Hend|Hnot].
  - (* it was the last try *)
    destruct (Hstop Hend) as [_ Hgiven].
    destruct Hgiven as [-> Hentry]; [rewrite Hso; exact Hstore |].
    exists (Some err), ln, (newn ++ newo)%list. split; [reflexivity |].
    split; [exact Htr |]. rewrite userCodeRuns_app, Hrunsn.
    split; [lia |]. split; [lia |]. split.
    + intros i n Hin. apply elem_of_app in Hin as [Hin|Hin]; [now apply Hhn in Hin |].
      destruct (Hho i n Hin) as (-> & -> & Hn & Hcmd & Hfail & Hm).
      rewrite Hn, Hlast. repeat split; try assumption.
      * now rewrite <- Hlast, <- Hn.
      * now rewrite <- Hlast, <- Hn.
    + intros _. exists err. split; [reflexivity |].
      intros tree Htree. rewrite <- Hso in Htree.
      destruct (Hentry tree Htree) as (file & ? & ? & ? & ?).
      exists file. repeat split; try assumption. apply elem_of_app. now left.
  - (* tries are left *)
    destruct Hmore as [-> Hsn]; [lia |].
    assert (Hnone : ∀ i n, EvRunUserErrorHandlingCode i n ∉ (newn ++ newo)%list).
    { intros i n Hin. apply elem_of_app in Hin as [Hin|Hin]; [now apply Hhn in Hin |].
      destruct (Hho i n Hin) as (_ & Hn & Hn' & _). lia. }
    destruct (ContextErr driver inputs (failures ln)) as [cerr|] eqn:Ectx.
    + exists (Some cerr), ln, (newn ++ newo)%list. split; [reflexivity |].
      split; [exact Htr |]. rewrite userCodeRuns_app, Hrunsn.
      split; [lia |]. split; [lia |]. split; [| lia].
      intros i n Hin. now apply Hnone in Hin.
    + destruct (IH ln (k + 1)) as (err' & l1 & new' & Hloop & Htr' & Hruns' & Hf' & Hh' & He');
        [lia | lia | lia | lia | rewrite Hsn, Hso; exact Hstore |].
      exists err', l1, (new' ++ newn ++ newo)%list.
      split; [exact Hloop |]. split; [rewrite Htr', Htr; apply app_assoc |].
      rewrite !userCodeRuns_app, Hrunsn.
      split; [lia |]. split; [lia |]. split.
      * intros i n Hin. apply elem_of_app in Hin as [Hin|Hin]; [now apply Hh' |].
        now apply Hnone in Hin.
      * intros Hend. destruct (He' Hend) as (e & -> & Hentry).
        exists e. split; [reflexivity |]. intros tree Htree.
        rewrite <- Hso, <- Hsn in Htree.
        destruct (Hentry tree Htree) as (file & ? & ? & ? & ?).
        exists file. repeat split; try assumption. apply elem_of_app. now left.
Qed.

End RetryLoop.

Section RetryLoopRuns.

Variable driver : Driver.
Variable inputs : list Input.
Variables tag datumID : string.

(** The loop, started after [k] failures, whatever the store answers. *)
Lemma retryLoop_runs (fuel : nat) :
  ∀ (l : Locals) (k : Z),
    failures l = k →
    0 <= k < DatumTries (Info driver) →
    DatumTries (Info driver) < 2 ^ 63 →
    (Z.to_nat (DatumTries (Info driver) - k) <= fuel)%nat →
    ∃ err l1 new,
      retryLoop fuel driver inputs tag datumID l = Returned (err, l1)
      ∧ trace (world l1) = (new ++ trace (world l))%list
      ∧ Z.of_nat (userCodeRuns new) <= DatumTries (Info driver) - k
      ∧ k <= failures l1 <= DatumTries (Info driver)
      ∧ (∀ i n, EvRunUserErrorHandlingCode i n ∈ new →
           i = inputs ∧ n = DatumTries (Info driver) - 1
           ∧ ErrCmd (Info driver) ≠ None
           ∧ (userCodeAt driver inputs n).2 ≠ None)
      ∧ (failures l1 = DatumTries (Info driver) → is_Some err).
Proof.
  induction fuel as [|fuel IH]; intros l k Hk Hrange Hmax Hfuel; [lia |].
  unfold retryLoop. cbn [RetryUntilCancel].
  destruct (operation driver inputs tag l) as [eo lo] eqn:Eop.
  apply operation_spec in Eop as (Hfo & Hso & newo & Htro & Hrunso & Hputo & Hho).
  assert (Hlast : int64 (DatumTries (Info driver) - 1) = DatumTries (Info driver) - 1)
    by (apply int64_small; lia).
  destruct eo as [err|].
  2:{ (* the attempt succeeded *)
    exists None, lo, newo. split; [reflexivity |]. split; [exact Htro |].
    split; [lia |]. split; [lia |]. split; [| lia].
    intros i n Hin. destruct (Hho i n Hin) as (_ & _ & _ & _ & _ & Hm).
    destruct (handlerAt driver inputs n).2; discriminate. }
  destruct (notify driver datumID err lo) as [en ln] eqn:Ent.
  apply notify_spec in Ent as (Hfn & newn & Htrn & Hrunsn & Hhn & Hmore & Hstop);
    [| lia | lia].
  assert (Htr : trace (world ln) = ((newn ++ newo) ++ trace (world l))%list)
    by (rewrite Htrn, Htro; apply app_assoc).
  destruct (Z.eq_dec (failures lo + 1) (DatumTries (Info driver))) as [Hend|Hnot].
  - (* it was the last try *)
    destruct (Hstop Hend) as [[e ->] _].
    exists (Some e), ln, (newn ++ newo)%list. split; [reflexivity |].
    split; [exact Htr |]. rewrite userCodeRuns_app, Hrunsn.
    split; [lia |]. split; [lia |]. split; [| eauto].
    intros i n Hin. apply elem_of_app in Hin as [Hin|Hin]; [now apply Hhn in Hin |].
    destruct (Hho i n Hin) as (-> & -> & Hn & Hcmd & Hfail & _).
    rewrite Hn, Hlast. repeat split; try assumption.
    now rewrite <- Hlast, <- Hn.
  - (* tries are left *)
    destruct Hmore as [-> Hsn]; [lia |].
    assert (Hnone : ∀ i n, EvRunUserErrorHandlingCode i n ∉ (newn ++ newo)%list).
    { intros i n Hin. apply elem_of_app in Hin as [Hin|Hin]; [now apply Hhn in Hin |].
      destruct (Hho i n Hin) as (_ & Hn & Hn' & _). lia. }
    destruct (ContextErr driver inputs (failures ln)) as [cerr|] eqn:Ectx.
    + exists (Some cerr), ln, (newn ++ newo)%list. split; [reflexivity |].
      split; [exact Htr |]. rewrite userCodeRuns_app, Hrunsn.
      split; [lia |]. split; [lia |]. split; [| lia].
      intros i n Hin. now apply Hnone in Hin.
    + destruct (IH ln (k + 1)) as (err' & l1 & new' & Hloop & Htr' & Hruns' & Hf' & Hh' & He');
        [lia | lia | lia | lia |].
      exists err', l1, (new' ++ newn ++ newo)%list.
      split; [exact Hloop |]. split; [rewrite Htr', Htr; apply app_assoc |].
      rewrite !userCodeRuns_app, Hrunsn.
      split; [lia |]. split; [lia |]. split; [| exact He'].
      intros i n Hin. apply elem_of_app in Hin as [Hin|Hin]; [now apply Hh' |].
      now apply Hnone in Hin.
Qed.

End RetryLoopRuns.

(** C4: the retry loop of [processDatum], started without failures, with
    [DatumTries] at least 1.  It ends; user code was started at most
    [DatumTries] times; the error handler ran only after user code had
    failed, with a handler configured, and after [DatumTries - 1]
    failures; and when the failure count reaches [DatumTries] the loop
    ends with an error.  When there is no stats tree, or the store takes
    and describes the object of the failure: if the handler succeeded the
    loop ends with the sentinel, which is counted as one recovered datum
    whose tag is returned; if it failed the loop ends with its error
    (wrapped); and when the failure count reaches [DatumTries] the error
    of the loop is that of the last attempt, whose text is stored in an
    object that the stats tree holds as [failure]. *)
Theorem retry_policy (driver : Driver) (inputs : list Input) (tag datumID : string)
    (fuel : nat) (l0 : Locals) :
  failures l0 = 0 →
  1 <= DatumTries (Info driver) < 2 ^ 63 →
  (Z.to_nat (DatumTries (Info driver)) <= fuel)%nat →
  ∃ err l1 new,
    retryLoop fuel driver inputs tag datumID l0 = Returned (err, l1)
    ∧ trace (world l1) = (new ++ trace (world l0))%list
    ∧ Z.of_nat (userCodeRuns new) <= DatumTries (Info driver)
    ∧ (∀ i n, EvRunUserErrorHandlingCode i n ∈ new →
         i = inputs ∧ n = DatumTries (Info driver) - 1
         ∧ ErrCmd (Info driver) ≠ None
         ∧ (userCodeAt driver inputs n).2 ≠ None
         ∧ (statsTree l0 = None ∨ storeHealthy driver →
            match (handlerAt driver inputs n).2 with
            | None =>
                err = Some errDatumRecovered
                ∧ classify tag datumID err (stats l1) = (recoveredOnce (stats l1), [tag])
            | Some e' => err = Some (errorsWrap e' "RunUserErrorHandlingCode")
            end))
    ∧ (failures l1 = DatumTries (Info driver) →
       ∃ e, err = Some e
            ∧ (statsTree l0 = None ∨ storeHealthy driver →
               ∀ tree, statsTree l0 = Some tree →
                 ∃ file, statsTree l1 = Some (PutFile tree file)
                         ∧ fn_path file = "failure"
                         ∧ holds driver file (Error e)
                         ∧ EvPutObject (Error e) [] ∈ new)).
Proof.
  intros Hzero Htries Hfuel.
  destruct (retryLoop_runs driver inputs tag datumID fuel l0 0)
    as (err & l1 & new & Hloop & Htr & Hruns & Hf & Hh & Hend);
    [assumption | lia | lia | now rewrite Z.sub_0_r |].
  assert (Hstore : statsTree l0 = None ∨ storeHealthy driver →
    (∀ i n, EvRunUserErrorHandlingCode i n ∈ new →
       match (handlerAt driver inputs n).2 with
       | None => err = Some errDatumRecovered
       | Some e' => err = Some (errorsWrap e' "RunUserErrorHandlingCode")
       end)
    ∧ (failures l1 = DatumTries (Info driver) →
       ∃ e, err = Some e
            ∧ ∀ tree, statsTree l0 = Some tree →
                ∃ file, statsTree l1 = Some (PutFile tree file)
                        ∧ fn_path file = "failure"
                        ∧ holds driver file (Error e)
                        ∧ EvPutObject (Error e) [] ∈ new)).
  { intros Hs.
    destruct (retryLoop_from driver inputs tag datumID fuel l0 0)
      as (err' & l1' & new' & Hloop' & Htr' & _ & _ & Hh' & Hend');
      [assumption | lia | lia | now rewrite Z.sub_0_r | assumption |].
    rewrite Hloop in Hloop'. injection Hloop' as <- <-.
    rewrite Htr in Htr'. apply app_inv_tail in Htr'. subst new'.
    split; [| exact Hend'].
    intros i n Hin. now destruct (Hh' i n Hin) as (_ & _ & _ & _ & Hm). }
  exists err, l1, new. split; [exact Hloop |]. split; [exact Htr |].
  split; [lia |]. split.
  - intros i n Hin. destruct (Hh i n Hin) as (Hi & Hn & Hcmd & Hfail).
    split; [exact Hi |]. split; [exact Hn |]. split; [exact Hcmd |]. split; [exact Hfail |].
    intros Hs. destruct (Hstore Hs) as [Hm _]. specialize (Hm i n Hin).
    destruct (handlerAt driver inputs n).2; [exact Hm |].
    split; [exact Hm |]. now rewrite Hm.
  - intros Hlast. destruct (Hend Hlast) as [e ->]. exists e. split; [reflexivity |].
    intros Hs. destruct (Hstore Hs) as [_ He]. destruct (He Hlast) as (e' & [= <-] & Hentry).
    exact Hentry.
Qed.

Lemma exampleStore_healthy info tags userCode handler pbFails :
  storeHealthy (exampleDriver info tags userCode handler pbFails).
Proof. intros content. eexists _, _, _, _. repeat split; reflexivity. Qed.

Lemma retry_policy_witness :
  ∃ l1 new,
    retryLoop 3 recoveringDriver [exampleInput] "hash-in" "id-hash-in" exampleLocals
    = Returned (Some errDatumRecovered, l1)
    ∧ trace (world l1) = (new ++ [])%list
    ∧ userCodeRuns new = 3%nat
    ∧ EvRunUserErrorHandlingCode [exampleInput] 2 ∈ new
    ∧ failures l1 = 3
    ∧ classify "hash-in" "id-hash-in" (Some errDatumRecovered) (stats l1)
      = (recoveredOnce (stats l1), ["hash-in"]).
Proof.
  destruct (retry_policy recoveringDriver [exampleInput] "hash-in" "id-hash-in" 3
              exampleLocals)
    as (err & l1 & new & Hloop & Htr & Hruns & Hh & Hend);
    [reflexivity | cbn; lia | cbn; lia |].
  assert (Hrun : ∃ l1' new',
             retryLoop 3 recoveringDriver [exampleInput] "hash-in" "id-hash-in" exampleLocals
             = Returned (Some errDatumRecovered, l1')
             ∧ trace (world l1') = (new' ++ [])%list
             ∧ userCodeRuns new' = 3%nat
             ∧ EvRunUserErrorHandlingCode [exampleInput] 2 ∈ new'
             ∧ failures l1' = 3).
  { eexists _, _. split; [vm_compute; reflexivity |].
    split; [cbn; rewrite app_nil_r; reflexivity |].
    split; [reflexivity |]. split; [| reflexivity].
    apply list_elem_of_further, list_elem_of_here. }
  destruct Hrun as (l1' & new' & Hloop' & Htr' & Hruns' & Hin' & Hf').
  rewrite Hloop' in Hloop. injection Hloop as <- <-.
  exists l1', new'. split; [exact Hloop' |]. split; [exact Htr' |].
  split; [exact Hruns' |]. split; [exact Hin' |]. split; [exact Hf' |].
  cbn in Htr. rewrite Htr' in Htr. apply app_inv_tail in Htr. subst new'.
  destruct (Hh _ _ Hin') as (_ & _ & _ & _ & Hm).
  exact (proj2 (Hm (or_intror (exampleStore_healthy _ _ _ _ _)))).
Defined.

(** C4 as stated fails in two ways.  With stats on and a store that cannot
    describe the object of the failure, the error of [InspectObject]
    takes the place of the error of the loop: the handler has succeeded,
    yet the loop does not end with the sentinel, no [failure] entry is
    written, and [processDatum] counts the datum as failed, not as
    recovered, and returns no error.  And with [DatumTries] zero, user
    code still runs once. *)
Lemma retry_policy_counterexample :
  ((userCodeAt inspectFailsDriver [exampleInput] 2).2 ≠ None
   ∧ ErrCmd (Info inspectFailsDriver) ≠ None
   ∧ (handlerAt inspectFailsDriver [exampleInput] 2).2 = None
   ∧ ∃ l1,
       retryLoop 3 inspectFailsDriver [exampleInput] "hash-in" "id-hash-in" exampleLocals
       = Returned (Some (foreign inspectUnavailable), l1)
       ∧ EvRunUserErrorHandlingCode [exampleInput] 2 ∈ trace (world l1)
       ∧ failures l1 = 3
       ∧ statsTree l1 = statsTree exampleLocals
       ∧ classify "hash-in" "id-hash-in" (Some (foreign inspectUnavailable)) (stats l1)
         ≠ (recoveredOnce (stats l1), ["hash-in"]))
  ∧ (∃ st w',
       processDatum 3 inspectFailsDriver "j" 0 [exampleInput] "commit-out" emptyWorld
       = Returned ((st, [], None), w')
       ∧ EvRunUserErrorHandlingCode [exampleInput] 2 ∈ trace w'
       ∧ DatumsFailed st = 1 ∧ DatumsRecovered st = 0
       ∧ FailedDatumID st = "id-hash-in")
  ∧ (DatumTries (Info noTriesDriver) = 0
     ∧ ∃ err l1,
         retryLoop 1 noTriesDriver [exampleInput] "hash-in" "id-hash-in"
           (initialLocals "id-hash-in" None emptyWorld) = Returned (err, l1)
         ∧ userCodeRuns (trace (world l1)) = 1%nat).
Proof.
  split; [| split].
  - split; [discriminate |]. split; [discriminate |]. split; [reflexivity |].
    eexists. split; [vm_compute; reflexivity |].
    split; [apply list_elem_of_further, list_elem_of_here |].
    split; [reflexivity |]. split; [reflexivity |]. discriminate.
  - eexists _, _. split; [vm_compute; reflexivity |].
    split; [do 3 apply list_elem_of_further; apply list_elem_of_here |].
    repeat split.
  - split; [reflexivity |]. eexists _, _. split; [vm_compute; reflexivity |]. reflexivity.
Qed.

(** ** After the retry loop *)

Lemma addFiles_is_Some (files : list FileNode) (t : option Hashtree) :
  is_Some t → is_Some (addFiles files t).
Proof. intros [t' ->]. cbn. eauto. Qed.

Lemma operation_keeps (driver : Driver) inputs tag (l l' : Locals) e :
  operation driver inputs tag l = (e, l') → loopKeeps l → loopKeeps l'.
Proof.
  intros Hop [Hcount Htrees].
  pose proof (operation_spec driver inputs tag l l' e Hop) as (_ & Hst & _).
  unfold loopKeeps. rewrite Hst.
  unfold operation, WithData, WithActiveData, withDatum, runUserCode, newUUID, MergeCache_Put in Hop.
  repeat case_match; simplify_eq; cbn;
    (split; [exact Hcount | intros Hs; destruct (Htrees Hs); auto using addFiles_is_Some]).
Qed.

Lemma notify_keeps (driver : Driver) datumID err (l l' : Locals) e :
  notify driver datumID err l = (e, l') → loopKeeps l → loopKeeps l'.
Proof.
  intros Hn [Hcount Htrees]. unfold notify, putObjectFile in Hn. unfold loopKeeps.
  repeat case_match; simplify_eq; cbn in *;
    (split; [exact Hcount | intros Hs; try (apply Htrees; eauto); eauto]).
Qed.

Lemma retryLoop_keeps fuel (driver : Driver) inputs tag datumID (l l1 : Locals) err :
  retryLoop fuel driver inputs tag datumID l = Returned (err, l1) →
  loopKeeps l → loopKeeps l1.
Proof.
  intros Hloop Hl.
  apply (RetryUntilCancel_invariant loopKeeps _ _ _ _ _ _ _
           (λ s0 e s1 Hs0 Hop, operation_keeps driver inputs tag s0 s1 e Hop Hs0)
           (λ err0 s0 e s1 Hs0 Hnt, notify_keeps driver datumID err0 s0 s1 e Hnt Hs0)
           Hl Hloop).
Qed.

Lemma entersLoop_keeps (driver : Driver) jobID index inputs (w : World) (l0 : Locals) :
  entersLoop driver jobID index inputs w l0 →
  loopKeeps l0 ∧ (EnableStats (Info driver) = true → is_Some (statsTree l0)).
Proof.
  unfold entersLoop. destruct (EnableStats (Info driver)).
  - intros (file & w1 & _ & ->). cbn. unfold loopKeeps, uncounted. cbn. eauto 10.
  - intros ->. cbn. unfold loopKeeps, uncounted. cbn.
    split; [split; [repeat split | intros [? [=]]] | discriminate].
Qed.

(** [processDatum] on a cache miss is its loop followed by [afterLoop]. *)
Lemma processDatum_enters fuel (driver : Driver) jobID index inputs commit
    (w : World) (l0 : Locals) :
  InspectTag driver (HashDatum driver (PipelineName (Info driver)) (Salt (Info driver)) inputs)
  ≠ None →
  entersLoop driver jobID index inputs w l0 →
  processDatum fuel driver jobID index inputs commit w
  = match retryLoop fuel driver inputs
            (HashDatum driver (PipelineName (Info driver)) (Salt (Info driver)) inputs)
            (DatumID driver inputs) l0 with
    | Returned (err, l1) =>
        afterLoop driver inputs
          (HashDatum driver (PipelineName (Info driver)) (Salt (Info driver)) inputs)
          (DatumID driver inputs) err l1
    | Panicked => Panicked
    | OutOfFuel => OutOfFuel
    end.
Proof.
  intros Hmiss Henter. unfold processDatum, entersLoop in *.
  destruct (InspectTag driver _); [| congruence].
  destruct (EnableStats (Info driver)).
  - destruct Henter as (file & w1 & -> & ->). reflexivity.
  - now subst l0.
Qed.



(** ** The download phase of the merge handler *)

(** C8 as stated fails: the handler drops the stale key while the download
    of the chunk is still running, whose [Put] comes after the [Delete]. *)
Lemma evictions_counterexample :
  Download.events (Download.run examplePeers "j" exampleMerge evictFirst
                     (Download.init exampleMerge staleCache))
  = [Download.DlPut "a"; Download.DlDelete "stale"; Download.DlSpawn "a"]
  ∧ ¬ Download.evictionsAfterDownloads
        (Download.events (Download.run examplePeers "j" exampleMerge evictFirst
                            (Download.init exampleMerge staleCache))).
Proof.
  assert (Hev : Download.events (Download.run examplePeers "j" exampleMerge evictFirst
                                   (Download.init exampleMerge staleCache))
                = [Download.DlPut "a"; Download.DlDelete "stale"; Download.DlSpawn "a"])
    by (vm_compute; reflexivity).
  split; [exact Hev |]. rewrite Hev. intros H.
  apply (H [Download.DlPut "a"] (Download.DlDelete "stale") [Download.DlSpawn "a"]
           eq_refl (ex_intro _ "stale" eq_refl) (Download.DlPut "a")).
  - apply list_elem_of_here.
  - now exists "a".
Qed.

Section DownloadPhase.

Import Download.

Variable peers : Peers.
Variable jobID : string.
Variable data : MergeData.
Variable cache0 : gmap string bytes.

Lemma ordered_cons_other (e0 : DlEvent) (evs : list DlEvent) :
  ¬ isSpawn e0 → evictionsAfterSpawns evs → evictionsAfterSpawns (e0 :: evs).
Proof.
  intros Hnot Hord l1 e l2 Heq He e' Hin.
  destruct l1 as [|x l1]; [now apply elem_of_nil in Hin |].
  cbn in Heq. injection Heq as <- ->.
  apply elem_of_cons in Hin as [->|Hin]; [exact Hnot |].
  exact (Hord l1 e l2 eq_refl He e' Hin).
Qed.

Lemma ordered_cons_spawn (t : string) (evs : list DlEvent) :
  noDelete evs → evictionsAfterSpawns (DlSpawn t :: evs).
Proof.
  intros Hno l1 e l2 Heq He e' Hin.
  destruct l1 as [|x l1]; [now apply elem_of_nil in Hin |].
  cbn in Heq. injection Heq as <- ->.
  exfalso. apply (Hno e); [| exact He].
  apply elem_of_app. right. apply list_elem_of_here.
Qed.

Lemma invariant_init : invariant data cache0 (init data cache0).
Proof.
  unfold invariant, init, phase, noDelete. cbn.
  repeat split.
  - intros info Hin. now apply elem_of_nil in Hin.
  - intros l1 e l2 Heq. now destruct l1.
  - now apply elem_of_nil in H.
  - now apply elem_of_nil in H.
  - intros t Hin. now apply elem_of_nil in Hin.
  - intros id Hin. now apply elem_of_elements in Hin.
  - intros e Hin. now apply elem_of_nil in Hin.
  - intros info Hin. unfold referenced. apply list_elem_of_fmap. eauto.
  - intros t Ht. now right.
Qed.

Lemma invariant_stepMain (s : State) : invariant data cache0 s → invariant data cache0 (stepMain data s).
Proof.
  intros (Hrun & Hord & Hdel & Hput & Hids & Hphase).
  unfold stepMain. unfold phase in Hphase.
  destruct (pc s) as [[|info rest]|info rest|[|id ids]| | |err] eqn:Epc.
  - (* the loop is over *)
    destruct Hphase as (Hno & Hrest & Hused).
    unfold invariant, phase; cbn. repeat split; auto.
    + apply Hdel; assumption.
    + apply Hdel; assumption.
    + intros t Ht. destruct (Hused t Ht) as [|Hin]; [assumption |].
      now apply elem_of_nil in Hin.
  - (* one more chunk *)
    destruct Hphase as (Hno & Hrest & Hused).
    assert (Hinfo : referenced data (Tag info)) by (apply Hrest; apply list_elem_of_here).
    assert (Hrest' : ∀ info', info' ∈ rest → referenced data (Tag info'))
      by (intros info' Hin; apply Hrest; now apply list_elem_of_further).
    assert (Hused' : ∀ t, referenced data t
                          → t ∈ ({[Tag info]} ∪ usedIDs s : gset string) ∨ t ∈ Tag <$> rest).
    { intros t Ht. destruct (Hused t Ht) as [Hin|Hin];
        [left; apply elem_of_union; now right |].
      rewrite fmap_cons in Hin. apply elem_of_cons in Hin as [->|Hin]; [| now right].
      left. apply elem_of_union. left. now apply elem_of_singleton. }
    destruct (bool_decide (is_Some (cache s !! Tag info)));
      unfold invariant, phase; cbn; repeat split; auto;
      try (apply Hdel; assumption).
  - (* a slot of the limiter *)
    destruct Hphase as (Hno & Hinfo & Hrest & Hused).
    destruct (bool_decide (fetching (running s) < limiterSize)%nat).
    2:{ unfold invariant, phase. rewrite Epc. repeat split; auto; apply Hdel; assumption. }
    unfold invariant, phase; cbn. repeat split; auto.
    + intros info' Hin. apply elem_of_app in Hin as [Hin|Hin]; [now apply Hrun |].
      apply list_elem_of_singleton in Hin. now injection Hin as ->.
    + now apply ordered_cons_spawn.
    + apply elem_of_cons in H as [[=]|H]. now apply Hdel.
    + apply elem_of_cons in H as [[=]|H]. now apply Hdel.
    + intros t Hin. apply elem_of_cons in Hin as [[=]|Hin]. now apply Hput.
    + intros e Hin. apply elem_of_cons in Hin as [->|Hin]; [intros [? [=]] | now apply Hno].
  - (* the eviction is over *)
    unfold invariant, phase; cbn. repeat split; auto; apply Hdel; assumption.
  - (* one cached key *)
    destruct Hphase as (Hused & Hcached).
    assert (Hcached' : ∀ id', id' ∈ ids → id' ∈ dom cache0)
      by (intros id' Hin; apply Hcached; now apply list_elem_of_further).
    destruct (bool_decide (id ∈ usedIDs s)) eqn:Eused.
    { unfold invariant, phase; cbn. repeat split; auto; apply Hdel; assumption. }
    apply bool_decide_eq_false in Eused.
    unfold invariant, phase; cbn. repeat split; auto.
    + apply ordered_cons_other; [intros [? [=]] | assumption].
    + apply elem_of_cons in H as [[= ->]|H]; [| now apply Hdel].
      apply Hcached, list_elem_of_here.
    + apply elem_of_cons in H as [[= ->]|H]; [| now apply Hdel].
      intros Href. apply Eused, Hused, Href.
    + intros t Hin. apply elem_of_cons in Hin as [[=]|Hin]. now apply Hput.
  - (* the parent *)
    destruct (md_Parent data); unfold invariant, phase; cbn; repeat split; auto;
      try (apply Hdel; assumption).
    intros info Hin. apply elem_of_app in Hin as [Hin|Hin]; [now apply Hrun |].
    apply list_elem_of_singleton in Hin. discriminate.
  - (* the wait *)
    destruct (running s) eqn:Erun.
    + unfold invariant, phase; cbn. repeat split; auto; try (apply Hdel; assumption).
    + unfold invariant, phase. rewrite Epc, Erun.
      repeat split; auto; try (apply Hdel; assumption).
  - unfold invariant, phase. rewrite Epc. repeat split; auto; apply Hdel; assumption.
Qed.

(** A goroutine moves neither the handler nor [usedIDs], and adds no
    eviction. *)
Lemma phase_goroutine (s s' : State) :
  phase data cache0 s →
  pc s' = pc s → usedIDs s' = usedIDs s →
  (∀ e, e ∈ events s' → e ∈ events s ∨ ¬ isDelete e) →
  (running s = [] → running s' = []) →
  phase data cache0 s'.
Proof.
  unfold phase, noDelete. intros Hphase -> -> Hev Hrun.
  destruct (pc s); try tauto.
  - destruct Hphase as (Hno & ?). split; [| assumption].
    intros e Hin. destruct (Hev e Hin); auto.
  - destruct Hphase as (Hno & ?). split; [| assumption].
    intros e Hin. destruct (Hev e Hin); auto.
Qed.

Lemma invariant_stepGoroutine (s : State) (n : nat) (g : Goroutine) :
  running s !! n = Some g →
  invariant data cache0 s →
  invariant data cache0 (stepGoroutine peers jobID data g
               (take n (running s) ++ drop (S n) (running s)) s).
Proof.
  intros Hg (Hrun & Hord & Hdel & Hput & Hids & Hphase).
  assert (Hothers : ∀ g', g' ∈ (take n (running s) ++ drop (S n) (running s))%list
                          → g' ∈ running s).
  { intros g' Hin. apply elem_of_app in Hin as [Hin|Hin].
    - exact (subseteq_take n (running s) g' Hin).
    - exact (subseteq_drop (S n) (running s) g' Hin). }
  assert (Hnonempty : running s = [] → False) by (intros E; now rewrite E in Hg).
  unfold stepGoroutine. destruct g as [info|hash].
  - assert (Hinfo : referenced data (Tag info)).
    { apply Hrun. eapply list_elem_of_lookup_2. eassumption. }
    assert (Hfailed : ∀ err,
      invariant data cache0 (mkState (pc s) (cache s) (cachedIDs s) (usedIDs s)
                   (take n (running s) ++ drop (S n) (running s))
                   (first (Download.groupErr s) (Some err)) (parentReader s)
                   (DlFailed (Tag info) :: events s))).
    { intros err. unfold invariant; cbn. repeat split.
      - intros info' Hin. apply Hrun, Hothers, Hin.
      - apply ordered_cons_other; [intros [? [=]] | assumption].
      - apply elem_of_cons in H as [[=]|H]. now apply Hdel.
      - apply elem_of_cons in H as [[=]|H]. now apply Hdel.
      - intros t Hin. apply elem_of_cons in Hin as [[=]|Hin]. now apply Hput.
      - assumption.
      - apply (phase_goroutine s); auto; cbn.
        + intros e Hin. apply elem_of_cons in Hin as [->|Hin]; [right; intros [? [=]] | now left].
        + intros E. now destruct (Hnonempty E). }
    destruct (fetchChunk peers jobID info (md_Shard data) (md_Stats data)) as [err|[err|buf]];
      [apply Hfailed | apply Hfailed |].
    destruct (CachePutErr peers (Tag info) buf); [apply Hfailed |].
    unfold invariant; cbn. repeat split.
    + intros info' Hin. apply Hrun, Hothers, Hin.
    + apply ordered_cons_other; [intros [? [=]] | assumption].
    + apply elem_of_cons in H as [[=]|H]. now apply Hdel.
    + apply elem_of_cons in H as [[=]|H]. now apply Hdel.
    + intros t Hin. apply elem_of_cons in Hin as [[= ->]|Hin]; [assumption | now apply Hput].
    + assumption.
    + apply (phase_goroutine s); auto; cbn.
      * intros e Hin. apply elem_of_cons in Hin as [->|Hin]; [right; intros [? [=]] | now left].
      * intros E. now destruct (Hnonempty E).
  - destruct (GetObjectReader peers hash); unfold invariant; cbn; repeat split;
      try assumption; try (apply Hdel; assumption);
      try (intros info' Hin; apply Hrun, Hothers, Hin);
      (apply (phase_goroutine s); auto; cbn; intros E; now destruct (Hnonempty E)).
Qed.

Lemma invariant_step (c : Choice) (s : State) :
  invariant data cache0 s → invariant data cache0 (step peers jobID data c s).
Proof.
  intros Hs. destruct c as [|n]; cbn.
  - now apply invariant_stepMain.
  - destruct (running s !! n) as [g|] eqn:Hg; [| assumption].
    now apply invariant_stepGoroutine.
Qed.

Lemma invariant_run (schedule : list Choice) (s : State) :
  invariant data cache0 s → invariant data cache0 (run peers jobID data schedule s).
Proof.
  revert s. induction schedule as [|c rest IH]; intros s Hs; cbn; [assumption |].
  apply IH. now apply invariant_step.
Qed.

End DownloadPhase.

(** C8, amended: in every run of the download phase, whatever the
    schedule, an eviction comes after the start of every download (but not
    after its end: the goroutines are still running); only keys that were
    cached before and that the request does not reference are evicted,
    and only referenced tags are put, so that no downloaded chunk is
    evicted; and the phase is over only when no goroutine is left. *)
Theorem evictions_after_spawns (peers : Download.Peers) (jobID : string)
    (data : MergeData) (cache0 : gmap string bytes) (schedule : list Download.Choice) :
  let s := Download.run peers jobID data schedule (Download.init data cache0) in
  Download.evictionsAfterSpawns (Download.events s)
  ∧ (∀ id, Download.DlDelete id ∈ Download.events s →
           id ∈ dom cache0 ∧ ¬ Download.referenced data id)
  ∧ (∀ t, Download.DlPut t ∈ Download.events s → Download.referenced data t)
  ∧ (∀ err, Download.pc s = Download.PcDone err → Download.running s = []).
Proof.
  intros s.
  destruct (invariant_run peers jobID data cache0 schedule _ (invariant_init data cache0))
    as (_ & Hord & Hdel & Hput & _ & Hphase).
  fold s in Hord, Hdel, Hput, Hphase.
  split; [exact Hord |]. split; [exact Hdel |]. split; [exact Hput |].
  intros err Hpc. unfold Download.phase in Hphase. now rewrite Hpc in Hphase.
Qed.

(** ** Every datum is counted once, but for the stats miss *)

Lemma classify_counts (tag datumID : string) (err : option error) (st : DatumStats) :
  uncounted st →
  datumCount (classify tag datumID err st).1 = 1
  ∧ countsNonNegative (classify tag datumID err st).1.
Proof.
  intros (Hp & Hs & Hf & Hr & _). unfold classify, datumCount, countsNonNegative.
  destruct err as [e|]; [destruct (is_errDatumRecovered e) |]; cbn;
    rewrite Hp, Hs, Hf, Hr; (split; [reflexivity |]); repeat split; now vm_compute.
Qed.

Lemma retryLoop_uncounted fuel (driver : Driver) inputs tag datumID (l l1 : Locals) err :
  retryLoop fuel driver inputs tag datumID l = Returned (err, l1) →
  uncounted (stats l) → uncounted (stats l1).
Proof.
  intros Hloop Hl.
  eapply (RetryUntilCancel_invariant (λ l0, uncounted (stats l0)));
    [| | exact Hl | exact Hloop].
  - intros s0 e s1 Hs0 Hop. unfold operation, WithData, WithActiveData, withDatum, runUserCode, newUUID, MergeCache_Put in Hop.
    repeat case_match; simplify_eq; exact Hs0.
  - intros err0 s0 e s1 Hs0 Hnt. unfold notify, putObjectFile in Hnt.
    repeat case_match; simplify_eq; exact Hs0.
Qed.

Lemma afterLoop_counts (driver : Driver) inputs tag datumID err (l1 : Locals) r w' :
  afterLoop driver inputs tag datumID err l1 = Returned (r, w') →
  uncounted (stats l1) → datumCount r.1.1 = 1 ∧ countsNonNegative r.1.1.
Proof.
  unfold afterLoop. intros Hafter Hl1.
  pose proof (classify_counts tag datumID err (stats l1) Hl1) as Hc.
  destruct (classify _ _ _ _) as [stats1 recovered].
  destruct (EnableStats (Info driver)); [| now injection Hafter as <- <-].
  destruct (inputTree l1), (outputTree l1), (statsTree l1); try discriminate.
  destruct (writeStats _ _ _ _ _ _ _ _). now injection Hafter as <- <-.
Qed.

(** When [processDatum] returns no error it has counted the datum once, in
    one of the four counts, unless it left through the stats miss of the
    cache probe, where it has counted nothing. *)
Lemma processDatum_counts fuel (driver : Driver) jobID index inputs commit
    (w w' : World) (st : DatumStats) (recovered : list string) :
  processDatum fuel driver jobID index inputs commit w
  = Returned ((st, recovered, None), w') →
  countsNonNegative st
  ∧ (datumCount st = 1 ∨ (datumCount st = 0 ∧ statsMiss driver inputs)).
Proof.
  intros Hrun. unfold processDatum in Hrun. unfold statsMiss.
  destruct (InspectTag driver _) as [miss|] eqn:Einspect.
  - (* cache miss: the loop, or an error before it *)
    assert (Hloop : ∀ l0,
      uncounted (stats l0) →
      match retryLoop fuel driver inputs
              (HashDatum driver (PipelineName (Info driver)) (Salt (Info driver)) inputs)
              (DatumID driver inputs) l0 with
      | Returned (err, l1) =>
          afterLoop driver inputs
            (HashDatum driver (PipelineName (Info driver)) (Salt (Info driver)) inputs)
            (DatumID driver inputs) err l1
      | Panicked => Panicked
      | OutOfFuel => OutOfFuel
      end = Returned ((st, recovered, None), w') →
      datumCount st = 1 ∧ countsNonNegative st).
    { clear Hrun. intros l0 Hl0.
      destruct (retryLoop fuel driver inputs _ _ l0) as [[err l1]| |] eqn:Eloop;
        try discriminate.
      intros Hafter. apply afterLoop_counts in Hafter; [exact Hafter |].
      eapply retryLoop_uncounted; eassumption. }
    destruct (EnableStats (Info driver)).
    + destruct (putObjectFile _ _ _ _) as [[e1|[e2|file]] w1]; try discriminate.
      apply Hloop in Hrun; [tauto | repeat split].
    + apply Hloop in Hrun; [tauto | repeat split].
  - (* cache hit *)
    injection Hrun as Hrun. unfold cacheProbe, newUUID, statsTagSuffix in Hrun.
    destruct (GetTag driver _) as [e|buf]; [discriminate |].
    destruct (MergeCache_Put _ _ _ _); [discriminate |].
    destruct (EnableStats (Info driver));
      [| injection Hrun as <- <- <-; split; [repeat split; now vm_compute | now left]].
    destruct (GetTag driver (_ +:+ "_stats")) as [e|statsBuf] eqn:Estats.
    + injection Hrun as <- <- <-. split; [repeat split; now vm_compute |].
      right. repeat split. now exists e.
    + destruct (MergeCache_Put _ _ _ _); [discriminate |].
      injection Hrun as <- <- <-. split; [repeat split; now vm_compute | now left].
Qed.

Lemma mergeStats_counts (x y x' : DatumStats) :
  mergeStats x y = Returned (x', None) →
  DatumsProcessed x' = int64 (DatumsProcessed x + DatumsProcessed y)
  ∧ DatumsSkipped x' = int64 (DatumsSkipped x + DatumsSkipped y)
  ∧ DatumsFailed x' = int64 (DatumsFailed x + DatumsFailed y)
  ∧ DatumsRecovered x' = int64 (DatumsRecovered x + DatumsRecovered y).
Proof.
  unfold mergeStats. intros H.
  repeat case_match; simplify_eq; cbn; auto.
Qed.

Lemma firstErr_None (e1 e2 : option error) : firstErr e1 e2 = None → e1 = None ∧ e2 = None.
Proof. destruct e1; [discriminate | auto]. Qed.

Lemma datumTask_groupErr fuel (driver : Driver) jobID commit datum (f f1 : FanOut) :
  datumTask fuel driver jobID commit datum f = Returned f1 →
  groupErr f1 = None →
  groupErr f = None
  ∧ ∃ subStats subRecovered w1,
      processDatum fuel driver jobID (Index datum) (Inputs datum) commit (fanWorld f)
      = Returned ((subStats, subRecovered, None), w1)
      ∧ mergeStats (dataStats f) subStats = Returned (dataStats f1, None).
Proof.
  unfold datumTask. intros Htask Hnone.
  destruct (NewLogger driver (Inputs datum)).
  { injection Htask as <-. cbn in Hnone. now apply firstErr_None in Hnone as [_ ?]. }
  destruct (processDatum _ _ _ _ _ _ _) as [[[[subStats subRecovered] err] w1]| |] eqn:Epd;
    try discriminate.
  destruct (mergeStats _ _) as [[merged statsErr]| |] eqn:Em; try discriminate.
  destruct err as [e|]; injection Htask as <-; cbn in Hnone;
    apply firstErr_None in Hnone as [Hf He].
  - discriminate.
  - subst statsErr. split; [exact Hf |]. exists subStats, subRecovered, w1.
    split; [reflexivity | exact Em].
Qed.

Lemma fanOut_groupErr fuel (driver : Driver) jobID commit (datums : list DatumInputs) :
  ∀ f f', fanOut fuel driver jobID commit datums f = Returned f' →
          groupErr f' = None → groupErr f = None.
Proof.
  induction datums as [|datum rest IH]; intros f f' Hrun Hnone.
  - now injection Hrun as <-.
  - cbn [fanOut] in Hrun.
    destruct (datumTask fuel driver jobID commit datum f) as [f1| |] eqn:Etask;
      try discriminate.
    specialize (IH _ _ Hrun Hnone).
    now destruct (datumTask_groupErr _ _ _ _ _ _ _ Etask IH).
Qed.

(** A fan-out that ends without an error, over datums none of which takes
    the stats miss, has counted each datum once. *)
Lemma fanOut_counts fuel (driver : Driver) jobID commit (datums : list DatumInputs) :
  ∀ f f',
    fanOut fuel driver jobID commit datums f = Returned f' →
    groupErr f' = None →
    (∀ datum, datum ∈ datums → ¬ statsMiss driver (Inputs datum)) →
    countsNonNegative (dataStats f) →
    datumCount (dataStats f) + Z.of_nat (length datums) < 2 ^ 63 →
    countsNonNegative (dataStats f')
    ∧ datumCount (dataStats f') = datumCount (dataStats f) + Z.of_nat (length datums).
Proof.
  induction datums as [|datum rest IH]; intros f f' Hrun Herr Hmiss Hpos Hsmall.
  - injection Hrun as <-. cbn. split; [assumption | lia].
  - cbn [fanOut] in Hrun.
    destruct (datumTask fuel driver jobID commit datum f) as [f1| |] eqn:Etask;
      try discriminate.
    pose proof (fanOut_groupErr _ _ _ _ _ _ _ Hrun Herr) as Hf1.
    destruct (datumTask_groupErr _ _ _ _ _ _ _ Etask Hf1)
      as (_ & subStats & subRecovered & w1 & Hpd & Hmerge).
    apply processDatum_counts in Hpd as [Hsub Hone].
    destruct Hone as [Hone | [_ Hbad]];
      [| exfalso; apply (Hmiss datum); [apply list_elem_of_here | exact Hbad]].
    apply mergeStats_counts in Hmerge as (Hp & Hs & Hfl & Hr).
    unfold countsNonNegative, datumCount in *.
    cbn [length] in Hsmall. rewrite Nat2Z.inj_succ in Hsmall.
    rewrite int64_small in Hp, Hs, Hfl, Hr by lia.
    destruct (IH f1 f' Hrun Herr) as [Hpos' Hcount'].
    + intros d Hd. apply Hmiss. now apply list_elem_of_further.
    + lia.
    + lia.
    + split; [exact Hpos' |]. cbn [length]. rewrite Nat2Z.inj_succ. lia.
Qed.

(** ** The download phase, continued *)

Lemma fetching_app (a b : list Download.Goroutine) :
  Download.fetching (a ++ b) = (Download.fetching a + Download.fetching b)%nat.
Proof.
  induction a as [|g a IH]; [reflexivity |].
  destruct g; cbn; rewrite IH; reflexivity.
Qed.

(** The goroutines that are left when the [n]-th has moved. *)
Lemma others_spec (l : list Download.Goroutine) (n : nat) (g : Download.Goroutine) :
  l !! n = Some g →
  (Download.fetching (take n l ++ drop (S n) l) <= Download.fetching l)%nat
  ∧ (∀ g', g' ∈ l → g' ≠ g → g' ∈ (take n l ++ drop (S n) l)%list)
  ∧ (∀ g', g' ∈ (take n l ++ drop (S n) l)%list → g' ∈ l).
Proof.
  intros Hg. pose proof (take_drop_middle l n g Hg) as Hl.
  split; [| split].
  - rewrite <- Hl at 3. rewrite !fetching_app. destruct g; cbn; lia.
  - intros g' Hin Hne. rewrite <- Hl in Hin.
    apply elem_of_app in Hin as [Hin|Hin]; apply elem_of_app; [now left |].
    apply elem_of_cons in Hin as [->|Hin]; [congruence | now right].
  - intros g' Hin. rewrite <- Hl.
    apply elem_of_app in Hin as [Hin|Hin]; apply elem_of_app; [now left |].
    right. now apply list_elem_of_further.
Qed.

Lemma first_Some (e : option error) (err : error) : Download.first e (Some err) ≠ None.
Proof. now destruct e. Qed.

Lemma first_keeps (e e' : option error) : e ≠ None → Download.first e e' ≠ None.
Proof. now destruct e. Qed.

Section DownloadCoverage.

Import Download.

Variable peers : Peers.
Variable jobID : string.
Variable data : MergeData.
Variable cache0 : gmap string bytes.

Lemma coverage_init : coverage data cache0 (init data cache0).
Proof.
  unfold coverage, init, takenCareOf, unexamined, loopOver, notFetched. cbn.
  split; [| split; [| split; [| split; [| split]]]].
  - intros t Hin. now apply elem_of_empty in Hin.
  - intros id Hid. right. apply elem_of_elements. now apply elem_of_dom.
  - intros [].
  - unfold limiterSize. lia.
  - discriminate.
  - intros id _ _. split; [reflexivity |]. split.
    + intros info Hin. now apply elem_of_nil in Hin.
    + discriminate.
Qed.

End DownloadCoverage.

Section DownloadCoverage2.

Import Download.

Variable peers : Peers.
Variable jobID : string.
Variable data : MergeData.
Variable cache0 : gmap string bytes.

(** The six parts of [coverage], one goal each. *)
Local Ltac coverage_parts :=
  unfold coverage, takenCareOf, unexamined, loopOver, notFetched; cbn;
  split; [| split; [| split; [| split; [| split]]]].

(** A recorded tag stays taken care of when the handler moves on from a
    point that is not the acquisition of a slot. *)
Local Ltac still_cared Hused :=
  let t := fresh "t" in
  let Ht := fresh "Ht" in
  let Href := fresh "Href" in
  let Hcare := fresh "Hcare" in
  intros t Ht; destruct (Hused t Ht) as [Href Hcare]; split; [exact Href |];
  destruct Hcare as [?|[?|[(? & ? & [=] & _)|?]]]; auto.

(** A cached chunk stays as it was when neither the cache nor the
    goroutines change. *)
Local Ltac still_kept Hkept :=
  let k := fresh "k" in
  let Href := fresh "Href" in
  let Hc := fresh "Hc" in
  intros k Href Hc; destruct (Hkept k Href Hc) as (? & ? & _);
  split; [assumption |]; split; [assumption | discriminate].

Lemma coverage_stepMain (s : State) :
  invariant data cache0 s → coverage data cache0 s → coverage data cache0 (stepMain data s).
Proof.
  intros (Hrun & _ & _ & _ & Hids & Hphase) (Hused & Hkeys & Hover & Hlim & Hdone & Hkept).
  unfold stepMain. unfold phase in Hphase.
  unfold takenCareOf, unexamined, loopOver, notFetched in *.
  destruct (pc s) as [[|info rest]|info rest|[|id ids]| | |err] eqn:Epc.
  - (* the loop is over *)
    destruct Hphase as (_ & _ & Hall). coverage_parts.
    + still_cared Hused.
    + exact Hkeys.
    + intros _ t Ht. destruct (Hall t Ht) as [|Hin]; [assumption |].
      now apply elem_of_nil in Hin.
    + exact Hlim.
    + discriminate.
    + still_kept Hkept.
  - (* one more chunk of the request *)
    destruct Hphase as (_ & Hrest & _).
    assert (Hinfo : referenced data (Tag info)) by (apply Hrest, list_elem_of_here).
    destruct (bool_decide (is_Some (cache s !! Tag info))) eqn:Ecached;
      [apply bool_decide_eq_true in Ecached | apply bool_decide_eq_false in Ecached];
      coverage_parts.
    + intros t Ht. apply elem_of_union in Ht as [Ht|Ht].
      * apply elem_of_singleton in Ht as ->. auto.
      * revert t Ht. still_cared Hused.
    + exact Hkeys.
    + intros [].
    + exact Hlim.
    + discriminate.
    + still_kept Hkept.
    + intros t Ht. apply elem_of_union in Ht as [Ht|Ht].
      * apply elem_of_singleton in Ht as ->. split; [exact Hinfo |].
        right. right. left. eauto.
      * revert t Ht. still_cared Hused.
    + exact Hkeys.
    + intros [].
    + exact Hlim.
    + discriminate.
    + intros id Href Hc. destruct (Hkept id Href Hc) as (Hsame & ? & _).
      split; [assumption |]. split; [assumption |].
      intros info0 rest0 [= <- <-] Heq. apply Ecached. rewrite Heq, Hsame. exact Hc.
  - (* a slot of the limiter *)
    destruct (bool_decide (fetching (running s) < limiterSize)%nat) eqn:Eslot.
    2:{ unfold coverage, takenCareOf, unexamined, loopOver, notFetched. rewrite Epc.
        split; [exact Hused |]. split; [exact Hkeys |]. split; [exact Hover |].
        split; [exact Hlim |]. split; [exact Hdone | exact Hkept]. }
    apply bool_decide_eq_true in Eslot. coverage_parts.
    + intros t Ht. destruct (Hused t Ht) as [Href Hcare]. split; [exact Href |].
      destruct Hcare as [?|[(i & Hin & Ht')|[(i & r & [= <- <-] & Ht')|?]]]; auto.
      * right. left. exists i. split; [| exact Ht']. apply elem_of_app. now left.
      * right. left. exists info. split; [| exact Ht']. apply elem_of_app. right.
        apply list_elem_of_here.
    + exact Hkeys.
    + intros [].
    + rewrite fetching_app. cbn. lia.
    + discriminate.
    + intros id Href Hc. destruct (Hkept id Href Hc) as (Hsame & Hno & Hacq).
      split; [assumption |]. split; [| discriminate].
      intros i Hin. apply elem_of_app in Hin as [Hin|Hin]; [now apply Hno |].
      apply list_elem_of_singleton in Hin. injection Hin as ->. now apply (Hacq info rest).
  - (* the eviction is over *)
    coverage_parts.
    + still_cared Hused.
    + intros id Hid. destruct (Hkeys id Hid) as [|Hin]; [now left |].
      now apply elem_of_nil in Hin.
    + exact Hover.
    + exact Hlim.
    + discriminate.
    + still_kept Hkept.
  - (* one key of the cache *)
    destruct (bool_decide (id ∈ usedIDs s)) eqn:Eused;
      [apply bool_decide_eq_true in Eused | apply bool_decide_eq_false in Eused];
      coverage_parts.
    + still_cared Hused.
    + intros k Hk. destruct (Hkeys k Hk) as [|Hin]; [now left |].
      apply elem_of_cons in Hin as [->|Hin]; [| now right].
      left. now apply Hused.
    + exact Hover.
    + exact Hlim.
    + discriminate.
    + still_kept Hkept.
    + intros t Ht. destruct (Hused t Ht) as [Href Hcare]. split; [exact Href |].
      assert (t ≠ id) by congruence.
      destruct Hcare as [?|[?|[(? & ? & [=] & _)|?]]]; auto.
      left. now rewrite lookup_delete_ne.
    + intros k Hk. destruct (decide (k = id)) as [->|Hne].
      * rewrite lookup_delete_eq in Hk. now destruct Hk.
      * rewrite lookup_delete_ne in Hk by congruence.
        destruct (Hkeys k Hk) as [|Hin]; [now left |].
        apply elem_of_cons in Hin as [->|Hin]; [congruence | now right].
    + exact Hover.
    + exact Hlim.
    + discriminate.
    + intros k Href Hc. destruct (Hkept k Href Hc) as (Hsame & ? & _).
      split; [| split; [assumption | discriminate]].
      rewrite lookup_delete_ne; [exact Hsame |].
      intros ->. apply Eused. now apply Hover.
  - (* the parent *)
    destruct (md_Parent data) as [hash|]; coverage_parts.
    + intros t Ht. destruct (Hused t Ht) as [Href Hcare]. split; [exact Href |].
      destruct Hcare as [?|[(i & Hin & Ht')|[(? & ? & [=] & _)|?]]]; auto.
      right. left. exists i. split; [| exact Ht']. apply elem_of_app. now left.
    + exact Hkeys.
    + exact Hover.
    + rewrite fetching_app. cbn. lia.
    + discriminate.
    + intros k Href Hc. destruct (Hkept k Href Hc) as (Hsame & Hno & _).
      split; [assumption |]. split; [| discriminate].
      intros i Hin. apply elem_of_app in Hin as [Hin|Hin]; [now apply Hno |].
      apply list_elem_of_singleton in Hin. discriminate.
    + still_cared Hused.
    + exact Hkeys.
    + exact Hover.
    + exact Hlim.
    + discriminate.
    + still_kept Hkept.
  - (* the wait *)
    destruct (running s) eqn:Erun.
    2:{ unfold coverage, takenCareOf, unexamined, loopOver, notFetched.
        rewrite Epc, Erun.
        split; [exact Hused |]. split; [exact Hkeys |]. split; [exact Hover |].
        split; [exact Hlim |]. split; [exact Hdone | exact Hkept]. }
    coverage_parts.
    + still_cared Hused.
    + exact Hkeys.
    + exact Hover.
    + lia.
    + now intros err [= <-].
    + intros k Href Hc. destruct (Hkept k Href Hc) as (? & ? & _).
      split; [assumption |]. split; [| discriminate].
      intros i Hin. now apply elem_of_nil in Hin.
  - (* the phase is over *)
    unfold coverage, takenCareOf, unexamined, loopOver, notFetched. rewrite Epc.
    split; [exact Hused |]. split; [exact Hkeys |]. split; [exact Hover |].
    split; [exact Hlim |]. split; [exact Hdone | exact Hkept].
Qed.

End DownloadCoverage2.

Section DownloadCoverage3.

Import Download.

Variable peers : Peers.
Variable jobID : string.
Variable data : MergeData.
Variable cache0 : gmap string bytes.

Lemma coverage_stepGoroutine (s : State) (n : nat) (g : Goroutine) :
  running s !! n = Some g →
  invariant data cache0 s → coverage data cache0 s →
  coverage data cache0 (stepGoroutine peers jobID data g
              (take n (running s) ++ drop (S n) (running s)) s).
Proof.
  intros Hg (Hrun & _ & _ & _ & _ & Hphase) (Hused & Hkeys & Hover & Hlim & Hdone & Hkept).
  destruct (others_spec (running s) n g Hg) as (Hless & Hstay & Hwere).
  assert (Hgin : g ∈ running s) by (eapply list_elem_of_lookup_2; eassumption).
  assert (Hnotdone : ∀ err, pc s ≠ PcDone err).
  { intros err Epc. unfold phase in Hphase. rewrite Epc in Hphase.
    rewrite Hphase in Hgin. now apply elem_of_nil in Hgin. }
  assert (Hfailed : ∀ e evs,
    e ≠ None →
    coverage data cache0 (mkState (pc s) (cache s) (cachedIDs s) (usedIDs s)
                 (take n (running s) ++ drop (S n) (running s)) e (parentReader s) evs)).
  { intros e evs He. unfold coverage, takenCareOf, unexamined, loopOver, notFetched in *. cbn.
    split; [| split; [| split; [| split; [| split]]]].
    - intros t Ht. destruct (Hused t Ht) as [Href _]. split; [exact Href |]. auto.
    - exact Hkeys.
    - exact Hover.
    - lia.
    - intros err Epc. now destruct (Hnotdone err).
    - intros k Href Hc. destruct (Hkept k Href Hc) as (Hsame & Hno & Hacq).
      split; [exact Hsame |]. split; [| exact Hacq].
      intros i Hin. apply Hno, Hwere, Hin. }
  unfold stepGoroutine. destruct g as [info|hash].
  - destruct (fetchChunk peers jobID info (md_Shard data) (md_Stats data)) as [err|[err|buf]];
      [apply Hfailed, first_Some | apply Hfailed, first_Some |].
    destruct (CachePutErr peers (Tag info) buf); [apply Hfailed, first_Some |].
    unfold coverage, takenCareOf, unexamined, loopOver, notFetched in *. cbn.
    split; [| split; [| split; [| split; [| split]]]].
    + intros t Ht. destruct (Hused t Ht) as [Href Hcare]. split; [exact Href |].
      destruct (decide (Tag info = t)) as [<-|Hne];
        [left; rewrite lookup_insert_eq; eauto |].
      destruct Hcare as [Hc|[(i & Hin & Ht')|[?|?]]]; auto using first_keeps.
      * left. now rewrite lookup_insert_ne.
      * right. left. exists i. split; [| exact Ht']. apply Hstay; [exact Hin | congruence].
    + intros k Hk. destruct (decide (Tag info = k)) as [<-|Hne].
      * left. now apply Hrun.
      * rewrite lookup_insert_ne in Hk by exact Hne. now apply Hkeys.
    + exact Hover.
    + lia.
    + intros err Epc. now destruct (Hnotdone err).
    + intros k Href Hc. destruct (Hkept k Href Hc) as (Hsame & Hno & Hacq).
      split; [| split; [| exact Hacq]].
      * rewrite lookup_insert_ne; [exact Hsame |]. now apply Hno.
      * intros i Hin. apply Hno, Hwere, Hin.
  - assert (Hparent : ∀ e opened,
      (groupErr s ≠ None → e ≠ None) →
      coverage data cache0 (mkState (pc s) (cache s) (cachedIDs s) (usedIDs s)
                   (take n (running s) ++ drop (S n) (running s)) e opened (events s))).
    { intros e opened He.
      unfold coverage, takenCareOf, unexamined, loopOver, notFetched in *. cbn.
      split; [| split; [| split; [| split; [| split]]]].
      - intros t Ht. destruct (Hused t Ht) as [Href Hcare]. split; [exact Href |].
        destruct Hcare as [Hc|[(i & Hin & Ht')|[?|?]]]; auto.
        right. left. exists i. split; [| exact Ht']. apply Hstay; [exact Hin | discriminate].
      - exact Hkeys.
      - exact Hover.
      - lia.
      - intros err Epc. now destruct (Hnotdone err).
      - intros k Href Hc. destruct (Hkept k Href Hc) as (Hsame & Hno & Hacq).
        split; [exact Hsame |]. split; [| exact Hacq].
        intros i Hin. apply Hno, Hwere, Hin. }
    destruct (GetObjectReader peers hash); apply Hparent; auto using first_keeps.
Qed.

Lemma coverage_step (c : Choice) (s : State) :
  invariant data cache0 s → coverage data cache0 s →
  coverage data cache0 (step peers jobID data c s).
Proof.
  intros Hinv Hs. destruct c as [|n]; cbn.
  - now apply coverage_stepMain.
  - destruct (running s !! n) as [g|] eqn:Hg; [| assumption].
    now apply coverage_stepGoroutine.
Qed.

Lemma coverage_run (schedule : list Choice) (s : State) :
  invariant data cache0 s → coverage data cache0 s →
  coverage data cache0 (run peers jobID data schedule s).
Proof.
  revert s. induction schedule as [|c rest IH]; intros s Hinv Hs; cbn; [assumption |].
  apply IH; [now apply invariant_step | now apply coverage_step].
Qed.

End DownloadCoverage3.

Section EagerSchedule.

Import Download.

Variable peers : Peers.
Variable jobID : string.
Variable data : MergeData.

(** A goroutine moves neither the handler nor the list of cached keys. *)
Lemma stepGoroutine_handler (g : Goroutine) (others : list Goroutine) (s : State) :
  pc (stepGoroutine peers jobID data g others s) = pc s
  ∧ cachedIDs (stepGoroutine peers jobID data g others s) = cachedIDs s
  ∧ running (stepGoroutine peers jobID data g others s) = others.
Proof.
  unfold stepGoroutine. destruct g as [info|hash].
  - destruct (fetchChunk _ _ _ _ _) as [err|[err|buf]]; [auto | auto |].
    destruct (CachePutErr _ _ _); auto.
  - destruct (GetObjectReader _ _); auto.
Qed.

(** One round of the eager schedule: the handler moves, and the goroutine
    it may have started runs to its end. *)
Lemma eager_round (s : State) :
  running s = [] →
  let s' := step peers jobID data (Nth 0) (step peers jobID data Handler s) in
  running s' = [] ∧ (stepsLeft s' <= pred (stepsLeft s))%nat.
Proof.
  intros Hidle. cbn [step].
  assert (Hquiet : ∀ s1, running s1 = [] → cachedIDs s1 = cachedIDs s →
            (stepsLeft s1 <= pred (stepsLeft s))%nat →
            running (match running s1 !! 0%nat with
                     | Some g => stepGoroutine peers jobID data g
                                   (take 0 (running s1) ++ drop 1 (running s1)) s1
                     | None => s1
                     end) = []
            ∧ (stepsLeft (match running s1 !! 0%nat with
                          | Some g => stepGoroutine peers jobID data g
                                        (take 0 (running s1) ++ drop 1 (running s1)) s1
                          | None => s1
                          end) <= pred (stepsLeft s))%nat).
  { intros s1 Hr _ Hm. rewrite Hr. cbn. auto. }
  assert (Hone : ∀ s1 g, running s1 = [g] → cachedIDs s1 = cachedIDs s →
            (stepsLeft s1 <= pred (stepsLeft s))%nat →
            running (match running s1 !! 0%nat with
                     | Some g => stepGoroutine peers jobID data g
                                   (take 0 (running s1) ++ drop 1 (running s1)) s1
                     | None => s1
                     end) = []
            ∧ (stepsLeft (match running s1 !! 0%nat with
                          | Some g => stepGoroutine peers jobID data g
                                        (take 0 (running s1) ++ drop 1 (running s1)) s1
                          | None => s1
                          end) <= pred (stepsLeft s))%nat).
  { intros s1 g Hr Hc Hm. rewrite Hr. cbn [lookup list_lookup take drop app].
    destruct (stepGoroutine_handler g [] s1) as (Hpc & Hids & Hrun).
    split; [exact Hrun |]. etransitivity; [| exact Hm]. unfold stepsLeft. now rewrite Hpc, Hids. }
  unfold stepMain.
  destruct (pc s) as [[|info rest]|info rest|[|id ids]| | |err] eqn:Epc.
  - apply Hquiet; cbn; auto. unfold stepsLeft. rewrite Epc. cbn. lia.
  - destruct (bool_decide _); apply Hquiet; cbn; auto; unfold stepsLeft; rewrite Epc; cbn;
      lia.
  - rewrite Hidle. cbn [fetching]. rewrite bool_decide_eq_true_2 by (unfold limiterSize; lia).
    apply (Hone _ (GoFetch info)); cbn; auto. unfold stepsLeft. rewrite Epc. cbn. lia.
  - apply Hquiet; cbn; auto. unfold stepsLeft. rewrite Epc. cbn. lia.
  - destruct (bool_decide _); apply Hquiet; cbn; auto; unfold stepsLeft; rewrite Epc; cbn;
      lia.
  - destruct (md_Parent data) as [hash|].
    + rewrite Hidle. apply (Hone _ (GoParent hash)); cbn; auto.
      unfold stepsLeft. rewrite Epc. cbn. lia.
    + apply Hquiet; cbn; auto. unfold stepsLeft. rewrite Epc. cbn. lia.
  - rewrite Hidle. apply Hquiet; cbn; auto. unfold stepsLeft. rewrite Epc. cbn. lia.
  - apply Hquiet; auto. unfold stepsLeft. rewrite Epc. cbn. lia.
Qed.

Lemma eager_run (n : nat) (s : State) :
  running s = [] →
  running (run peers jobID data (Merge.eager n) s) = []
  ∧ (stepsLeft (run peers jobID data (Merge.eager n) s) <= stepsLeft s - n)%nat.
Proof.
  revert s. induction n as [|n IH]; intros s Hidle.
  - cbn. split; [exact Hidle | lia].
  - cbn [Merge.eager run].
    destruct (eager_round s Hidle) as [Hidle' Hm].
    destruct (IH _ Hidle') as [Hr Hl]. split; [exact Hr | lia].
Qed.

Lemma stepsLeft_0 (s : State) : stepsLeft s = 0%nat → ∃ err, pc s = PcDone err.
Proof.
  unfold stepsLeft. destruct (pc s); try lia; try (intros; lia). eauto.
Qed.

(** The eager schedule takes the handler to the end of the phase. *)
Lemma eager_done (cache0 : gmap string bytes) (n : nat) :
  (2 * length (md_Hashtrees data) + size cache0 + 4 <= n)%nat →
  ∃ err, pc (run peers jobID data (Merge.eager n) (init data cache0)) = PcDone err.
Proof.
  intros Hn. apply stepsLeft_0.
  destruct (eager_run n (init data cache0) eq_refl) as [_ Hle].
  assert (Hstart : stepsLeft (init data cache0)
                   = (2 * length (md_Hashtrees data) + size cache0 + 4)%nat).
  { unfold stepsLeft, init. cbn [pc cachedIDs]. now rewrite <- size_dom. }
  lia.
Qed.

End EagerSchedule.

Section ParentReader.

Import Download.

Variable peers : Peers.
Variable jobID : string.
Variable data : MergeData.

Lemma parentInv_init (cache0 : gmap string bytes) : parentInv peers data (init data cache0).
Proof.
  unfold parentInv, init. cbn. split; [| split].
  - intros hash Hin. now apply elem_of_nil in Hin.
  - discriminate.
  - intros [[=]|[err [=]]].
Qed.

Lemma parentInv_stepMain (s : State) :
  parentInv peers data s → parentInv peers data (stepMain data s).
Proof.
  intros (Hgo & Hopen & Hwait). unfold stepMain, parentInv.
  destruct (pc s) as [[|info rest]|info rest|[|id ids]| | |err] eqn:Epc.
  - cbn. split; [exact Hgo |]. split; [exact Hopen |]. intros [[=]|[err [=]]].
  - destruct (bool_decide _); cbn; (split; [exact Hgo |]); (split; [exact Hopen |]);
      intros [[=]|[err [=]]].
  - destruct (bool_decide _); [| rewrite Epc; auto]. cbn. split; [| split; [exact Hopen |]].
    + intros hash Hin. apply elem_of_app in Hin as [Hin|Hin]; [now apply Hgo |].
      apply list_elem_of_singleton in Hin. discriminate.
    + intros [[=]|[err [=]]].
  - cbn. split; [exact Hgo |]. split; [exact Hopen |]. intros [[=]|[err [=]]].
  - destruct (bool_decide _); cbn; (split; [exact Hgo |]); (split; [exact Hopen |]);
      intros [[=]|[err [=]]].
  - destruct (md_Parent data) as [hash|] eqn:Eparent; cbn.
    + split; [| split; [exact Hopen |]].
      * intros h Hin. apply elem_of_app in Hin as [Hin|Hin]; [now apply Hgo |].
        apply list_elem_of_singleton in Hin. now injection Hin as ->.
      * intros _ h [= <-]. left. apply elem_of_app. right. apply list_elem_of_here.
    + split; [exact Hgo |]. split; [exact Hopen |]. intros _ h [=].
  - destruct (running s) eqn:Erun; [| rewrite Epc, Erun; auto]. cbn.
    split; [| split; [exact Hopen |]].
    + intros hash Hin. now apply elem_of_nil in Hin.
    + intros _ hash Hp. destruct (Hwait (or_introl eq_refl) hash Hp) as [Hin|H]; [| now right].
      now apply elem_of_nil in Hin.
  - rewrite Epc. auto.
Qed.

Lemma parentInv_stepGoroutine (s : State) (n : nat) (g : Goroutine) :
  running s !! n = Some g →
  parentInv peers data s →
  parentInv peers data (stepGoroutine peers jobID data g
                          (take n (running s) ++ drop (S n) (running s)) s).
Proof.
  intros Hg (Hgo & Hopen & Hwait).
  destruct (others_spec (running s) n g Hg) as (_ & Hstay & Hwere).
  assert (Hgin : g ∈ running s) by (eapply list_elem_of_lookup_2; eassumption).
  unfold stepGoroutine. destruct g as [info|hash].
  - assert (Hfetch : ∀ c e evs,
      (groupErr s ≠ None → e ≠ None) →
      parentInv peers data (mkState (pc s) c (cachedIDs s) (usedIDs s)
                  (take n (running s) ++ drop (S n) (running s)) e (parentReader s) evs)).
    { intros c e evs He. unfold parentInv. cbn. split; [| split; [exact Hopen |]].
      - intros h Hin. apply Hgo, Hwere, Hin.
      - intros Hpc h Hp. destruct (Hwait Hpc h Hp) as [Hin|[?|?]]; [| auto ..].
        left. apply Hstay; [exact Hin | discriminate]. }
    destruct (fetchChunk _ _ _ _ _) as [err|[err|buf]];
      [apply Hfetch; auto using first_keeps .. |].
    destruct (CachePutErr _ _ _); apply Hfetch; auto using first_keeps.
  - pose proof (Hgo hash Hgin) as Hparent.
    destruct (GetObjectReader peers hash) eqn:Eopen; unfold parentInv; cbn.
    + split; [| split; [exact Hopen |]].
      * intros h Hin. apply Hgo, Hwere, Hin.
      * intros _ h _. right. right. apply first_Some.
    + split; [| split].
      * intros h Hin. apply Hgo, Hwere, Hin.
      * intros _. eauto.
      * intros _ h _. right. now left.
Qed.

Lemma parentInv_run (schedule : list Choice) (s : State) :
  parentInv peers data s → parentInv peers data (run peers jobID data schedule s).
Proof.
  revert s. induction schedule as [|c rest IH]; intros s Hs; cbn; [assumption |].
  apply IH. destruct c as [|n]; cbn.
  - now apply parentInv_stepMain.
  - destruct (running s !! n) as [g|] eqn:Hg; [| assumption].
    now apply parentInv_stepGoroutine.
Qed.

End ParentReader.

(** ** The merge phase *)

(** The index writer: what [writeIndex] leaves behind. *)
Lemma writeIndex_inv (store : Merge.Store) (driver : Driver) (tree : string)
    (indexData : bytes) (s s' : Merge.State) (err : option error) :
  Merge.writeIndex store driver tree indexData s = (err, s') →
  Merge.mworld s' = Merge.mworld s
  ∧ ((Merge.calls s' = Merge.calls s ∧ err ≠ None)
     ∨ ∃ block path,
         InspectObject driver tree = inr block
         ∧ Merge.BlockPathFromEnv store block = inr path
         ∧ Merge.DirectObjWriter store (path +:+ Merge.IndexPath store) = None
         ∧ Merge.calls s'
           = Merge.CloseIndex (path +:+ Merge.IndexPath store)
             :: Merge.WriteIndex (path +:+ Merge.IndexPath store) indexData
             :: Merge.calls s
         ∧ err = match Merge.IndexWrite store (path +:+ Merge.IndexPath store) indexData with
                 | Some e => Some e
                 | None => Merge.IndexClose store (path +:+ Merge.IndexPath store) indexData
                 end).
Proof.
  unfold Merge.writeIndex, Merge.EnsureStack, Merge.call.
  destruct (InspectObject driver tree) as [e|block] eqn:Einspect.
  { intros [= <- <-]. split; [reflexivity |]. now left. }
  destruct (Merge.BlockPathFromEnv store block) as [e|path] eqn:Epath.
  { intros [= <- <-]. split; [reflexivity |]. now left. }
  destruct (Merge.DirectObjWriter store _) as [e|] eqn:Eopen.
  { intros [= <- <-]. split; [reflexivity |]. now left. }
  intros Hrun. cbn in Hrun.
  destruct (Merge.IndexWrite store _ _) as [we|] eqn:Ewrite;
    destruct (Merge.IndexClose store _ _) as [ce|] eqn:Eclose;
    injection Hrun as <- <-; (split; [reflexivity |]); right; exists block, path;
    (split; [first [reflexivity | assumption] |]);
    (split; [first [reflexivity | assumption] |]);
    (split; [first [reflexivity | assumption] |]);
    rewrite ?Ewrite, ?Eclose; (split; reflexivity).
Qed.

Lemma closeObject_spec (driver : Driver) (written : bytes) (s s' : Merge.State)
    (err : option error) :
  Merge.closeObject driver written s = (err, s') →
  Merge.calls s' = Merge.CloseObject written :: Merge.calls s
  ∧ err = ObjClose driver [] written
  ∧ chunkCaches (Merge.mworld s') = chunkCaches (Merge.mworld s)
  ∧ chunkStatsCaches (Merge.mworld s') = chunkStatsCaches (Merge.mworld s)
  ∧ trace (Merge.mworld s')
    = match err with
      | None => EvPutObjectAsync [] written :: trace (Merge.mworld s)
      | Some _ => trace (Merge.mworld s)
      end.
Proof.
  unfold Merge.closeObject, commitObject.
  destruct (ObjClose driver [] written); intros [= <- <-]; cbn; auto.
Qed.

(** [merge], case by case: the object writer could not be opened; or it
    was, and then it has been closed once, after which the index may have
    been written and its writer closed. *)
Lemma merge_inv (store : Merge.Store) (driver : Driver) (parent : option string)
    (cache : gmap string bytes) (shard : Z) (s s' : Merge.State)
    (tree : option string) (size : Z) (err : option error) :
  Merge.merge store driver parent cache shard s = ((tree, size, err), s') →
  chunkCaches (Merge.mworld s') = chunkCaches (Merge.mworld s)
  ∧ chunkStatsCaches (Merge.mworld s') = chunkStatsCaches (Merge.mworld s)
  ∧ ((PutObjectAsync driver [] ≠ None ∧ s' = s ∧ tree = None ∧ size = 0 ∧ err ≠ None)
     ∨ ∃ written reported merged index,
         PutObjectAsync driver [] = None
         ∧ Merge.CacheMerge store cache parent (Merge.NumShards store) shard
           = (written, reported, merged)
         ∧ Merge.calls s' = (index ++ Merge.CloseObject written :: Merge.calls s)%list
         ∧ (index = [] ∨ ∃ p d, index = [Merge.CloseIndex p; Merge.WriteIndex p d])
         ∧ match err with
           | Some _ => tree = None ∧ size = 0
           | None =>
               merged = None ∧ size = reported
               ∧ ObjClose driver [] written = None
               ∧ trace (Merge.mworld s') = EvPutObjectAsync [] written :: trace (Merge.mworld s)
               ∧ ∃ hash indexData block path,
                   tree = Some hash
                   ∧ Merge.Object store written = inr hash
                   ∧ Merge.Index store written = inr indexData
                   ∧ InspectObject driver hash = inr block
                   ∧ Merge.BlockPathFromEnv store block = inr path
                   ∧ index = [Merge.CloseIndex (path +:+ Merge.IndexPath store);
                              Merge.WriteIndex (path +:+ Merge.IndexPath store) indexData]
                   ∧ Merge.IndexWrite store (path +:+ Merge.IndexPath store) indexData = None
                   ∧ Merge.IndexClose store (path +:+ Merge.IndexPath store) indexData = None
           end).
Proof.
  unfold Merge.merge, Merge.EnsureStack.
  destruct (PutObjectAsync driver []) as [e|] eqn:Eopen.
  { intros [= <- <- <- <-]. split; [reflexivity |]. split; [reflexivity |]. left.
    repeat split; discriminate. }
  destruct (Merge.CacheMerge store cache parent (Merge.NumShards store) shard)
    as [[written reported] merged] eqn:Emerge.
  destruct (Merge.closeObject driver written s) as [cerr s1] eqn:Eclose.
  apply closeObject_spec in Eclose as (Hcalls1 & Hcerr & Hcc1 & Hcs1 & Htrace1).
  assert (Hfailed : ∀ (e : error) (m : option error),
    chunkCaches (Merge.mworld s1) = chunkCaches (Merge.mworld s)
    ∧ chunkStatsCaches (Merge.mworld s1) = chunkStatsCaches (Merge.mworld s)
    ∧ ((@None error ≠ None ∧ s1 = s ∧ @None string = None ∧ 0 = 0 ∧ Some e ≠ None)
       ∨ ∃ written0 reported0 merged0 index,
           @None error = None
           ∧ (written, reported, m) = (written0, reported0, merged0)
           ∧ Merge.calls s1 = (index ++ Merge.CloseObject written0 :: Merge.calls s)%list
           ∧ (index = [] ∨ ∃ p d, index = [Merge.CloseIndex p; Merge.WriteIndex p d])
           ∧ (@None string = None ∧ 0 = 0))).
  { intros e m. split; [exact Hcc1 |]. split; [exact Hcs1 |]. right.
    exists written, reported, m, []. split; [reflexivity |]. split; [reflexivity |].
    split; [exact Hcalls1 |]. split; [now left |]. split; reflexivity. }
  destruct merged as [e|].
  { cbn [snd]. intros [= <- <- <- <-]. apply Hfailed. }
  destruct cerr as [e|].
  { intros [= <- <- <- <-]. apply Hfailed. }
  destruct (Merge.Object store written) as [e|hash] eqn:Eobject.
  { intros [= <- <- <- <-]. apply Hfailed. }
  destruct (Merge.Index store written) as [e|indexData] eqn:Eindex.
  { intros [= <- <- <- <-]. apply Hfailed. }
  destruct (Merge.writeIndex store driver hash indexData s1) as [werr s2] eqn:Ewrite.
  apply writeIndex_inv in Ewrite as (Hworld & Hindex).
  rewrite <- Hworld in Hcc1, Hcs1, Htrace1.
  destruct werr as [e|].
  - intros [= <- <- <- <-]. split; [exact Hcc1 |]. split; [exact Hcs1 |]. right.
    destruct Hindex as [[Hsame _] | (block & path & _ & _ & _ & Hcalls2 & _)].
    + exists written, reported, None, []. rewrite Hsame, Hcalls1.
      split; [reflexivity |]. split; [reflexivity |]. split; [reflexivity |].
      split; [now left |]. split; reflexivity.
    + exists written, reported, None,
        [Merge.CloseIndex (path +:+ Merge.IndexPath store);
         Merge.WriteIndex (path +:+ Merge.IndexPath store) indexData].
      rewrite Hcalls2, Hcalls1. split; [reflexivity |]. split; [reflexivity |].
      split; [reflexivity |]. split; [right; eauto |]. split; reflexivity.
  - intros [= <- <- <- <-]. split; [exact Hcc1 |]. split; [exact Hcs1 |]. right.
    destruct Hindex as [[_ Hbad] | (block & path & Hinspect & Hpath & _ & Hcalls2 & Hnone)];
      [congruence |].
    exists written, reported, None,
      [Merge.CloseIndex (path +:+ Merge.IndexPath store);
       Merge.WriteIndex (path +:+ Merge.IndexPath store) indexData].
    rewrite Hcalls2, Hcalls1. split; [reflexivity |]. split; [reflexivity |].
    split; [reflexivity |]. split; [right; eauto |].
    split; [reflexivity |]. split; [reflexivity |]. split; [now symmetry |].
    split; [exact Htrace1 |].
    exists hash, indexData, block, path.
    destruct (Merge.IndexWrite store _ _); [discriminate |].
    repeat split; auto.
Qed.

(** What the download phase has done when the handler leaves it. *)
Lemma download_done (peers : Download.Peers) (jobID : string) (data : MergeData)
    (cache0 : gmap string bytes) (schedule : list Download.Choice) (err : option error) :
  let d := Download.run peers jobID data schedule (Download.init data cache0) in
  Download.pc d = Download.PcDone err →
  Download.groupErr d = err
  ∧ Download.running d = []
  ∧ (∀ id, is_Some (Download.cache d !! id) → Download.referenced data id)
  ∧ (err = None → ∀ t, Download.referenced data t → is_Some (Download.cache d !! t))
  ∧ (∀ id, Download.referenced data id → is_Some (cache0 !! id) →
           Download.cache d !! id = cache0 !! id)
  ∧ (err = None →
     (if Download.parentReader d then md_Parent data else None) = md_Parent data)
  ∧ (Download.parentReader d = true →
     ∃ hash, md_Parent data = Some hash ∧ Download.GetObjectReader peers hash = None).
Proof.
  intros d Hpc.
  pose proof (invariant_run peers jobID data cache0 schedule _ (invariant_init data cache0))
    as (_ & _ & _ & _ & _ & Hphase).
  pose proof (coverage_run peers jobID data cache0 schedule _ (invariant_init data cache0)
                (coverage_init data cache0))
    as (Hused & Hkeys & Hover & _ & Hdone & Hkept).
  pose proof (parentInv_run peers jobID data schedule _ (parentInv_init peers data cache0))
    as (_ & Hopen & Hwait).
  fold d in Hphase, Hused, Hkeys, Hover, Hdone, Hkept, Hopen, Hwait.
  unfold Download.phase in Hphase. unfold unexamined in Hkeys. unfold loopOver in Hover.
  rewrite Hpc in Hphase, Hkeys, Hover.
  pose proof (Hdone err Hpc) as Herr.
  split; [exact Herr |]. split; [exact Hphase |]. split; [| split; [| split; [| split]]].
  - intros id Hid. destruct (Hkeys id Hid) as [|Hin]; [assumption |].
    now apply elem_of_nil in Hin.
  - intros -> t Ht. destruct (Hused t (Hover I t Ht)) as [_ Hcare].
    destruct Hcare as [?|[(i & Hin & _)|[(i & r & Hacq & _)|Hbad]]]; [assumption | | |].
    + rewrite Hphase in Hin. now apply elem_of_nil in Hin.
    + rewrite Hpc in Hacq. discriminate.
    + congruence.
  - intros id Href Hc. now destruct (Hkept id Href Hc).
  - intros ->. destruct (md_Parent data) as [hash|] eqn:Eparent; [| now destruct (_ : bool)].
    destruct (Hwait (or_intror (ex_intro _ None Hpc)) hash eq_refl) as [Hin|[->|Hbad]].
    + rewrite Hphase in Hin. now apply elem_of_nil in Hin.
    + reflexivity.
    + congruence.
  - exact Hopen.
Qed.

Lemma chunkCacheOf_set_registry (stats : bool) (jobID : string) (c : gmap string bytes)
    (w : World) :
  chunkCacheOf stats jobID (set_registry stats (<[jobID := c]> (registry stats w)) w) = c.
Proof. unfold chunkCacheOf. destruct stats; cbn; now rewrite lookup_insert_eq. Qed.

Lemma chunkCacheOf_same (stats : bool) (jobID : string) (w w' : World) :
  chunkCaches w' = chunkCaches w → chunkStatsCaches w' = chunkStatsCaches w →
  chunkCacheOf stats jobID w' = chunkCacheOf stats jobID w.
Proof. intros H1 H2. unfold chunkCacheOf, registry. destruct stats; congruence. Qed.

Lemma closeParent_spec (store : Merge.Store) (parentReader : option string)
    (retErr : option error) (s s' : Merge.State) (err : option error) :
  Merge.closeParent store parentReader retErr s = (err, s') →
  Merge.mworld s' = Merge.mworld s
  ∧ Merge.calls s' = match parentReader with
                     | Some hash => Merge.CloseParent hash :: Merge.calls s
                     | None => Merge.calls s
                     end
  ∧ err = match retErr, parentReader with
          | None, Some hash => Merge.ParentClose store hash
          | _, _ => retErr
          end.
Proof.
  unfold Merge.closeParent. destruct parentReader as [hash|]; intros [= <- <-]; cbn;
    destruct retErr; auto.
Qed.

(** [handleMergeTask], case by case: the cache of the job could not be
    had; or the download phase failed; or [merge] ran. *)
Lemma handleMergeTask_inv (peers : Download.Peers) (store : Merge.Store)
    (schedule : list Download.Choice) (driver : Driver) (jobID : string)
    (data data' : MergeData) (w : World) (err : option error) (s' : Merge.State) :
  Merge.handleMergeTask peers store schedule driver jobID data w
  = Returned ((data', err), s') →
  (GetOrCreateCache driver (md_Stats data) jobID ≠ None
   ∧ data' = data ∧ err = GetOrCreateCache driver (md_Stats data) jobID
   ∧ Merge.calls s' = [] ∧ Merge.mworld s' = w)
  ∨ (GetOrCreateCache driver (md_Stats data) jobID = None
     ∧ ∃ derr s0,
         let d := Download.run peers jobID data schedule
                    (Download.init data (chunkCacheOf (md_Stats data) jobID w)) in
         let parent := if Download.parentReader d then md_Parent data else None in
         Download.pc d = Download.PcDone derr
         ∧ Merge.calls s0 = []
         ∧ trace (Merge.mworld s0) = trace w
         ∧ chunkCacheOf (md_Stats data) jobID (Merge.mworld s0) = Download.cache d
         ∧ chunkCacheOf (md_Stats data) jobID (Merge.mworld s') = Download.cache d
         ∧ match derr with
           | Some e =>
               data' = data ∧ err = Some e ∧ Merge.mworld s' = Merge.mworld s0
               ∧ Merge.calls s' = match parent with
                                  | Some h => [Merge.CloseParent h]
                                  | None => []
                                  end
           | None =>
               ∃ tree size merr s1,
                 Merge.merge store driver parent (Download.cache d) (md_Shard data) s0
                 = ((tree, size, merr), s1)
                 ∧ Merge.mworld s' = Merge.mworld s1
                 ∧ Merge.calls s' = match parent with
                                    | Some h => Merge.CloseParent h :: Merge.calls s1
                                    | None => Merge.calls s1
                                    end
                 ∧ match merr with
                   | Some e => data' = data ∧ err = Some e
                   | None =>
                       data' = Merge.set_Tree tree size data
                       ∧ err = match parent with
                               | Some h => Merge.ParentClose store h
                               | None => None
                               end
                   end
           end).
Proof.
  unfold Merge.handleMergeTask, LogStep, Merge.EnsureStack.
  destruct (getOrCreateCache driver (md_Stats data) jobID w) as [[e|] w1] eqn:Eget.
  { intros [= <- <- <-]. left. unfold getOrCreateCache in Eget.
    destruct (GetOrCreateCache driver (md_Stats data) jobID); [| discriminate].
    injection Eget as <- <-. auto. }
  intros Hrun. right.
  assert (Hnone : GetOrCreateCache driver (md_Stats data) jobID = None).
  { unfold getOrCreateCache in Eget.
    now destruct (GetOrCreateCache driver (md_Stats data) jobID). }
  split; [exact Hnone |].
  apply getOrCreateCache_spec in Eget as (Hcache & _ & _ & _ & Htrace).
  rewrite (Hcache (md_Stats data) jobID) in Hrun.
  set (d := Download.run peers jobID data schedule
              (Download.init data (chunkCacheOf (md_Stats data) jobID w))) in *.
  set (w2 := set_registry (md_Stats data)
               (<[jobID := Download.cache d]> (registry (md_Stats data) w1)) w1) in *.
  set (parent := if Download.parentReader d then md_Parent data else None) in *.
  assert (Hw2 : chunkCacheOf (md_Stats data) jobID w2 = Download.cache d)
    by apply chunkCacheOf_set_registry.
  assert (Htr2 : trace w2 = trace w).
  { unfold w2, set_registry. destruct (md_Stats data); cbn; exact Htrace. }
  destruct (Download.pc d) as [| | | | |derr] eqn:Epc; try discriminate.
  exists derr, (Merge.mkState w2 []). cbn zeta.
  split; [reflexivity |]. split; [reflexivity |]. split; [exact Htr2 |].
  split; [exact Hw2 |].
  destruct derr as [e|].
  - destruct (Merge.closeParent store parent (Some e) (Merge.mkState w2 []))
      as [retErr s1] eqn:Eclose.
    apply closeParent_spec in Eclose as (Hworld & Hcalls & Herr).
    injection Hrun as <- <- <-. rewrite Hworld. cbn [Merge.mworld].
    split; [exact Hw2 |]. split; [reflexivity |]. split; [exact Herr |].
    split; [reflexivity |]. rewrite Hcalls. now destruct parent.
  - destruct (Merge.merge store driver parent (Download.cache d) (md_Shard data)
                (Merge.mkState w2 [])) as [[[tree size] merr] s1] eqn:Emerge.
    pose proof (merge_inv _ _ _ _ _ _ _ _ _ _ Emerge) as (Hcc & Hcs & _).
    assert (Hs1 : chunkCacheOf (md_Stats data) jobID (Merge.mworld s1) = Download.cache d).
    { rewrite <- Hw2. now apply chunkCacheOf_same. }
    destruct merr as [e|].
    + destruct (Merge.closeParent store parent (Some e) s1) as [retErr s2] eqn:Eclose.
      apply closeParent_spec in Eclose as (Hworld & Hcalls & Herr).
      injection Hrun as <- <- <-. rewrite Hworld.
      split; [exact Hs1 |]. exists tree, size, (Some e), s1.
      split; [reflexivity |]. split; [reflexivity |]. split; [exact Hcalls |].
      split; [reflexivity | exact Herr].
    + destruct (Merge.closeParent store parent None s1) as [retErr s2] eqn:Eclose.
      apply closeParent_spec in Eclose as (Hworld & Hcalls & Herr).
      injection Hrun as <- <- <-. rewrite Hworld.
      split; [exact Hs1 |]. exists tree, size, None, s1.
      split; [reflexivity |]. split; [reflexivity |]. split; [exact Hcalls |].
      split; [reflexivity | exact Herr].
Qed.

(** ** Durations and statistics, continued *)

(** What [int64] takes away is a multiple of [2 ^ 64]. *)
Lemma int64_wrap (z : Z) : ∃ k, int64 z = z - 2 ^ 64 * k.
Proof.
  exists ((z + 2 ^ 63) / 2 ^ 64). unfold int64.
  pose proof (Z.div_mod (z + 2 ^ 63) (2 ^ 64) ltac:(lia)). lia.
Qed.

Lemma int64_add_l (a b : Z) : int64 (int64 a + b) = int64 (a + b).
Proof.
  unfold int64. f_equal.
  replace ((a + 2 ^ 63) mod 2 ^ 64 - 2 ^ 63 + b + 2 ^ 63)
    with ((a + 2 ^ 63) mod 2 ^ 64 + b) by lia.
  rewrite Zplus_mod_idemp_l. f_equal. lia.
Qed.

Lemma uint64_add_l (a b : Z) : uint64 (uint64 a + b) = uint64 (a + b).
Proof. unfold uint64. apply Zplus_mod_idemp_l. Qed.

(** What [DurationFromProto] has checked of a message that it accepts. *)
Lemma DurationFromProto_accepts (p : Duration) (n : Z) :
  types.DurationFromProto p = inr n →
  n = Seconds p * 1000000000 + Nanos p
  ∧ - 2 ^ 63 <= n < 2 ^ 63
  ∧ - 1000000000 < Nanos p < 1000000000
  ∧ (Seconds p < 0 → Nanos p <= 0) ∧ (0 < Seconds p → 0 <= Nanos p).
Proof.
  destruct p as [secs nanos].
  unfold types.DurationFromProto, types.validateDuration, types.minSeconds,
    types.maxSeconds, types.second. cbn [Seconds Nanos].
  destruct (int64_wrap (secs * 1000000000)) as [k Hk].
  pose proof (int64_range (secs * 1000000000)) as Hrange.
  destruct (quot_billion (int64 (secs * 1000000000))) as (q & r & Hq & Hsplit & Hpos & Hneg).
  destruct (int64_wrap (int64 (secs * 1000000000) + nanos)) as [k' Hk'].
  pose proof (int64_range (int64 (secs * 1000000000) + nanos)) as Hrange'.
  repeat match goal with
         | |- context [(?a <? ?b) || _] =>
             destruct (Z.ltb_spec a b); cbn [orb]; [intros Hrun; discriminate Hrun |]
         | |- context [(?a <=? ?b) || _] =>
             destruct (Z.leb_spec a b); cbn [orb]; [intros Hrun; discriminate Hrun |]
         | |- context [if ?a <? ?b then _ else _] =>
             destruct (Z.ltb_spec a b); [intros Hrun; discriminate Hrun |]
         | |- context [if ?a <=? ?b then _ else _] =>
             destruct (Z.leb_spec a b); [intros Hrun; discriminate Hrun |]
         end.
  destruct (Z.ltb_spec secs 0), (Z.ltb_spec 0 nanos), (Z.ltb_spec 0 secs),
    (Z.ltb_spec nanos 0); cbn [andb orb]; try (intros Hrun; discriminate Hrun).
  all: match goal with
       | |- context [negb (?a =? ?b)] =>
           destruct (Z.eqb_spec a b) as [Hqs|]; cbn [negb];
           [| intros Hrun; discriminate Hrun]
       end.
  all: rewrite Hq in Hqs.
  all: assert (Hexact : int64 (secs * 1000000000) = secs * 1000000000)
         by (assert (k = 0) by lia; lia).
  all: destruct (Z.eqb_spec nanos 0) as [Hzero|Hnonzero]; cbn [negb].
  all: try (intros [= <-]; lia).
  all: match goal with
       | |- context [?a <? 0] =>
           destruct (Z.ltb_spec a 0); cbn [Bool.eqb negb];
           try (intros Hrun; discriminate Hrun)
       end.
  all: intros [= <-]; assert (k' = 0) by lia; lia.
Qed.

(** A message that [DurationFromProto] accepts is what [DurationProto]
    makes of its nanoseconds. *)
Lemma DurationProto_DurationFromProto (p : Duration) (n : Z) :
  types.DurationFromProto p = inr n → types.DurationProto n = p.
Proof.
  intros H. apply DurationFromProto_accepts in H as (-> & Hn & Hnanos & Hs1 & Hs2).
  destruct p as [secs nanos]. cbn [Seconds Nanos] in *.
  unfold types.DurationProto.
  destruct (quot_billion (secs * 1000000000 + nanos)) as (q & r & Hq & Hsplit & Hpos & Hneg).
  assert (Hqs : q = secs) by lia.
  rewrite Hq, Hqs.
  rewrite (int64_small (secs * 1000000000)) by lia.
  replace (secs * 1000000000 + nanos - secs * 1000000000) with nanos by lia.
  rewrite (int64_small nanos) by lia. rewrite (int32_small nanos) by lia. reflexivity.
Qed.

Lemma plusDuration_inv (a b : option Duration) (d : Duration) :
  plusDuration a b = inr d →
  ∃ na nb, nanoseconds a = Some na ∧ nanoseconds b = Some nb
           ∧ d = types.DurationProto (int64 (na + nb)).
Proof.
  unfold plusDuration, nanoseconds, receivedOr.
  destruct a as [a|], b as [b|];
    repeat match goal with
           | |- context [types.DurationFromProto ?p] =>
               destruct (types.DurationFromProto p); [discriminate |]
           end; intros [= <-]; eauto.
Qed.

Lemma plusDuration_inl (a b : option Duration) (e : error) :
  plusDuration a b = inl e → nanoseconds a = None ∨ nanoseconds b = None.
Proof.
  unfold plusDuration, nanoseconds, receivedOr.
  destruct a as [a|], b as [b|];
    repeat match goal with
           | |- context [types.DurationFromProto ?p] => destruct (types.DurationFromProto p)
           end; intros [=]; auto.
Qed.

Lemma nanoseconds_DurationProto (z : Z) :
  nanoseconds (Some (types.DurationProto (int64 z))) = Some (int64 z).
Proof. cbn. now rewrite DurationFromProto_DurationProto by apply int64_range. Qed.

(** X1: in [plusDuration] a [nil] operand counts as the zero duration:
    added to a duration that [DurationFromProto] accepts it gives that
    duration back, field by field; added to one that is refused it gives
    the error of the refusal; and two [nil]s give the zero duration. *)
Theorem plusDuration_nil_neutral (d : Duration) :
  match types.DurationFromProto d with
  | inr _ => plusDuration None (Some d) = inr d ∧ plusDuration (Some d) None = inr d
  | inl e => plusDuration None (Some d) = inl (foreign e)
             ∧ plusDuration (Some d) None = inl (foreign e)
  end
  ∧ plusDuration None None = inr (mkDuration 0 0).
Proof.
  split; [| reflexivity].
  destruct (types.DurationFromProto d) as [e|n] eqn:Hd.
  - unfold plusDuration. rewrite Hd. split; reflexivity.
  - pose proof (DurationFromProto_accepts d n Hd) as (_ & Hn & _).
    pose proof (DurationProto_DurationFromProto d n Hd) as Hback.
    unfold plusDuration. rewrite Hd. cbn [receivedOr].
    rewrite Z.add_0_l, Z.add_0_r, (int64_small n Hn), Hback. split; reflexivity.
Qed.

(** X2: when [mergeStats] returns an error it has added no count and has
    left [FailedDatumID] and the byte counts alone, but it is not without
    effect: the duration of [x] whose sum failed is now [nil], and those
    before it already hold their sums. *)
Theorem mergeStats_error_is_partial (x y x' : DatumStats) (e : error) :
  mergeStats x y = Returned (x', Some e) →
  DatumsProcessed x' = DatumsProcessed x ∧ DatumsSkipped x' = DatumsSkipped x
  ∧ DatumsFailed x' = DatumsFailed x ∧ DatumsRecovered x' = DatumsRecovered x
  ∧ FailedDatumID x' = FailedDatumID x
  ∧ ∃ xps yps xps',
      ProcessStats_ x = Some xps ∧ ProcessStats_ y = Some yps ∧ ProcessStats_ x' = Some xps'
      ∧ DownloadBytes xps' = DownloadBytes xps ∧ UploadBytes xps' = UploadBytes xps
      ∧ ((plusDuration (DownloadTime xps) (DownloadTime yps) = inl e
          ∧ DownloadTime xps' = None
          ∧ ProcessTime xps' = ProcessTime xps ∧ UploadTime xps' = UploadTime xps)
         ∨ (plusDuration (ProcessTime xps) (ProcessTime yps) = inl e
            ∧ (∃ dt, plusDuration (DownloadTime xps) (DownloadTime yps) = inr dt
                     ∧ DownloadTime xps' = Some dt)
            ∧ ProcessTime xps' = None ∧ UploadTime xps' = UploadTime xps)
         ∨ (plusDuration (UploadTime xps) (UploadTime yps) = inl e
            ∧ (∃ dt, plusDuration (DownloadTime xps) (DownloadTime yps) = inr dt
                     ∧ DownloadTime xps' = Some dt)
            ∧ (∃ pt, plusDuration (ProcessTime xps) (ProcessTime yps) = inr pt
                     ∧ ProcessTime xps' = Some pt)
            ∧ UploadTime xps' = None)).
Proof.
  unfold mergeStats.
  destruct (ProcessStats_ y) as [yps|]; [| discriminate].
  destruct (ProcessStats_ x) as [xps|]; [| discriminate].
  destruct (plusDuration (DownloadTime xps) (DownloadTime yps)) as [e1|dt] eqn:Edt.
  { intros [= <- <-]. cbn. do 5 (split; [reflexivity |]). eexists _, _, _.
    do 5 (split; [reflexivity |]). left. cbn. auto. }
  destruct (plusDuration (ProcessTime xps) (ProcessTime yps)) as [e2|pt] eqn:Ept.
  { intros [= <- <-]. cbn. do 5 (split; [reflexivity |]). eexists _, _, _.
    do 5 (split; [reflexivity |]). right. left. cbn.
    split; [exact Ept |]. split; [eauto |]. auto. }
  destruct (plusDuration (UploadTime xps) (UploadTime yps)) as [e3|ut] eqn:Eut;
    [| discriminate].
  intros [= <- <-]. cbn. do 5 (split; [reflexivity |]). eexists _, _, _.
  do 5 (split; [reflexivity |]). right. right. cbn.
  split; [exact Eut |]. split; [eauto |]. split; [eauto | reflexivity].
Qed.

Lemma mergeStats_error_is_partial_witness :
  ∃ x' e,
    mergeStats statsAtStart oneProcessedBadDuration = Returned (x', Some e)
    ∧ DatumsProcessed x' = 0
    ∧ DatumsProcessed oneProcessedBadDuration = 1.
Proof.
  assert (Hrun : ∃ x' e,
    mergeStats statsAtStart oneProcessedBadDuration = Returned (x', Some e))
    by (eexists _, _; vm_compute; reflexivity).
  destruct Hrun as (x' & e & Hrun). exists x', e. split; [exact Hrun |].
  destruct (mergeStats_error_is_partial _ _ _ _ Hrun) as (Hp & _).
  split; [exact Hp | reflexivity].
Defined.

Lemma plusDuration_valid (a b : option Duration) (d : Duration) :
  plusDuration a b = inr d → nanoseconds (Some d) ≠ None.
Proof.
  intros H. apply plusDuration_inv in H as (na & nb & _ & _ & ->).
  now rewrite nanoseconds_DurationProto.
Qed.

Lemma nanoseconds_nil : nanoseconds None ≠ None.
Proof. discriminate. Qed.

(** X3: process stats that are set and whose durations are valid stay so
    through [mergeStats], whatever is merged into them and whether the
    call fails or not; the call then returns (it does not dereference
    [nil]), and when it fails the blame is on the stats that were merged
    in: one of their durations is refused by [DurationFromProto]. *)
Theorem mergeStats_keeps_valid (x y : DatumStats) (xps : ProcessStats) :
  ProcessStats_ x = Some xps →
  valid_durations xps →
  ∃ x' err xps',
    mergeStats x y = Returned (x', err)
    ∧ ProcessStats_ x' = Some xps'
    ∧ valid_durations xps'
    ∧ (err ≠ None → ∃ yps, ProcessStats_ y = Some yps ∧ ¬ valid_durations yps).
Proof.
  intros Hx (Hv1 & Hv2 & Hv3). unfold mergeStats. rewrite Hx.
  destruct (ProcessStats_ y) as [yps|].
  2:{ eexists _, _, xps. split; [reflexivity |]. cbn.
      split; [reflexivity |]. split; [repeat split; assumption | congruence]. }
  assert (Hblame : ∀ a b e, plusDuration a b = inl e → nanoseconds a ≠ None →
                             nanoseconds b = None).
  { intros a b e H Ha. apply plusDuration_inl in H as [H|H]; [congruence | exact H]. }
  destruct (plusDuration (DownloadTime xps) (DownloadTime yps)) as [e|dt] eqn:Edt.
  { eexists _, _, _. split; [reflexivity |]. cbn. split; [reflexivity |].
    split; [repeat split; cbn; auto using nanoseconds_nil |].
    intros _. exists yps. split; [reflexivity |]. intros (Hy & _).
    apply Hy. eapply Hblame; eassumption. }
  destruct (plusDuration (ProcessTime xps) (ProcessTime yps)) as [e|pt] eqn:Ept.
  { eexists _, _, _. split; [reflexivity |]. cbn. split; [reflexivity |].
    split; [repeat split; cbn [DownloadTime ProcessTime UploadTime];
            eauto using nanoseconds_nil, plusDuration_valid |].
    intros _. exists yps. split; [reflexivity |]. intros (_ & Hy & _).
    apply Hy. eapply Hblame; eassumption. }
  destruct (plusDuration (UploadTime xps) (UploadTime yps)) as [e|ut] eqn:Eut.
  { eexists _, _, _. split; [reflexivity |]. cbn. split; [reflexivity |].
    split; [repeat split; cbn [DownloadTime ProcessTime UploadTime];
            eauto using nanoseconds_nil, plusDuration_valid |].
    intros _. exists yps. split; [reflexivity |]. intros (_ & _ & Hy).
    apply Hy. eapply Hblame; eassumption. }
  eexists _, _, _. split; [reflexivity |]. cbn. split; [reflexivity |].
  split; [repeat split; cbn [DownloadTime ProcessTime UploadTime];
          eauto using plusDuration_valid | congruence].
Qed.

Lemma mergeStats_keeps_valid_witness :
  ∃ x' xps',
    mergeStats statsAtStart threeFailed = Returned (x', None)
    ∧ ProcessStats_ x' = Some xps'
    ∧ valid_durations xps'.
Proof.
  destruct (mergeStats_keeps_valid statsAtStart threeFailed emptyProcessStats)
    as (x' & err & xps' & Hrun & Hps & Hvalid & _);
    [reflexivity | repeat split; discriminate |].
  assert (Hnone : ∃ x0, mergeStats statsAtStart threeFailed = Returned (x0, None))
    by (eexists; vm_compute; reflexivity).
  destruct Hnone as [x0 Hnone]. rewrite Hnone in Hrun. injection Hrun as -> <-.
  exists x', xps'. auto.
Defined.

Lemma int64_add_swap (x a b : Z) : int64 (int64 (x + a) + b) = int64 (int64 (x + b) + a).
Proof. rewrite !int64_add_l. f_equal. lia. Qed.

Lemma uint64_add_swap (x a b : Z) : uint64 (uint64 (x + a) + b) = uint64 (uint64 (x + b) + a).
Proof. rewrite !uint64_add_l. f_equal. lia. Qed.

(** Adding [a] then [b] to a duration is adding [b] then [a]. *)
Lemma plusDuration_swap (x a b : option Duration) (xa xab : Duration) :
  plusDuration x a = inr xa → plusDuration (Some xa) b = inr xab →
  ∃ xb, plusDuration x b = inr xb ∧ plusDuration (Some xb) a = inr xab.
Proof.
  intros H1 H2.
  apply plusDuration_inv in H1 as (nx & na & Hx & Ha & ->).
  apply plusDuration_inv in H2 as (m & nb & Hm & Hb & ->).
  rewrite nanoseconds_DurationProto in Hm. injection Hm as <-.
  exists (types.DurationProto (int64 (nx + nb))).
  split; [apply (plusDuration_sum x b nx nb Hx Hb) |].
  rewrite (int64_add_swap nx na nb).
  apply (plusDuration_sum _ a _ na (nanoseconds_DurationProto _) Ha).
Qed.

(** Which id is kept when two are merged into stats that have none. *)
Lemma first_id (x a b : string) :
  x = "" → a ≠ "" → b ≠ "" →
  (if decide ((if decide (x = "") then a else x) = "") then b
   else (if decide (x = "") then a else x)) = a.
Proof.
  intros Hx Ha Hb. rewrite !(decide_True (P := x = "")) by exact Hx.
  now rewrite (decide_False (P := a = "")) by exact Ha.
Qed.

(** X4: the totals do not depend on the order in which sub-stats are
    merged: when [a] and then [b] can be merged into [x], so can [b] and
    then [a], with the same process stats and the same four counts; only
    [FailedDatumID] tells the orders apart, being the id of the first of
    the two that has one when [x] has none. *)
Theorem mergeStats_order (x a b xa xab : DatumStats) :
  mergeStats x a = Returned (xa, None) →
  mergeStats xa b = Returned (xab, None) →
  ∃ xb xba,
    mergeStats x b = Returned (xb, None)
    ∧ mergeStats xb a = Returned (xba, None)
    ∧ sameTotals xab xba
    ∧ (FailedDatumID x = "" → FailedDatumID a ≠ "" → FailedDatumID b ≠ "" →
       FailedDatumID xab = FailedDatumID a ∧ FailedDatumID xba = FailedDatumID b).
Proof.
  intros H1 H2. unfold mergeStats in H1, H2 |- *. unfold sameTotals.
  destruct (ProcessStats_ a) as [aps|] eqn:Ea; destruct (ProcessStats_ b) as [bps|] eqn:Eb.
  - (* both bring process stats *)
    destruct (ProcessStats_ x) as [xps|]; [| discriminate].
    destruct (plusDuration (DownloadTime xps) (DownloadTime aps)) as [?|dt] eqn:Edt;
      [discriminate |].
    destruct (plusDuration (ProcessTime xps) (ProcessTime aps)) as [?|pt] eqn:Ept;
      [discriminate |].
    destruct (plusDuration (UploadTime xps) (UploadTime aps)) as [?|ut] eqn:Eut;
      [discriminate |].
    injection H1 as <-.
    cbn [ProcessStats_ DownloadTime ProcessTime UploadTime DownloadBytes UploadBytes
         DatumsProcessed DatumsSkipped DatumsFailed DatumsRecovered] in H2.
    destruct (plusDuration (Some dt) (DownloadTime bps)) as [?|dt2] eqn:Edt2; [discriminate |].
    destruct (plusDuration (Some pt) (ProcessTime bps)) as [?|pt2] eqn:Ept2; [discriminate |].
    destruct (plusDuration (Some ut) (UploadTime bps)) as [?|ut2] eqn:Eut2; [discriminate |].
    injection H2 as <-.
    destruct (plusDuration_swap _ _ _ _ _ Edt Edt2) as (dtb & Hd1 & Hd2).
    destruct (plusDuration_swap _ _ _ _ _ Ept Ept2) as (ptb & Hp1 & Hp2).
    destruct (plusDuration_swap _ _ _ _ _ Eut Eut2) as (utb & Hu1 & Hu2).
    rewrite Hd1, Hp1, Hu1. eexists _, _. split; [reflexivity |].
    cbn [ProcessStats_ DownloadTime ProcessTime UploadTime DownloadBytes UploadBytes
         DatumsProcessed DatumsSkipped DatumsFailed DatumsRecovered].
    rewrite Hd2, Hp2, Hu2. split; [reflexivity |]. split; [| intros Hx Ha Hb; cbn [FailedDatumID]; split; apply first_id; assumption].
    cbn [ProcessStats_ DatumsProcessed DatumsSkipped DatumsFailed DatumsRecovered].
    rewrite (uint64_add_swap (DownloadBytes xps)), (uint64_add_swap (UploadBytes xps)).
    repeat split; apply int64_add_swap.
  - (* only [a] does *)
    destruct (ProcessStats_ x) as [xps|]; [| discriminate].
    destruct (plusDuration (DownloadTime xps) (DownloadTime aps)) as [?|dt] eqn:Edt;
      [discriminate |].
    destruct (plusDuration (ProcessTime xps) (ProcessTime aps)) as [?|pt] eqn:Ept;
      [discriminate |].
    destruct (plusDuration (UploadTime xps) (UploadTime aps)) as [?|ut] eqn:Eut;
      [discriminate |].
    injection H1 as <-. injection H2 as <-.
    eexists _, _. split; [reflexivity |].
    cbn [ProcessStats_ DatumsProcessed DatumsSkipped DatumsFailed DatumsRecovered].
    rewrite Edt, Ept, Eut. split; [reflexivity |]. split; [| intros Hx Ha Hb; cbn [FailedDatumID]; split; apply first_id; assumption].
    cbn [ProcessStats_ DatumsProcessed DatumsSkipped DatumsFailed DatumsRecovered].
    repeat split; apply int64_add_swap.
  - (* only [b] does *)
    injection H1 as <-.
    cbn [ProcessStats_ DatumsProcessed DatumsSkipped DatumsFailed DatumsRecovered] in H2.
    destruct (ProcessStats_ x) as [xps|]; [| discriminate].
    destruct (plusDuration (DownloadTime xps) (DownloadTime bps)) as [?|dt] eqn:Edt;
      [discriminate |].
    destruct (plusDuration (ProcessTime xps) (ProcessTime bps)) as [?|pt] eqn:Ept;
      [discriminate |].
    destruct (plusDuration (UploadTime xps) (UploadTime bps)) as [?|ut] eqn:Eut;
      [discriminate |].
    injection H2 as <-.
    eexists _, _. split; [reflexivity |].
    cbn [ProcessStats_ DatumsProcessed DatumsSkipped DatumsFailed DatumsRecovered].
    split; [reflexivity |]. split; [| intros Hx Ha Hb; cbn [FailedDatumID]; split; apply first_id; assumption].
    cbn [ProcessStats_ DatumsProcessed DatumsSkipped DatumsFailed DatumsRecovered].
    repeat split; apply int64_add_swap.
  - (* neither does *)
    injection H1 as <-. injection H2 as <-.
    eexists _, _. split; [reflexivity |].
    cbn [ProcessStats_ DatumsProcessed DatumsSkipped DatumsFailed DatumsRecovered].
    split; [reflexivity |]. split; [| intros Hx Ha Hb; cbn [FailedDatumID]; split; apply first_id; assumption].
    cbn [ProcessStats_ DatumsProcessed DatumsSkipped DatumsFailed DatumsRecovered].
    repeat split; apply int64_add_swap.
Qed.

Lemma mergeStats_order_witness :
  ∃ xa xab xb xba,
    mergeStats statsAtStart twoSeconds = Returned (xa, None)
    ∧ mergeStats xa threeFailed = Returned (xab, None)
    ∧ mergeStats statsAtStart threeFailed = Returned (xb, None)
    ∧ mergeStats xb twoSeconds = Returned (xba, None)
    ∧ sameTotals xab xba
    ∧ FailedDatumID xab = "d1" ∧ FailedDatumID xba = "d7".
Proof.
  assert (Hruns : ∃ xa xab,
    mergeStats statsAtStart twoSeconds = Returned (xa, None)
    ∧ mergeStats xa threeFailed = Returned (xab, None))
    by (eexists _, _; split; [vm_compute; reflexivity | vm_compute; reflexivity]).
  destruct Hruns as (xa & xab & H1 & H2).
  destruct (mergeStats_order _ _ _ _ _ H1 H2) as (xb & xba & H3 & H4 & Hsame & Hids).
  exists xa, xab, xb, xba. do 5 (split; [assumption |]).
  apply Hids; [reflexivity | discriminate | discriminate].
Defined.

(** ** The outcome of a datum *)

Lemma classify_outcome (tag datumID : string) (err : option error) (st : DatumStats) :
  uncounted st →
  outcomeOf tag datumID (classify tag datumID err st).1 (classify tag datumID err st).2
  ∧ DatumsSkipped (classify tag datumID err st).1 = 0.
Proof.
  intros (Hp & Hs & Hf & Hr & Hid). unfold classify, outcomeOf, uncounted.
  destruct err as [e|]; [destruct (is_errDatumRecovered e) |]; cbn;
    rewrite Hp, Hs, Hf, Hr, ?Hid; (split; [| reflexivity]).
  - do 4 right. repeat split.
  - do 3 right. left. repeat split.
  - right. left. repeat split.
Qed.

(** The cache probe stores no object and runs no program; it counts the
    datum as skipped or not at all, and with an error not at all. *)
Lemma cacheProbe_outcome (driver : Driver) (tag : string) (w : World)
    (st : DatumStats) (recovered : list string) (err : option error) (w' : World) :
  cacheProbe driver tag w = ((st, recovered, err), w') →
  trace w' = trace w
  ∧ chunkCaches w' = chunkCaches w ∧ chunkStatsCaches w' = chunkStatsCaches w
  ∧ recovered = []
  ∧ DatumsProcessed st = 0 ∧ DatumsFailed st = 0 ∧ DatumsRecovered st = 0
  ∧ FailedDatumID st = ""
  ∧ (DatumsSkipped st = 0 ∨ DatumsSkipped st = 1 ∧ err = None).
Proof.
  unfold cacheProbe, newUUID, MergeCache_Put, skipped. intros Hrun.
  repeat case_match; simplify_eq; cbn; auto 20.
Qed.

(** [processDatum] on a cache miss: an error of the index object, with
    stats enabled, or the loop followed by [afterLoop]. *)
Lemma processDatum_miss fuel (driver : Driver) jobID index inputs commit (w w' : World)
    (r : DatumStats * list string * option error) :
  InspectTag driver (HashDatum driver (PipelineName (Info driver)) (Salt (Info driver)) inputs)
  ≠ None →
  processDatum fuel driver jobID index inputs commit w = Returned (r, w') →
  (EnableStats (Info driver) = true
   ∧ ∃ e, r = (emptyDatumStats, [], Some e)
          ∧ (putObjectFile driver "index" (Sprint index) w).2 = w')
  ∨ ∃ l0 err l1,
      entersLoop driver jobID index inputs w l0
      ∧ retryLoop fuel driver inputs
          (HashDatum driver (PipelineName (Info driver)) (Salt (Info driver)) inputs)
          (DatumID driver inputs) l0 = Returned (err, l1)
      ∧ afterLoop driver inputs
          (HashDatum driver (PipelineName (Info driver)) (Salt (Info driver)) inputs)
          (DatumID driver inputs) err l1 = Returned (r, w').
Proof.
  intros Hmiss Hrun. unfold processDatum in Hrun. unfold entersLoop.
  destruct (InspectTag driver _); [| congruence].
  destruct (EnableStats (Info driver)).
  - destruct (putObjectFile _ _ _ _) as [[e1|[e2|file]] w1] eqn:Eput.
    + injection Hrun as <- <-. left. split; [reflexivity |]. now exists e1.
    + injection Hrun as <- <-. left. split; [reflexivity |]. now exists e2.
    + right.
      destruct (retryLoop _ _ _ _ _ _) as [[err l1]| |] eqn:Eloop; try discriminate.
      eexists _, err, l1. split; [eauto |]. split; [exact Eloop | exact Hrun].
  - right.
    destruct (retryLoop _ _ _ _ _ _) as [[err l1]| |] eqn:Eloop; try discriminate.
    eexists _, err, l1. split; [reflexivity |]. split; [exact Eloop | exact Hrun].
Qed.

Lemma afterLoop_outcome (driver : Driver) inputs tag datumID err (l1 : Locals) r w' :
  afterLoop driver inputs tag datumID err l1 = Returned (r, w') →
  uncounted (stats l1) →
  r.1 = classify tag datumID err (stats l1)
  ∧ (EnableStats (Info driver) = false → r.2 = None ∧ w' = world l1).
Proof.
  unfold afterLoop. intros Hafter Hl1.
  destruct (classify _ _ _ _) as [stats1 recovered].
  destruct (EnableStats (Info driver)); [| now injection Hafter as <- <-].
  destruct (inputTree l1), (outputTree l1), (statsTree l1); try discriminate.
  destruct (writeStats _ _ _ _ _ _ _ _). injection Hafter as <- <-. split; [reflexivity |].
  discriminate.
Qed.

Lemma processDatum_outcomeOf fuel (driver : Driver) jobID index inputs commit (w w' : World)
    (st : DatumStats) (recovered : list string) (err : option error) :
  processDatum fuel driver jobID index inputs commit w = Returned ((st, recovered, err), w') →
  outcomeOf (HashDatum driver (PipelineName (Info driver)) (Salt (Info driver)) inputs)
            (DatumID driver inputs) st recovered.
Proof.
  intros Hrun.
  destruct (InspectTag driver
              (HashDatum driver (PipelineName (Info driver)) (Salt (Info driver)) inputs))
    as [miss|] eqn:Einspect.
  - apply processDatum_miss in Hrun; [| congruence].
    destruct Hrun as [(_ & e & [= -> -> ->] & _) | (l0 & lerr & l1 & Henter & Hloop & Hafter)].
    + left. repeat split.
    + destruct (entersLoop_keeps _ _ _ _ _ _ Henter) as [Hkeep0 _].
      pose proof (retryLoop_keeps _ _ _ _ _ _ _ _ Hloop Hkeep0) as [Hcount _].
      apply afterLoop_outcome in Hafter as [Hr _]; [| exact Hcount]. cbn in Hr.
      pose proof (classify_outcome
                    (HashDatum driver (PipelineName (Info driver)) (Salt (Info driver)) inputs)
                    (DatumID driver inputs) lerr (stats l1) Hcount) as [Hc _].
      now rewrite <- Hr in Hc.
  - unfold processDatum in Hrun. rewrite Einspect in Hrun. injection Hrun as Hrun.
    apply cacheProbe_outcome in Hrun as (_ & _ & _ & -> & Hp & Hf & Hr & Hid & [Hs|[Hs _]]).
    + left. repeat split; assumption.
    + right. right. left. repeat split; assumption.
Qed.

(** X5: when the tag of a datum is in the object store, [processDatum]
    returns without running the loop, whatever the fuel: it runs no
    program, stores no object and leaves the chunk caches alone; it never
    counts the datum as processed, failed or recovered; and when it counts
    it as skipped it returns no error, the tree fetched under the tag
    being in the datum cache under a fresh key. *)
Theorem processDatum_cache_hit (fuel : nat) (driver : Driver) (jobID : string)
    (index : Z) (inputs : list Input) (commit : string) (w : World) :
  let tag := HashDatum driver (PipelineName (Info driver)) (Salt (Info driver)) inputs in
  InspectTag driver tag = None →
  ∃ st err w',
    processDatum fuel driver jobID index inputs commit w = Returned ((st, [], err), w')
    ∧ trace w' = trace w
    ∧ chunkCaches w' = chunkCaches w ∧ chunkStatsCaches w' = chunkStatsCaches w
    ∧ DatumsProcessed st = 0 ∧ DatumsFailed st = 0 ∧ DatumsRecovered st = 0
    ∧ (DatumsSkipped st = 0 ∨ DatumsSkipped st = 1)
    ∧ (DatumsSkipped st = 1 →
       err = None
       ∧ ∃ buf, GetTag driver tag = inr buf
                ∧ datumCache w' = <[NewWithoutDashes driver (uuids w) := buf]> (datumCache w))
    ∧ (∀ e, GetTag driver tag = inl e → err = Some e ∧ w' = w).
Proof.
  intros tag Hhit. unfold processDatum. fold tag. rewrite Hhit.
  destruct (cacheProbe driver tag w) as [[[st recovered] err] w'] eqn:Eprobe.
  pose proof (cacheProbe_outcome _ _ _ _ _ _ _ Eprobe)
    as (Htr & Hcc & Hcs & -> & Hp & Hf & Hr & _ & Hs).
  exists st, err, w'. repeat split; try assumption.
  - destruct Hs as [Hs|[Hs _]]; auto.
  - unfold cacheProbe, newUUID, MergeCache_Put, skipped in Eprobe.
    repeat case_match; simplify_eq; cbn in *; try discriminate; reflexivity.
  - unfold cacheProbe, newUUID, MergeCache_Put, skipped in Eprobe.
    repeat case_match; simplify_eq; cbn in *; try discriminate; eauto.
  - unfold cacheProbe in Eprobe. rewrite H in Eprobe. now injection Eprobe as <- <- <-.
  - unfold cacheProbe in Eprobe. rewrite H in Eprobe. now injection Eprobe as <- <- <-.
Qed.

Lemma processDatum_cache_hit_witness :
  let tag := HashDatum cachedDriver (PipelineName (Info cachedDriver))
               (Salt (Info cachedDriver)) [exampleInput] in
  InspectTag cachedDriver tag = None
  ∧ ∃ st err w',
      processDatum 0 cachedDriver "j" 0 [exampleInput] "commit-out" emptyWorld
      = Returned ((st, [], err), w')
      ∧ trace w' = [] ∧ DatumsSkipped st = 1 ∧ err = None.
Proof.
  intros tag. assert (Hhit : InspectTag cachedDriver tag = None) by reflexivity.
  split; [exact Hhit |].
  destruct (processDatum_cache_hit 0 cachedDriver "j" 0 [exampleInput] "commit-out"
              emptyWorld Hhit)
    as (st & err & w' & Hrun & Htr & _ & _ & _ & _ & _ & _ & Hs & _).
  exists st, err, w'. split; [exact Hrun |]. split; [exact Htr |].
  assert (Hsk : DatumsSkipped st = 1).
  { vm_compute in Hrun. now injection Hrun as <- _ _. }
  split; [exact Hsk |]. now destruct (Hs Hsk).
Defined.

(** X6: whatever [processDatum] returns, with an error or without, it has
    counted the datum in at most one of the four counts, and by one; the
    id of the datum is recorded as failed exactly when it was counted as
    failed, its tag is the one recovered tag exactly when it was counted
    as recovered, and a datum that missed the cache is never counted as
    skipped. *)
Theorem processDatum_counts_once (fuel : nat) (driver : Driver) (jobID : string)
    (index : Z) (inputs : list Input) (commit : string) (w w' : World)
    (st : DatumStats) (recovered : list string) (err : option error) :
  let tag := HashDatum driver (PipelineName (Info driver)) (Salt (Info driver)) inputs in
  processDatum fuel driver jobID index inputs commit w = Returned ((st, recovered, err), w') →
  (datumCount st = 0 ∨ datumCount st = 1)
  ∧ countsNonNegative st
  ∧ FailedDatumID st = (if DatumsFailed st =? 1 then DatumID driver inputs else "")
  ∧ recovered = (if DatumsRecovered st =? 1 then [tag] else [])
  ∧ (InspectTag driver tag ≠ None → DatumsSkipped st = 0).
Proof.
  intros tag Hrun.
  pose proof (processDatum_outcomeOf _ _ _ _ _ _ _ _ _ _ _ Hrun) as Hout. fold tag in Hout.
  assert (Hmiss : InspectTag driver tag ≠ None → DatumsSkipped st = 0).
  { intros Hmiss. apply processDatum_miss in Hrun; [| exact Hmiss].
    destruct Hrun as [(_ & e & [= -> -> ->] & _) | (l0 & lerr & l1 & Henter & Hloop & Hafter)];
      [reflexivity |].
    destruct (entersLoop_keeps _ _ _ _ _ _ Henter) as [Hkeep0 _].
    pose proof (retryLoop_keeps _ _ _ _ _ _ _ _ Hloop Hkeep0) as [Hcount _].
    apply afterLoop_outcome in Hafter as [Hr _]; [| exact Hcount]. cbn in Hr.
    pose proof (classify_outcome tag (DatumID driver inputs) lerr (stats l1) Hcount)
      as [_ Hc].
    fold tag in Hr. now rewrite <- Hr in Hc. }
  unfold datumCount, countsNonNegative.
  destruct Hout as [[(Hp & Hs & Hf & Hr & Hid) ->]
                   | [(Hp & Hs & Hf & Hr & Hid & ->)
                   | [(Hp & Hs & Hf & Hr & Hid & ->)
                   | [(Hp & Hs & Hf & Hr & Hid & ->)
                   | (Hp & Hs & Hf & Hr & Hid & ->)]]]];
    rewrite Hp, Hs, Hf, Hr, Hid; cbn; repeat split; auto; try lia;
    intros Hm; specialize (Hmiss Hm); lia.
Qed.

Lemma processDatum_counts_once_witness :
  ∃ st recovered err w',
    processDatum 3 failingDriver "j" 0 [exampleInput] "commit-out" emptyWorld
    = Returned ((st, recovered, err), w')
    ∧ (datumCount st = 0 ∨ datumCount st = 1)
    ∧ countsNonNegative st
    ∧ FailedDatumID st = (if DatumsFailed st =? 1 then "id-hash-in" else "")
    ∧ recovered = (if DatumsRecovered st =? 1 then ["hash-in"] else [])
    ∧ (InspectTag failingDriver "hash-in" ≠ None → DatumsSkipped st = 0).
Proof.
  assert (Hrun : ∃ r, processDatum 3 failingDriver "j" 0 [exampleInput] "commit-out" emptyWorld
                      = Returned r) by (eexists; vm_compute; reflexivity).
  destruct Hrun as [[[[st recovered] err] w'] Hrun].
  exists st, recovered, err, w'. split; [exact Hrun |].
  exact (processDatum_counts_once _ _ _ _ _ _ _ _ _ _ _ Hrun).
Defined.

(** ** A pipeline that writes through the gateway uploads no output *)

Section S3Out.

Variable driver : Driver.
Hypothesis s3Out : S3Out (Info driver) = true.

Variable cache0 : gmap string bytes.
Variable evs : list Event.

Let untouched (w : World) : Prop := datumCache w = cache0 ∧ noUploadSince evs w.

Lemma putObjectFile_untouched (name : string) (content : bytes) (w : World) :
  untouched w → untouched (putObjectFile driver name content w).2.
Proof.
  intros [Hc Hup]. unfold putObjectFile.
  repeat case_match; cbn; (split; [exact Hc |]);
    intros i t Hin; cbn in Hin; in_events; auto.
Qed.

Lemma operation_untouched inputs tag (l l' : Locals) e :
  operation driver inputs tag l = (e, l') → untouched (world l) → untouched (world l').
Proof.
  intros Hop Hl.
  unfold operation, WithData, WithActiveData, withDatum, runUserCode in Hop.
  rewrite s3Out in Hop.
  repeat case_match; simplify_eq; destruct Hl as [Hc Hup]; cbn; (split; [exact Hc |]);
    intros i t Hin; cbn in Hin; in_events; auto.
Qed.

Lemma notify_untouched datumID err (l l' : Locals) e :
  notify driver datumID err l = (e, l') → untouched (world l) → untouched (world l').
Proof.
  intros Hn Hl. unfold notify in Hn.
  pose proof (putObjectFile_untouched "failure" (Error err) (world l) Hl) as Hput.
  repeat case_match; simplify_eq; cbn in *; assumption.
Qed.

Lemma writeStats_untouched inputs ps it ot st tag (w : World) :
  untouched w → untouched (writeStats driver inputs ps it ot st tag w).2.
Proof.
  intros Hw. unfold writeStats.
  pose proof (putObjectFile_untouched "stats" (match MarshalToString driver ps with
                                               | inr s => s | inl _ => "" end) w Hw) as Hput.
  destruct (MarshalToString driver ps) as [e|statsString]; [exact Hw |].
  destruct (putObjectFile driver "stats" statsString w) as [[e1|[e2|file]] w1];
    cbn [snd] in *; try exact Hput.
  destruct Hput as [Hc Hup]. unfold commitObject, MergeCache_Put.
  repeat case_match; cbn; (split; [exact Hc |]);
    intros i t Hin; cbn in Hin; in_events; auto.
Qed.

Lemma processDatum_untouched fuel jobID index inputs commit (w w' : World) r :
  InspectTag driver (HashDatum driver (PipelineName (Info driver)) (Salt (Info driver)) inputs)
  ≠ None →
  processDatum fuel driver jobID index inputs commit w = Returned (r, w') →
  untouched w → untouched w'.
Proof.
  intros Hmiss Hrun Hw. apply processDatum_miss in Hrun; [| exact Hmiss].
  destruct Hrun as [(_ & e & _ & <-) | (l0 & lerr & l1 & Henter & Hloop & Hafter)];
    [now apply putObjectFile_untouched |].
  assert (Hl0 : untouched (world l0)).
  { unfold entersLoop in Henter. destruct (EnableStats (Info driver)).
    - destruct Henter as (file & w1 & Hput & ->). cbn.
      pose proof (putObjectFile_untouched "index" (Sprint index) w Hw) as H1.
      now rewrite Hput in H1.
    - now subst l0. }
  assert (Hl1 : untouched (world l1)).
  { apply (RetryUntilCancel_invariant (λ l, untouched (world l)) _ _ _ _ _ _ _
             (λ s0 e s1 Hs0 Hop, operation_untouched inputs _ s0 s1 e Hop Hs0)
             (λ err0 s0 e s1 Hs0 Hnt, notify_untouched _ err0 s0 s1 e Hnt Hs0)
             Hl0 Hloop). }
  unfold afterLoop in Hafter. destruct (classify _ _ _ _) as [stats1 recovered].
  destruct (EnableStats (Info driver)); [| now injection Hafter as <- <-].
  destruct (inputTree l1) as [it|], (outputTree l1) as [ot|], (statsTree l1) as [st|];
    try discriminate.
  pose proof (writeStats_untouched inputs (ProcessStats_ stats1) it ot st
                (HashDatum driver (PipelineName (Info driver)) (Salt (Info driver)) inputs)
                (world l1) Hl1) as Hws.
  destruct (writeStats _ _ _ _ _ _ _ _). now injection Hafter as <- <-.
Qed.

End S3Out.

(** X7: in a pipeline with [S3Out], a datum that misses the cache is run
    without [UploadOutput] ever being called and without anything being
    put into the datum cache, however the run ends. *)
Theorem processDatum_s3_out (fuel : nat) (driver : Driver) (jobID : string)
    (index : Z) (inputs : list Input) (commit : string) (w w' : World)
    (r : DatumStats * list string * option error) :
  S3Out (Info driver) = true →
  InspectTag driver (HashDatum driver (PipelineName (Info driver)) (Salt (Info driver)) inputs)
  ≠ None →
  processDatum fuel driver jobID index inputs commit w = Returned (r, w') →
  datumCache w' = datumCache w
  ∧ ∀ i t, EvUploadOutput i t ∈ trace w' → EvUploadOutput i t ∈ trace w.
Proof.
  intros Hs3 Hmiss Hrun.
  apply (processDatum_untouched driver Hs3 (datumCache w) (trace w) fuel jobID index inputs
           commit w w' r Hmiss Hrun).
  split; [reflexivity | intros i t Hin; exact Hin].
Qed.

Lemma processDatum_s3_out_witness :
  ∃ r w',
    processDatum 3 s3OutDriver "j" 0 [exampleInput] "commit-out" emptyWorld
    = Returned (r, w')
    ∧ datumCache w' = ∅
    ∧ ∀ i t, EvUploadOutput i t ∈ trace w' → EvUploadOutput i t ∈ [].
Proof.
  assert (Hrun : ∃ r, processDatum 3 s3OutDriver "j" 0 [exampleInput] "commit-out" emptyWorld
                      = Returned r) by (eexists; vm_compute; reflexivity).
  destruct Hrun as [[r w'] Hrun]. exists r, w'. split; [exact Hrun |].
  apply (processDatum_s3_out 3 s3OutDriver "j" 0 [exampleInput] "commit-out" emptyWorld w' r);
    [reflexivity | discriminate | exact Hrun].
Defined.

(** ** The loop ends *)

(** Gives the new events of a step that ran no program. *)
Local Ltac quiet_step new :=
  exists new; split; [reflexivity |]; split; [reflexivity |]; in_events.

Lemma notify_failures (driver : Driver) datumID (err : error) (l l' : Locals) e :
  notify driver datumID err l = (e, l') →
  failures l' = int64 (failures l + 1)
  ∧ (DatumTries (Info driver) <= int64 (failures l + 1) → is_Some e)
  ∧ ∃ new, trace (world l') = (new ++ trace (world l))%list
           ∧ userCodeRuns new = 0%nat
           ∧ ∀ i n, EvRunUserErrorHandlingCode i n ∉ new.
Proof.
  unfold notify, putObjectFile. intros Hn.
  destruct (Z.leb_spec (DatumTries (Info driver)) (int64 (failures l + 1))) as [Hlast|Hmore].
  - repeat case_match; simplify_eq; cbn; (split; [reflexivity |]); (split; [eauto |]);
      first [quiet_step (@nil Event) | quiet_step [EvPutObject (Error err) []]].
  - repeat case_match; simplify_eq; cbn; (split; [reflexivity |]); (split; [lia |]);
      quiet_step (@nil Event).
Qed.

(** The retry loop returns once its fuel covers [DatumTries]. *)
Lemma retryLoop_returns (driver : Driver) inputs tag datumID (fuel : nat) :
  ∀ l : Locals,
    DatumTries (Info driver) < 2 ^ 63 →
    0 <= failures l < 2 ^ 63 - 1 →
    (1 <= fuel)%nat →
    DatumTries (Info driver) - failures l <= Z.of_nat fuel →
    ∃ err l1, retryLoop fuel driver inputs tag datumID l = Returned (err, l1).
Proof.
  unfold retryLoop.
  induction fuel as [|fuel IH]; intros l Hmax Hf Hone Hfuel; [lia |].
  cbn [RetryUntilCancel].
  destruct (operation driver inputs tag l) as [[err|] l1] eqn:Eop; [| eauto].
  apply operation_spec in Eop as (Hf1 & _).
  destruct (notify driver datumID err l1) as [[err'|] l2] eqn:Ent; [eauto |].
  apply notify_failures in Ent as (Hf2 & Hstop & _).
  rewrite Hf1 in Hf2, Hstop. rewrite int64_small in Hf2, Hstop by lia.
  destruct (ContextErr driver inputs (failures l2)); [eauto |].
  assert (Hmore : failures l + 1 < DatumTries (Info driver)).
  { destruct (Z.le_gt_cases (DatumTries (Info driver)) (failures l + 1)) as [Hle|Hgt];
      [| lia].
    destruct (Hstop Hle) as [? [=]]. }
  apply IH; lia.
Qed.

Lemma int64_pred_nonzero (z : Z) : - 2 ^ 63 <= z <= 0 → int64 (z - 1) ≠ 0.
Proof.
  intros Hz. destruct (Z.eq_dec z (- 2 ^ 63)) as [->|Hne]; [now vm_compute |].
  rewrite int64_small by lia. lia.
Qed.

(** X8: with [DatumTries] zero or negative the datum is still tried, once:
    the loop returns after one call of the operation, user code having
    run at most once; a failure ends the loop at its first notification,
    with one failure counted; and the error handler never runs, configured
    or not. *)
Theorem retryLoop_without_tries (driver : Driver) (inputs : list Input)
    (tag datumID : string) (fuel : nat) (l0 : Locals) :
  failures l0 = 0 →
  - 2 ^ 63 <= DatumTries (Info driver) <= 0 →
  (1 <= fuel)%nat →
  ∃ err l1 new,
    retryLoop fuel driver inputs tag datumID l0 = Returned (err, l1)
    ∧ trace (world l1) = (new ++ trace (world l0))%list
    ∧ (userCodeRuns new <= 1)%nat
    ∧ (∀ i n, EvRunUserErrorHandlingCode i n ∉ new)
    ∧ failures l1 = match err with Some _ => 1 | None => 0 end
    ∧ (err = None ↔ (operation driver inputs tag l0).1 = None).
Proof.
  intros Hzero Htries Hfuel. destruct fuel as [|fuel]; [lia |].
  unfold retryLoop. cbn [RetryUntilCancel].
  destruct (operation driver inputs tag l0) as [[err|] l1] eqn:Eop;
    pose proof (operation_spec driver inputs tag l0 l1 _ Eop)
      as (Hf1 & _ & new1 & Htr1 & Hruns1 & _ & Hh1);
    assert (Hnone : ∀ i n, EvRunUserErrorHandlingCode i n ∉ new1)
      by (intros i n Hin; destruct (Hh1 i n Hin) as (_ & Hn & Hlast & _);
          rewrite Hn, Hzero in Hlast; symmetry in Hlast;
          now apply int64_pred_nonzero in Hlast).
  - destruct (notify driver datumID err l1) as [e2 l2] eqn:Ent.
    apply notify_failures in Ent as (Hf2 & Hstop & new2 & Htr2 & Hruns2 & Hh2).
    rewrite Hf1, Hzero in Hf2, Hstop. change (int64 (0 + 1)) with 1 in Hf2, Hstop.
    destruct Hstop as [e ->]; [lia |].
    exists (Some e), l2, (new2 ++ new1)%list. split; [reflexivity |].
    split; [rewrite Htr2, Htr1; now rewrite app_assoc |].
    split; [rewrite userCodeRuns_app; lia |].
    split; [intros i n Hin; apply elem_of_app in Hin as [Hin|Hin];
            [exact (Hh2 i n Hin) | exact (Hnone i n Hin)] |].
    split; [exact Hf2 |]. cbn. split; discriminate.
  - exists None, l1, new1. split; [reflexivity |]. split; [exact Htr1 |].
    split; [exact Hruns1 |]. split; [exact Hnone |]. split; [congruence |]. cbn. tauto.
Qed.

Lemma retryLoop_without_tries_witness :
  let l0 := initialLocals "id-hash-in" None emptyWorld in
  ∃ err l1 new,
    retryLoop 1 noTriesDriver [exampleInput] "hash-in" "id-hash-in" l0 = Returned (err, l1)
    ∧ trace (world l1) = (new ++ trace (world l0))%list
    ∧ (userCodeRuns new <= 1)%nat
    ∧ (∀ i n, EvRunUserErrorHandlingCode i n ∉ new)
    ∧ failures l1 = match err with Some _ => 1 | None => 0 end
    ∧ (err = None ↔ (operation noTriesDriver [exampleInput] "hash-in" l0).1 = None).
Proof.
  intros l0.
  apply (retryLoop_without_tries noTriesDriver [exampleInput] "hash-in" "id-hash-in" 1 l0);
    [reflexivity | vm_compute; split; discriminate | lia].
Defined.

(** ** The datum handler returns *)

Lemma retryLoop_statsTree fuel (driver : Driver) inputs tag datumID (l l1 : Locals) err :
  retryLoop fuel driver inputs tag datumID l = Returned (err, l1) →
  is_Some (statsTree l) → is_Some (statsTree l1).
Proof.
  intros Hloop Hl.
  eapply (RetryUntilCancel_invariant (λ l0, is_Some (statsTree l0)));
    [| | exact Hl | exact Hloop].
  - intros s0 e s1 Hs0 Hop. apply operation_spec in Hop as (_ & Hst & _). now rewrite Hst.
  - intros err0 s0 e s1 Hs0 Hnt. unfold notify, putObjectFile in Hnt.
    repeat case_match; simplify_eq; cbn; eauto.
Qed.

(** With fuel for [DatumTries] attempts, and for one, [processDatum]
    returns: its loop ends and the deferred [writeStats] finds its trees. *)
Lemma processDatum_returns fuel (driver : Driver) jobID index inputs commit (w : World) :
  DatumTries (Info driver) < 2 ^ 63 →
  (1 <= fuel)%nat →
  DatumTries (Info driver) <= Z.of_nat fuel →
  ∃ r w', processDatum fuel driver jobID index inputs commit w = Returned (r, w').
Proof.
  intros Hmax Hone Hfuel.
  destruct (InspectTag driver
              (HashDatum driver (PipelineName (Info driver)) (Salt (Info driver)) inputs))
    as [miss|] eqn:Einspect.
  2:{ unfold processDatum. rewrite Einspect. destruct (cacheProbe _ _ _); eauto. }
  assert (Hloop : ∀ l0, entersLoop driver jobID index inputs w l0 →
            ∃ r w', processDatum fuel driver jobID index inputs commit w = Returned (r, w')).
  { intros l0 Henter.
    rewrite (processDatum_enters fuel driver jobID index inputs commit w l0)
      by (congruence || exact Henter).
    destruct (entersLoop_keeps _ _ _ _ _ _ Henter) as [Hkeep0 Htree0].
    assert (Hzero : failures l0 = 0).
    { unfold entersLoop in Henter. destruct (EnableStats (Info driver));
        [destruct Henter as (file & w1 & _ & ->) | subst l0]; reflexivity. }
    destruct (retryLoop_returns driver inputs
                (HashDatum driver (PipelineName (Info driver)) (Salt (Info driver)) inputs)
                (DatumID driver inputs) fuel l0) as (err & l1 & Hrun);
      rewrite ?Hzero; try lia.
    rewrite Hrun.
    pose proof (retryLoop_keeps _ _ _ _ _ _ _ _ Hrun Hkeep0) as [_ Htrees].
    unfold afterLoop. destruct (classify _ _ _ _) as [stats1 recovered].
    destruct (EnableStats (Info driver)); [| eauto].
    pose proof (retryLoop_statsTree _ _ _ _ _ _ _ _ Hrun (Htree0 eq_refl)) as Hst.
    destruct (Htrees Hst) as [[it ->] [ot ->]]. destruct Hst as [st ->].
    destruct (writeStats _ _ _ _ _ _ _ _). eauto. }
  unfold entersLoop in Hloop.
  destruct (EnableStats (Info driver)) eqn:Estats; [| eauto].
  destruct (putObjectFile driver "index" (Sprint index) w) as [[e1|[e2|file]] w1] eqn:Eput.
  - unfold processDatum. rewrite Einspect, Estats, Eput. eauto.
  - unfold processDatum. rewrite Einspect, Estats, Eput. eauto.
  - eauto.
Qed.

Lemma mergeStats_returns (x y : DatumStats) :
  is_Some (ProcessStats_ x) →
  ∃ x' err, mergeStats x y = Returned (x', err) ∧ is_Some (ProcessStats_ x').
Proof.
  intros [xps Hx]. unfold mergeStats. rewrite Hx.
  repeat case_match; eexists _, _; (split; [reflexivity |]); cbn; eauto.
Qed.

Lemma fanOut_returns fuel (driver : Driver) jobID commit (datums : list DatumInputs) :
  DatumTries (Info driver) < 2 ^ 63 →
  (1 <= fuel)%nat →
  DatumTries (Info driver) <= Z.of_nat fuel →
  ∀ f, is_Some (ProcessStats_ (dataStats f)) →
       ∃ f', fanOut fuel driver jobID commit datums f = Returned f'
             ∧ is_Some (ProcessStats_ (dataStats f')).
Proof.
  intros Hmax Hone Hfuel.
  induction datums as [|datum rest IH]; intros f Hf; [cbn; eauto |].
  cbn [fanOut]. unfold datumTask.
  destruct (NewLogger driver (Inputs datum)); [apply IH; exact Hf |].
  destruct (processDatum_returns fuel driver jobID (Index datum) (Inputs datum) commit
              (fanWorld f) Hmax Hone Hfuel) as ([[subStats subRecovered] err] & w1 & ->).
  destruct (mergeStats_returns (dataStats f) subStats Hf) as (merged & statsErr & -> & Hm).
  destruct err; apply IH; exact Hm.
Qed.

(** X9: given fuel for [DatumTries] attempts, and for one,
    [handleDatumTask] returns: no retry loop goes on for ever, and neither
    the deferred [writeStats] nor [mergeStats] meets a [nil] tree or
    [nil] process stats.  When it returns no error, [data.Stats] and its
    [ProcessStats] are set. *)
Theorem handleDatumTask_returns (jobTagPrefix : string → string) (fuel : nat)
    (driver : Driver) (jobID : string) (data : DatumData) (subtaskID : string)
    (w : World) :
  DatumTries (Info driver) < 2 ^ 63 →
  (1 <= fuel)%nat →
  DatumTries (Info driver) <= Z.of_nat fuel →
  ∃ data' err w',
    handleDatumTask jobTagPrefix fuel driver jobID data subtaskID w
    = Returned ((data', err), w')
    ∧ (err = None → ∃ st ps, dd_Stats data' = Some st ∧ ProcessStats_ st = Some ps).
Proof.
  intros Hmax Hone Hfuel.
  unfold handleDatumTask, WithDatumCache, LogStep, withStats, forEachDatum.
  destruct (if ContainsS3Inputs (Info driver) || S3Out (Info driver) then _ else _).
  { eexists _, _, _. split; [reflexivity | discriminate]. }
  destruct (NewDatumCaches driver).
  { eexists _, _, _. split; [reflexivity | discriminate]. }
  destruct (ReadDatums driver (dd_Datums data)) as [e|datums].
  { eexists _, _, _. split; [reflexivity | discriminate]. }
  destruct (fanOut_returns fuel driver jobID (dd_OutputCommit data) datums Hmax Hone Hfuel
              (mkFanOut None (mkDatumStats (Some emptyProcessStats) 0 0 0 0 "") []
                        (set_datumStatsCache ∅ (set_datumCache ∅ w))))
    as (f & -> & [ps Hps]); [cbn; eauto |].
  destruct (groupErr f).
  { eexists _, _, _. split; [reflexivity | discriminate]. }
  destruct (publishOutput _ _ _ _ _ _ _ _) as [[data2 [e|]] w2] eqn:Eout;
    apply publishOutput_spec in Eout as (Hst2 & _); cbn in Hst2.
  { eexists _, _, _. split; [reflexivity | discriminate]. }
  destruct (publishStats _ _ _ _ _ _) as [[data3 err3] w3] eqn:Estats.
  apply publishStats_spec in Estats as (Hst3 & _).
  exists data3, err3, w3. split; [reflexivity |]. intros _.
  exists (dataStats f), ps. split; [now rewrite Hst3, Hst2 | exact Hps].
Qed.

Lemma handleDatumTask_returns_witness :
  ∃ data' err w',
    handleDatumTask examplePrefix 3 failingDriver "j" exampleData "s" emptyWorld
    = Returned ((data', err), w')
    ∧ (err = None → ∃ st ps, dd_Stats data' = Some st ∧ ProcessStats_ st = Some ps).
Proof.
  apply (handleDatumTask_returns examplePrefix 3 failingDriver "j" exampleData "s" emptyWorld);
    [reflexivity | lia | vm_compute; discriminate].
Defined.

(** ** The tally of a subtask *)

Lemma outcomeOf_tally (tag datumID : string) (st : DatumStats) (recovered : list string) :
  outcomeOf tag datumID st recovered →
  countsNonNegative st ∧ 0 <= datumCount st <= 1
  ∧ DatumsRecovered st = Z.of_nat (length recovered).
Proof.
  unfold outcomeOf, uncounted, countsNonNegative, datumCount.
  intros [[(Hp & Hs & Hf & Hr & _) ->]
         | [(Hp & Hs & Hf & Hr & _ & ->)
         | [(Hp & Hs & Hf & Hr & _ & ->)
         | [(Hp & Hs & Hf & Hr & _ & ->)
         | (Hp & Hs & Hf & Hr & _ & ->)]]]];
    rewrite Hp, Hs, Hf, Hr; cbn; lia.
Qed.

Lemma datumTask_ok fuel (driver : Driver) jobID commit datum (f f1 : FanOut) :
  datumTask fuel driver jobID commit datum f = Returned f1 →
  groupErr f1 = None →
  groupErr f = None
  ∧ ∃ subStats subRecovered w1,
      processDatum fuel driver jobID (Index datum) (Inputs datum) commit (fanWorld f)
      = Returned ((subStats, subRecovered, None), w1)
      ∧ mergeStats (dataStats f) subStats = Returned (dataStats f1, None)
      ∧ recoveredDatums f1 = (recoveredDatums f ++ subRecovered)%list.
Proof.
  unfold datumTask. intros Htask Hnone.
  destruct (NewLogger driver (Inputs datum)).
  { injection Htask as <-. cbn in Hnone. now apply firstErr_None in Hnone as [_ ?]. }
  destruct (processDatum _ _ _ _ _ _ _) as [[[[subStats subRecovered] err] w1]| |] eqn:Epd;
    try discriminate.
  destruct (mergeStats _ _) as [[merged statsErr]| |] eqn:Em; try discriminate.
  destruct err as [e|]; injection Htask as <-; cbn in Hnone;
    apply firstErr_None in Hnone as [Hf He]; [discriminate |].
  subst statsErr. split; [exact Hf |]. exists subStats, subRecovered, w1.
  split; [reflexivity |]. split; [exact Em | reflexivity].
Qed.

(** A fan-out that ends without an error has counted each datum at most
    once, and holds one recovered tag for each datum counted as
    recovered. *)
Lemma fanOut_tally fuel (driver : Driver) jobID commit (datums : list DatumInputs) :
  ∀ f f',
    fanOut fuel driver jobID commit datums f = Returned f' →
    groupErr f' = None →
    countsNonNegative (dataStats f) →
    datumCount (dataStats f) + Z.of_nat (length datums) < 2 ^ 63 →
    countsNonNegative (dataStats f')
    ∧ datumCount (dataStats f) <= datumCount (dataStats f')
      <= datumCount (dataStats f) + Z.of_nat (length datums)
    ∧ DatumsRecovered (dataStats f') - DatumsRecovered (dataStats f)
      = Z.of_nat (length (recoveredDatums f')) - Z.of_nat (length (recoveredDatums f)).
Proof.
  induction datums as [|datum rest IH]; intros f f' Hrun Herr Hpos Hsmall.
  - injection Hrun as <-. cbn. split; [assumption | lia].
  - cbn [fanOut] in Hrun.
    destruct (datumTask fuel driver jobID commit datum f) as [f1| |] eqn:Etask;
      try discriminate.
    pose proof (fanOut_groupErr _ _ _ _ _ _ _ Hrun Herr) as Hf1.
    destruct (datumTask_ok _ _ _ _ _ _ _ Etask Hf1)
      as (_ & subStats & subRecovered & w1 & Hpd & Hmerge & Hrec).
    apply processDatum_outcomeOf in Hpd. apply outcomeOf_tally in Hpd as (Hsub & Hone & Hr1).
    apply mergeStats_counts in Hmerge as (Hp & Hs & Hfl & Hr).
    unfold countsNonNegative, datumCount in *.
    cbn [length] in Hsmall. rewrite Nat2Z.inj_succ in Hsmall.
    rewrite int64_small in Hp, Hs, Hfl, Hr by lia.
    destruct (IH f1 f' Hrun Herr) as (Hpos' & Hcount' & Hrec'); [lia | lia |].
    rewrite Hrec, length_app, Nat2Z.inj_add in Hrec'.
    split; [exact Hpos' |]. cbn [length]. rewrite Nat2Z.inj_succ. lia.
Qed.

Lemma publishOutput_recovered (jobTagPrefix : string → string) (driver : Driver)
    (jobID subtaskID : string) (data data' : DatumData) (failed : Z)
    (recovered : list string) (w w' : World) :
  publishOutput jobTagPrefix driver jobID subtaskID data failed recovered w
  = ((data', None), w') →
  dd_RecoveredDatumsTag data'
  = (if (failed =? 0) && negb (S3Out (Info driver)) && (0 <? Z.of_nat (length recovered))
     then jobRecoveredDatumsTag jobTagPrefix jobID subtaskID
     else dd_RecoveredDatumsTag data).
Proof.
  unfold publishOutput, uploadRecoveredDatums, getOrCreateCache, uploadChunk, commitObject,
    LogStep, MergeCache_Put.
  destruct ((failed =? 0) && negb (S3Out (Info driver))); cbn [andb];
    [| intros [= <- <-]; auto].
  destruct (0 <? Z.of_nat (length recovered)); intros Hrun;
    repeat case_match; simplify_eq; reflexivity.
Qed.

(** What a call of [handleDatumTask] that returns no error went through. *)
Lemma handleDatumTask_ok (jobTagPrefix : string → string) (fuel : nat)
    (driver : Driver) (jobID : string) (data : DatumData) (subtaskID : string)
    (w : World) (data' : DatumData) (w' : World) :
  handleDatumTask jobTagPrefix fuel driver jobID data subtaskID w
  = Returned ((data', None), w') →
  ∃ datums f data2 w2,
    ReadDatums driver (dd_Datums data) = inr datums
    ∧ fanOut fuel driver jobID (dd_OutputCommit data) datums
        (mkFanOut None (mkDatumStats (Some emptyProcessStats) 0 0 0 0 "") []
                  (set_datumStatsCache ∅ (set_datumCache ∅ w))) = Returned f
    ∧ groupErr f = None
    ∧ publishOutput jobTagPrefix driver jobID subtaskID (set_Stats (Some (dataStats f)) data)
        (DatumsFailed (dataStats f)) (recoveredDatums f) (fanWorld f) = ((data2, None), w2)
    ∧ publishStats jobTagPrefix driver jobID subtaskID data2 w2 = ((data', None), w').
Proof.
  intros Hrun.
  unfold handleDatumTask, WithDatumCache, LogStep, withStats, forEachDatum in Hrun.
  destruct (if ContainsS3Inputs (Info driver) || S3Out (Info driver) then _ else _);
    [discriminate |].
  destruct (NewDatumCaches driver); [discriminate |].
  destruct (ReadDatums driver (dd_Datums data)) as [e|datums]; [discriminate |].
  destruct (fanOut _ _ _ _ _ _) as [f| |] eqn:Efan; try discriminate.
  destruct (groupErr f) eqn:Egroup; [discriminate |].
  destruct (publishOutput _ _ _ _ _ _ _ _) as [[data2 [e|]] w2] eqn:Eout; [discriminate |].
  injection Hrun as Hrun. exists datums, f, data2, w2. auto.
Qed.

(** X10: when [handleDatumTask] returns no error, the four counts of
    [data.Stats] are not negative and their sum is at most the number of
    datums of the subtask; the sum is that number when no datum left
    [processDatum] through a missing stats tree, as when stats are
    disabled. *)
Theorem handleDatumTask_counts (jobTagPrefix : string → string) (fuel : nat)
    (driver : Driver) (jobID : string) (data : DatumData) (subtaskID : string)
    (w : World) (data' : DatumData) (w' : World) (datums : list DatumInputs) :
  handleDatumTask jobTagPrefix fuel driver jobID data subtaskID w
  = Returned ((data', None), w') →
  ReadDatums driver (dd_Datums data) = inr datums →
  Z.of_nat (length datums) < 2 ^ 63 →
  ∃ st, dd_Stats data' = Some st
        ∧ countsNonNegative st
        ∧ datumCount st <= Z.of_nat (length datums)
        ∧ ((∀ datum, datum ∈ datums → ¬ statsMiss driver (Inputs datum)) →
           datumCount st = Z.of_nat (length datums))
        ∧ (EnableStats (Info driver) = false → datumCount st = Z.of_nat (length datums)).
Proof.
  intros Hrun Hread Hsmall.
  apply handleDatumTask_ok in Hrun
    as (datums' & f & data2 & w2 & Hread' & Hfan & Hgroup & Hout & Hstats).
  rewrite Hread in Hread'. injection Hread' as <-.
  apply publishOutput_spec in Hout as (Hst2 & _). cbn in Hst2.
  apply publishStats_spec in Hstats as (Hst3 & _).
  exists (dataStats f). split; [now rewrite Hst3, Hst2 |].
  pose proof (fanOut_tally _ _ _ _ _ _ _ Hfan Hgroup) as Htally. cbn in Htally.
  destruct Htally as (Hpos & Hcount & _);
    [unfold countsNonNegative; cbn; lia | unfold datumCount; cbn; lia |].
  unfold datumCount in Hcount. cbn in Hcount.
  split; [exact Hpos |]. split; [unfold datumCount; lia |].
  assert (Hall : (∀ datum, datum ∈ datums → ¬ statsMiss driver (Inputs datum)) →
                 datumCount (dataStats f) = Z.of_nat (length datums)).
  { intros Hmiss.
    destruct (fanOut_counts _ _ _ _ _ _ _ Hfan Hgroup Hmiss) as [_ Heq];
      [unfold countsNonNegative; cbn; lia | unfold datumCount; cbn; lia |].
    rewrite Heq. unfold datumCount. cbn. lia. }
  split; [exact Hall |].
  intros Hoff. apply Hall. intros datum _ (Hon & _). congruence.
Qed.

Lemma handleDatumTask_counts_witness :
  ∃ data' w' st,
    handleDatumTask examplePrefix 3 failingDriver "j" exampleData "s" emptyWorld
    = Returned ((data', None), w')
    ∧ dd_Stats data' = Some st
    ∧ countsNonNegative st
    ∧ datumCount st <= 1.
Proof.
  assert (Hrun : ∃ data' w',
            handleDatumTask examplePrefix 3 failingDriver "j" exampleData "s" emptyWorld
            = Returned ((data', None), w')) by (eexists _, _; vm_compute; reflexivity).
  destruct Hrun as (data' & w' & Hrun).
  destruct (handleDatumTask_counts examplePrefix 3 failingDriver "j" exampleData "s"
              emptyWorld data' w' [mkDatumInputs 0 [exampleInput]] Hrun eq_refl)
    as (st & Hst & Hpos & Hle & _); [vm_compute; reflexivity |].
  exists data', w', st. auto.
Defined.

(** X11: when [handleDatumTask] returns no error, [RecoveredDatumsTag] is
    the job's recovered-datums tag of the subtask exactly when no datum
    failed, the pipeline has no [S3Out] and at least one datum is counted
    as recovered; otherwise the field is as it came. *)
Theorem handleDatumTask_recovered_tag (jobTagPrefix : string → string) (fuel : nat)
    (driver : Driver) (jobID : string) (data : DatumData) (subtaskID : string)
    (w : World) (data' : DatumData) (w' : World) (datums : list DatumInputs) :
  handleDatumTask jobTagPrefix fuel driver jobID data subtaskID w
  = Returned ((data', None), w') →
  ReadDatums driver (dd_Datums data) = inr datums →
  Z.of_nat (length datums) < 2 ^ 63 →
  ∃ st, dd_Stats data' = Some st
        ∧ dd_RecoveredDatumsTag data'
          = (if (DatumsFailed st =? 0) && negb (S3Out (Info driver))
                && (0 <? DatumsRecovered st)
             then jobRecoveredDatumsTag jobTagPrefix jobID subtaskID
             else dd_RecoveredDatumsTag data).
Proof.
  intros Hrun Hread Hsmall.
  apply handleDatumTask_ok in Hrun
    as (datums' & f & data2 & w2 & Hread' & Hfan & Hgroup & Hout & Hstats).
  rewrite Hread in Hread'. injection Hread' as <-.
  pose proof (publishOutput_spec _ _ _ _ _ _ _ _ _ _ _ Hout) as (Hst2 & _). cbn in Hst2.
  apply publishOutput_recovered in Hout. cbn in Hout.
  assert (Hkeep : dd_Stats data' = dd_Stats data2
                  ∧ dd_RecoveredDatumsTag data' = dd_RecoveredDatumsTag data2).
  { unfold publishStats in Hstats. repeat case_match; simplify_eq; cbn; auto. }
  destruct Hkeep as [Hst3 Htag3].
  exists (dataStats f). split; [now rewrite Hst3, Hst2 |].
  pose proof (fanOut_tally _ _ _ _ _ _ _ Hfan Hgroup) as Htally. cbn in Htally.
  destruct Htally as (_ & _ & Hrec);
    [unfold countsNonNegative; cbn; lia | unfold datumCount; cbn; lia |].
  rewrite Htag3, Hout.
  replace (DatumsRecovered (dataStats f)) with (Z.of_nat (length (recoveredDatums f))) by lia.
  reflexivity.
Qed.

Lemma handleDatumTask_recovered_tag_witness :
  ∃ data' w' st,
    handleDatumTask examplePrefix 3 recoveringOffDriver "j" exampleData "s" emptyWorld
    = Returned ((data', None), w')
    ∧ dd_Stats data' = Some st
    ∧ dd_RecoveredDatumsTag data'
      = (if (DatumsFailed st =? 0) && negb (S3Out (Info recoveringOffDriver))
            && (0 <? DatumsRecovered st)
         then "job-j-recovered-s" else "").
Proof.
  assert (Hrun : ∃ data' w',
            handleDatumTask examplePrefix 3 recoveringOffDriver "j" exampleData "s" emptyWorld
            = Returned ((data', None), w')) by (eexists _, _; vm_compute; reflexivity).
  destruct Hrun as (data' & w' & Hrun).
  destruct (handleDatumTask_recovered_tag examplePrefix 3 recoveringOffDriver "j" exampleData
              "s" emptyWorld data' w' [mkDatumInputs 0 [exampleInput]] Hrun eq_refl)
    as (st & Hst & Htag); [vm_compute; reflexivity |].
  exists data', w', st. auto.
Defined.

(** ** Uploading a chunk, writing the stats of a datum *)

Lemma chunkCacheOf_other (stats : bool) (jobID job : string) (c : gmap string bytes)
    (w : World) :
  job ≠ jobID →
  chunkCacheOf stats job (set_registry stats (<[jobID := c]> (registry stats w)) w)
  = chunkCacheOf stats job w.
Proof.
  intros Hne. unfold chunkCacheOf. destruct stats; cbn; now rewrite lookup_insert_ne.
Qed.

Lemma chunkCacheOf_this (stats : bool) (jobID : string) (c : gmap string bytes) (w : World) :
  chunkCacheOf stats jobID (set_registry stats (<[jobID := c]> (registry stats w)) w) = c.
Proof. unfold chunkCacheOf. destruct stats; cbn; now rewrite lookup_insert_eq. Qed.

(** X12: [uploadChunk] commits the object of a chunk only when it returns
    no error, and then the job's chunk cache holds under the tag the very
    bytes of the object, which are the merge of the subtask's cache.  When
    it fails no object is committed, though the chunk may already be in
    the job's cache.  Either way the other entries of that cache, the
    caches of the other jobs, the other registry and the datum caches are
    left alone. *)
Theorem uploadChunk_all_or_nothing (driver : Driver) (subtaskCache : gmap string bytes)
    (stats : bool) (jobID tag : string) (w w' : World) (err : option error) :
  uploadChunk driver subtaskCache stats jobID tag w = (err, w') →
  (err = None →
   ∃ buf, CacheMerge driver subtaskCache = inr buf
          ∧ chunkCacheOf stats jobID w' = <[tag := buf]> (chunkCacheOf stats jobID w)
          ∧ trace w' = EvPutObjectAsync [tag] buf :: trace w)
  ∧ (err ≠ None → trace w' = trace w)
  ∧ (∀ t, t ≠ tag → chunkCacheOf stats jobID w' !! t = chunkCacheOf stats jobID w !! t)
  ∧ (∀ job, job ≠ jobID → chunkCacheOf stats job w' = chunkCacheOf stats job w)
  ∧ registry (negb stats) w' = registry (negb stats) w
  ∧ datumCache w' = datumCache w ∧ datumStatsCache w' = datumStatsCache w.
Proof.
  unfold uploadChunk, LogStep, MergeCache_Put, commitObject.
  destruct (CacheMerge driver subtaskCache) as [e|buf].
  { intros [= <- <-]. repeat split; auto; discriminate. }
  destruct (CachePut driver tag buf) as [e|].
  { intros [= <- <-]. repeat split; auto; discriminate. }
  intros Hrun.
  assert (Hw' : (err = None ∧ w' = emit (EvPutObjectAsync [tag] buf)
                          (set_registry stats
                             (<[jobID := <[tag := buf]> (chunkCacheOf stats jobID w)]>
                                (registry stats w)) w))
                ∨ (err ≠ None ∧ w' = set_registry stats
                             (<[jobID := <[tag := buf]> (chunkCacheOf stats jobID w)]>
                                (registry stats w)) w)).
  { repeat case_match; simplify_eq; auto. }
  clear Hrun.
  assert (Hcache : chunkCacheOf stats jobID w' = <[tag := buf]> (chunkCacheOf stats jobID w)).
  { destruct Hw' as [[_ ->] | [_ ->]];
      [change (chunkCacheOf stats jobID (emit ?ev ?w0)) with (chunkCacheOf stats jobID w0) |];
      apply chunkCacheOf_this. }
  split; [| split; [| split; [| split]]].
  - intros ->. destruct Hw' as [[_ Hw'] | [Hne _]]; [| congruence].
    exists buf. split; [reflexivity |]. split; [exact Hcache |]. subst w'.
    now destruct stats.
  - intros Hne. destruct Hw' as [[-> _] | [_ ->]]; [congruence |]. now destruct stats.
  - intros t Hne. rewrite Hcache. now rewrite lookup_insert_ne.
  - intros job Hne. destruct Hw' as [[_ ->] | [_ ->]];
      [change (chunkCacheOf stats job (emit ?ev ?w0)) with (chunkCacheOf stats job w0) |];
      now apply chunkCacheOf_other.
  - destruct Hw' as [[_ ->] | [_ ->]]; destruct stats; cbn; auto.
Qed.

Lemma uploadChunk_all_or_nothing_witness :
  ∃ w',
    uploadChunk plainDriver {["k" := "tree"]} false "j" "job-j-chunk-s" emptyWorld = (None, w')
    ∧ ∃ buf, CacheMerge plainDriver {["k" := "tree"]} = inr buf
             ∧ chunkCacheOf false "j" w' = <[ "job-j-chunk-s" := buf]> (chunkCacheOf false "j" emptyWorld)
             ∧ trace w' = EvPutObjectAsync ["job-j-chunk-s"] buf :: trace emptyWorld.
Proof.
  assert (Hrun : ∃ w', uploadChunk plainDriver {["k" := "tree"]} false "j" "job-j-chunk-s"
                         emptyWorld = (None, w')) by (eexists; vm_compute; reflexivity).
  destruct Hrun as [w' Hrun]. exists w'. split; [exact Hrun |].
  destruct (uploadChunk_all_or_nothing _ _ _ _ _ _ _ _ Hrun) as [Hok _]. exact (Hok eq_refl).
Defined.

(** X13: [writeStats] touches the datum stats cache at the datum's tag
    only, and no other cache.  When it returns no error: the process
    stats were marshalled and stored as an object; the tree that is
    merged with the input tree and the output tree is the stats tree with
    a [stats] entry that describes that object and, exactly when the
    logger made an object, a [logs] entry that describes the logger's
    object, and with nothing else added; the cache holds the merge under
    the tag; an object with the same bytes is committed under the tag
    followed by [_stats]; and these two objects are all that was
    stored. *)
Theorem writeStats_cache_and_store (driver : Driver) (inputs : list Input)
    (ps : option ProcessStats) (inputTree outputTree statsTree : Hashtree) (tag : string)
    (w w' : World) (err : option error) :
  writeStats driver inputs ps inputTree outputTree statsTree tag w = (err, w') →
  (err = None →
   ∃ statsString statsObject statsFile logs tree buf,
     MarshalToString driver ps = inr statsString
     ∧ PutObject driver statsString [] = inr statsObject
     ∧ describes driver "stats" statsObject statsFile
     ∧ LoggerClose driver inputs = inr logs
     ∧ match logs with
       | None => tree = PutFile statsTree statsFile
       | Some logsObject =>
           ∃ logsFile, describes driver "logs" logsObject logsFile
                       ∧ tree = PutFile (PutFile statsTree statsFile) logsFile
       end
     ∧ HashtreeMerge driver [inputTree; outputTree; tree] = inr buf
     ∧ datumStatsCache w' = <[tag := buf]> (datumStatsCache w)
     ∧ trace w' = EvPutObjectAsync [tag +:+ "_stats"] buf
                  :: EvPutObject statsString [] :: trace w)
  ∧ (∀ t, t ≠ tag → datumStatsCache w' !! t = datumStatsCache w !! t)
  ∧ datumCache w' = datumCache w
  ∧ chunkCaches w' = chunkCaches w ∧ chunkStatsCaches w' = chunkStatsCaches w.
Proof.
  intros Hrun. split.
  - intros ->. unfold writeStats, putObjectFile, statsTagSuffix in Hrun.
    destruct (MarshalToString driver ps) as [e|statsString] eqn:Emarshal; [discriminate |].
    destruct (PutObject driver statsString []) as [e|[hash size]] eqn:Eput; [discriminate |].
    destruct (InspectObject driver hash) as [e|blockRef] eqn:Einspect; [discriminate |].
    destruct (DecodeHash driver hash) as [e|h] eqn:Edecode; [discriminate |].
    destruct (LoggerClose driver inputs) as [e|logs] eqn:Elogs; [discriminate |].
    assert (Hstats : describes driver "stats" (hash, size)
                       (mkFileNode "stats" (Some h) size (Some blockRef)))
      by (exists blockRef, h; auto).
    assert (Htree : ∃ tree,
      match logs with
      | None => inr (PutFile statsTree (mkFileNode "stats" (Some h) size (Some blockRef)))
      | Some (lhash, lsize) =>
          match InspectObject driver lhash with
          | inl err => inl err
          | inr lref =>
              match DecodeHash driver lhash with
              | inl err => inl err
              | inr lh =>
                  inr (PutFile (PutFile statsTree
                                  (mkFileNode "stats" (Some h) size (Some blockRef)))
                               (mkFileNode "logs" (Some lh) lsize (Some lref)))
              end
          end
      end = inr tree
      ∧ match logs with
        | None => tree = PutFile statsTree (mkFileNode "stats" (Some h) size (Some blockRef))
        | Some logsObject =>
            ∃ logsFile, describes driver "logs" logsObject logsFile
                        ∧ tree = PutFile (PutFile statsTree
                                            (mkFileNode "stats" (Some h) size (Some blockRef)))
                                         logsFile
        end).
    { destruct logs as [[lhash lsize]|]; [| eauto].
      destruct (InspectObject driver lhash) as [e|lref] eqn:Elinspect; [discriminate |].
      destruct (DecodeHash driver lhash) as [e|lh] eqn:Eldecode; [discriminate |].
      eexists. split; [reflexivity |]. eexists. split; [| reflexivity].
      exists lref, lh. auto. }
    destruct Htree as (tree & Htree & Hlogs). rewrite Htree in Hrun.
    destruct (HashtreeMerge driver [inputTree; outputTree; tree]) as [e|buf] eqn:Emerge;
      [discriminate |].
    exists statsString, (hash, size), (mkFileNode "stats" (Some h) size (Some blockRef)),
      logs, tree, buf.
    split; [reflexivity |]. split; [exact Eput |]. split; [exact Hstats |].
    split; [reflexivity |]. split; [exact Hlogs |]. split; [exact Emerge |].
    unfold commitObject, MergeCache_Put in Hrun.
    repeat case_match; simplify_eq; split; reflexivity.
  - unfold writeStats, putObjectFile, commitObject, MergeCache_Put, statsTagSuffix in Hrun.
    repeat case_match; simplify_eq; cbn; repeat split; auto;
      intros t Hne; now rewrite lookup_insert_ne.
Qed.

Lemma writeStats_cache_and_store_witness :
  ∃ w',
    writeStats loggingDriver [exampleInput] (Some emptyProcessStats)
      (NewTree ["/"; "id"; "pfs"]) (NewTree ["/"; "id"; "pfs"; "out"])
      (PutFile (NewTree ["/"; "id"]) (mkFileNode "index" None 0 None))
      "hash-in" emptyWorld = (None, w')
    ∧ datumStatsCache w' = <[ "hash-in" := "++logs,stats,index"]> ∅
    ∧ trace w' = [EvPutObjectAsync ["hash-in_stats"] "++logs,stats,index";
                  EvPutObject "{}" []].
Proof.
  assert (Hrun : ∃ w',
            writeStats loggingDriver [exampleInput] (Some emptyProcessStats)
              (NewTree ["/"; "id"; "pfs"]) (NewTree ["/"; "id"; "pfs"; "out"])
              (PutFile (NewTree ["/"; "id"]) (mkFileNode "index" None 0 None))
              "hash-in" emptyWorld = (None, w'))
    by (eexists; vm_compute; reflexivity).
  destruct Hrun as [w' Hrun]. exists w'. split; [exact Hrun |].
  destruct (writeStats_cache_and_store _ _ _ _ _ _ _ _ _ _ Hrun) as [Hok _].
  destruct (Hok eq_refl)
    as (statsString & statsObject & statsFile & logs & tree & buf & Hmarshal & Hput
        & (blockRef & h & Hinspect & Hdecode & ->) & Hclose & Hlogs & Hmerge & Hcache & Htrace).
  injection Hmarshal as <-. injection Hput as <-. injection Hclose as <-.
  injection Hinspect as <-. injection Hdecode as <-.
  destruct Hlogs as (logsFile & (lref & lh & Hli & Hld & ->) & ->).
  injection Hli as <-. injection Hld as <-.
  injection Hmerge as <-. split; [exact Hcache | exact Htrace].
Defined.

(** ** The environment of user code *)

Lemma userCodeEnv_inputs (p : Process) (inputs : list Input) :
  ∀ result,
    foldl (fun result input =>
             ((result
               ++ [Sprintf "%s=%s"
                     [Name input; filepath_Join p [InputDir p; Name input; FilePath input]]])
              ++ [Sprintf "%s_COMMIT=%s" [Name input; CommitID input]])%list)
          result inputs
    = (result ++ concat (map (inputVars p) inputs))%list.
Proof.
  induction inputs as [|input rest IH]; intros result; cbn [foldl map concat].
  - now rewrite app_nil_r.
  - rewrite IH. unfold inputVars at 2. now rewrite <- !app_assoc.
Qed.

Lemma inputVars_lookup (p : Process) (inputs : list Input) :
  ∀ k input,
    inputs !! k = Some input →
    concat (map (inputVars p) inputs) !! (2 * k)%nat = inputVars p input !! 0%nat
    ∧ concat (map (inputVars p) inputs) !! (2 * k + 1)%nat = inputVars p input !! 1%nat.
Proof.
  induction inputs as [|input0 rest IH]; intros k input Hk; [discriminate |].
  destruct k as [|k].
  - injection Hk as ->. split; reflexivity.
  - cbn in Hk. destruct (IH k input Hk) as [H0 H1].
    replace (2 * S k)%nat with (S (S (2 * k))) by lia.
    replace (S (S (2 * k)) + 1)%nat with (S (S (2 * k + 1))) by lia.
    split; assumption.
Qed.

Lemma inputVars_length (p : Process) (inputs : list Input) :
  length (concat (map (inputVars p) inputs)) = (2 * length inputs)%nat.
Proof. induction inputs as [|input rest IH]; cbn in *; lia. Qed.

Lemma lookup_middle {A : Type} (l1 l2 l3 : list A) (k : nat) :
  (k < length l2)%nat → (l1 ++ l2 ++ l3)%list !! (length l1 + k)%nat = l2 !! k.
Proof.
  intros Hk. rewrite lookup_app_r by lia. rewrite lookup_app_l by lia.
  f_equal. lia.
Qed.

Lemma lookup_beyond {A : Type} (l1 l2 l3 : list A) (k : nat) :
  (l1 ++ l2 ++ l3)%list !! (length l1 + length l2 + k)%nat = l3 !! k.
Proof.
  rewrite lookup_app_r by lia. rewrite lookup_app_r by lia. f_equal. lia.
Qed.

(** X14: the environment that [userCodeEnv] builds starts with the
    environment of the worker process, unchanged and in its order; then
    come, input by input in the order of the inputs, the variable of the
    input (its name, set to its path under the input directory) and its
    [_COMMIT] variable; then the job id and the output commit; and the
    [S3_ENDPOINT] entry is the last one, present exactly when the pipeline
    has S3 inputs or [S3Out]. *)
Theorem userCodeEnv_layout (p : Process) (driver : Driver) (jobID outputCommit : string)
    (inputs : list Input) :
  let env := userCodeEnv p driver jobID outputCommit inputs in
  let n := length (Environ p) in
  let m := length inputs in
  let s3 := ContainsS3Inputs (Info driver) || S3Out (Info driver) in
  take n env = Environ p
  ∧ (∀ k input, inputs !! k = Some input →
       env !! (n + 2 * k)%nat
       = Some (Sprintf "%s=%s"
                 [Name input; filepath_Join p [InputDir p; Name input; FilePath input]])
       ∧ env !! (n + 2 * k + 1)%nat
         = Some (Sprintf "%s_COMMIT=%s" [Name input; CommitID input]))
  ∧ env !! (n + 2 * m)%nat = Some (Sprintf "%s=%s" [JobIDEnv p; jobID])
  ∧ env !! (n + 2 * m + 1)%nat = Some (Sprintf "%s=%s" [OutputCommitIDEnv p; outputCommit])
  ∧ env !! (n + 2 * m + 2)%nat
    = (if s3 then Some (Sprintf "S3_ENDPOINT=http://%s.%s:%s"
                          [SidecarS3GatewayService p jobID; Namespace p; S3GatewayPort p])
       else None)
  ∧ length env = (n + 2 * m + 2 + (if s3 then 1 else 0))%nat.
Proof.
  intros env n m s3.
  assert (Henv : env = (Environ p ++ concat (map (inputVars p) inputs)
                        ++ ([Sprintf "%s=%s" [JobIDEnv p; jobID];
                             Sprintf "%s=%s" [OutputCommitIDEnv p; outputCommit]]
                            ++ (if s3 then [Sprintf "S3_ENDPOINT=http://%s.%s:%s"
                                              [SidecarS3GatewayService p jobID; Namespace p;
                                               S3GatewayPort p]]
                                else [])))%list).
  { subst env. unfold userCodeEnv. rewrite userCodeEnv_inputs. fold s3.
    destruct s3; rewrite <- ?app_assoc; reflexivity. }
  pose proof (inputVars_length p inputs) as Hlen. subst n m.
  rewrite Henv. split; [| split; [| split; [| split; [| split]]]].
  - now rewrite take_app_length.
  - intros k input Hk. destruct (inputVars_lookup p inputs k input Hk) as [H0 H1].
    pose proof (lookup_lt_Some _ _ _ Hk) as Hlt.
    rewrite <- Nat.add_assoc. rewrite !lookup_middle by lia.
    rewrite H0, H1. split; reflexivity.
  - rewrite <- Hlen.
    rewrite <- (Nat.add_0_r (length (Environ p) + length (concat (map (inputVars p) inputs)))).
    now rewrite lookup_beyond.
  - rewrite <- Hlen. now rewrite (lookup_beyond _ _ _ 1).
  - rewrite <- Hlen. rewrite (lookup_beyond _ _ _ 2). now destruct s3.
  - rewrite !length_app, Hlen. destruct s3; cbn; lia.
Qed.

(** ** Properties of the merge handler *)

(** X16: in every run of the download phase, whatever the schedule and at
    every point of it, at most 20 downloads of chunks are in flight: the
    handler starts one only when the limiter has a slot, and a goroutine
    gives its slot back when it ends. *)
Theorem download_limiter (peers : Download.Peers) (jobID : string) (data : MergeData)
    (cache0 : gmap string bytes) (schedule : list Download.Choice) :
  (Download.fetching
     (Download.running (Download.run peers jobID data schedule (Download.init data cache0)))
   <= 20)%nat.
Proof.
  pose proof (coverage_run peers jobID data cache0 schedule _ (invariant_init data cache0)
                (coverage_init data cache0)) as (_ & _ & _ & Hlim & _).
  exact Hlim.
Qed.

(** X17: when the handler leaves the download phase, the cache holds no
    key that the request does not reference; when it leaves it without an
    error the cache holds every referenced chunk; and a referenced chunk
    that was cached before is there as it was, not fetched again. *)
Theorem download_leaves_the_referenced_chunks (peers : Download.Peers) (jobID : string)
    (data : MergeData) (cache0 : gmap string bytes) (schedule : list Download.Choice)
    (err : option error) :
  let d := Download.run peers jobID data schedule (Download.init data cache0) in
  Download.pc d = Download.PcDone err →
  (∀ id, is_Some (Download.cache d !! id) → Download.referenced data id)
  ∧ (err = None → ∀ t, Download.referenced data t → is_Some (Download.cache d !! t))
  ∧ (∀ id, Download.referenced data id → is_Some (cache0 !! id) →
           Download.cache d !! id = cache0 !! id).
Proof.
  intros d Hpc.
  destruct (download_done peers jobID data cache0 schedule err Hpc)
    as (_ & _ & Honly & Hall & Hkept & _).
  auto.
Qed.

Lemma download_leaves_the_referenced_chunks_witness :
  let d := Download.run examplePeers "j" exampleMerge evictFirst
             (Download.init exampleMerge staleCache) in
  Download.pc d = Download.PcDone None
  ∧ is_Some (Download.cache d !! "a")
  ∧ Download.cache d !! "stale" = None.
Proof.
  intros d.
  assert (Hpc : Download.pc d = Download.PcDone None) by (vm_compute; reflexivity).
  pose proof (download_leaves_the_referenced_chunks examplePeers "j" exampleMerge staleCache
                evictFirst None Hpc) as H.
  cbv zeta in H. fold d in H. destruct H as (Honly & Hall & _).
  split; [exact Hpc |]. split.
  - apply (Hall eq_refl). apply list_elem_of_here.
  - destruct (Download.cache d !! "stale") as [buf|] eqn:Estale; [| reflexivity].
    exfalso.
    assert (Hs : is_Some (Download.cache d !! "stale")) by (rewrite Estale; eauto).
    apply Honly in Hs. apply list_elem_of_singleton in Hs. discriminate.
Defined.

(** X18: under the schedule that lets every goroutine run as soon as it
    is started, [handleMergeTask] returns: the handler is never held up
    for ever by the limiter or by the wait for the group. *)
Theorem handleMergeTask_returns (peers : Download.Peers) (store : Merge.Store)
    (driver : Driver) (jobID : string) (data : MergeData) (w : World) (n : nat) :
  (2 * length (md_Hashtrees data) + size (chunkCacheOf (md_Stats data) jobID w) + 4 <= n)%nat →
  ∃ data' err s',
    Merge.handleMergeTask peers store (Merge.eager n) driver jobID data w
    = Returned ((data', err), s').
Proof.
  intros Hn. unfold Merge.handleMergeTask, LogStep.
  destruct (getOrCreateCache driver (md_Stats data) jobID w) as [[e|] w1] eqn:Eget;
    [eauto |].
  apply getOrCreateCache_spec in Eget as (Hcache & _).
  rewrite (Hcache (md_Stats data) jobID).
  destruct (eager_done peers jobID data (chunkCacheOf (md_Stats data) jobID w) n Hn)
    as [derr ->].
  destruct derr as [e|].
  - destruct (Merge.closeParent _ _ _ _); eauto.
  - destruct (Merge.merge _ _ _ _ _ _) as [[[tree size] [e|]] s1];
      destruct (Merge.closeParent _ _ _ _); eauto.
Qed.

Lemma handleMergeTask_returns_witness :
  ∃ data' err s',
    Merge.handleMergeTask examplePeers exampleStore (Merge.eager 6) plainDriver "j"
      mergeWithParent emptyWorld
    = Returned ((data', err), s').
Proof.
  apply (handleMergeTask_returns examplePeers exampleStore plainDriver "j" mergeWithParent
           emptyWorld 6).
  vm_compute. lia.
Defined.

(** X19: when [handleMergeTask] returns no error, the chunk cache of the
    job holds exactly the chunks that the request references; what
    [cache.Merge] wrote from them and the parent, through the filter of
    the shard, is committed as an object; [Tree] is that object and
    [TreeSize] the size that the hashtree writer reported, the other
    fields of the request being as they were; and the index of the tree
    was written next to its block, at the block's path followed by
    [IndexPath]. *)
Theorem handleMergeTask_success (peers : Download.Peers) (store : Merge.Store)
    (schedule : list Download.Choice) (driver : Driver) (jobID : string)
    (data data' : MergeData) (w : World) (s' : Merge.State) :
  Merge.handleMergeTask peers store schedule driver jobID data w
  = Returned ((data', None), s') →
  let cache := chunkCacheOf (md_Stats data) jobID (Merge.mworld s') in
  (∀ t, is_Some (cache !! t) ↔ Download.referenced data t)
  ∧ ∃ written tree indexData block path,
      Merge.CacheMerge store cache (md_Parent data) (Merge.NumShards store) (md_Shard data)
      = (written, md_TreeSize data', None)
      ∧ Merge.Object store written = inr tree
      ∧ data' = Merge.set_Tree (Some tree) (md_TreeSize data') data
      ∧ trace (Merge.mworld s') = EvPutObjectAsync [] written :: trace w
      ∧ Merge.Index store written = inr indexData
      ∧ InspectObject driver tree = inr block
      ∧ Merge.BlockPathFromEnv store block = inr path
      ∧ Merge.WriteIndex (path +:+ Merge.IndexPath store) indexData ∈ Merge.calls s'.
Proof.
  intros Hrun cache.
  apply handleMergeTask_inv in Hrun
    as [(Hbad & _ & Herr & _) | (_ & derr & s0 & Hpc & _ & Htrace0 & _ & Hcache & Hrest)];
    [congruence |].
  cbv zeta in Hpc, Hcache, Hrest. fold cache in Hcache.
  destruct (download_done peers jobID data _ schedule derr Hpc)
    as (_ & _ & Honly & Hall & _ & Hparent & _).
  destruct derr as [e|]; [now destruct Hrest as (_ & [=] & _) |].
  destruct Hrest as (tree & size & merr & s1 & Hmerge & Hworld & Hcalls & Hres).
  destruct merr as [e|]; [now destruct Hres as (_ & [=]) |].
  destruct Hres as [-> _]. rewrite (Hparent eq_refl) in Hmerge, Hcalls.
  apply merge_inv in Hmerge
    as (_ & _ & [(_ & _ & _ & _ & Hbad) | (written & reported & merged & index & _ & Hcm
                   & Hcalls1 & _ & Hok)]); [congruence |].
  destruct Hok as (-> & -> & _ & Htrace1 & hash & indexData & block & path & -> & Hobject
                   & Hindex & Hinspect & Hpath & -> & _).
  split.
  - intros t. rewrite Hcache. split; [apply Honly | apply (Hall eq_refl)].
  - exists written, hash, indexData, block, path. rewrite Hcache.
    split; [exact Hcm |]. split; [exact Hobject |]. split; [reflexivity |].
    split; [now rewrite Hworld, Htrace1, Htrace0 |].
    split; [exact Hindex |]. split; [exact Hinspect |]. split; [exact Hpath |].
    rewrite Hcalls, Hcalls1.
    destruct (md_Parent data); [apply list_elem_of_further |];
      apply list_elem_of_further, list_elem_of_here.
Qed.

Lemma handleMergeTask_success_witness :
  ∃ s',
    Merge.handleMergeTask examplePeers exampleStore (Merge.eager 6) plainDriver "j"
      mergeWithParent emptyWorld
    = Returned ((Merge.set_Tree (Some "object-of-tree-a") 42 mergeWithParent, None), s')
    ∧ (∀ t, is_Some (chunkCacheOf false "j" (Merge.mworld s') !! t)
            ↔ Download.referenced mergeWithParent t).
Proof.
  assert (Hrun : ∃ s',
    Merge.handleMergeTask examplePeers exampleStore (Merge.eager 6) plainDriver "j"
      mergeWithParent emptyWorld
    = Returned ((Merge.set_Tree (Some "object-of-tree-a") 42 mergeWithParent, None), s'))
    by (eexists; vm_compute; reflexivity).
  destruct Hrun as [s' Hrun]. exists s'. split; [exact Hrun |].
  destruct (handleMergeTask_success _ _ _ _ _ _ _ _ _ Hrun) as [Hcache _].
  exact Hcache.
Defined.

(** X20: when [handleMergeTask] returns an error the request is as it
    was, with one exception: the merge succeeded and only the closing of
    the parent's reader failed; then [Tree] and [TreeSize] are already set
    although the call fails. *)
Theorem handleMergeTask_failure (peers : Download.Peers) (store : Merge.Store)
    (schedule : list Download.Choice) (driver : Driver) (jobID : string)
    (data data' : MergeData) (w : World) (e : error) (s' : Merge.State) :
  Merge.handleMergeTask peers store schedule driver jobID data w
  = Returned ((data', Some e), s') →
  data' = data
  ∨ ∃ hash tree size,
      md_Parent data = Some hash
      ∧ Download.GetObjectReader peers hash = None
      ∧ Merge.ParentClose store hash = Some e
      ∧ data' = Merge.set_Tree (Some tree) size data.
Proof.
  intros Hrun.
  apply handleMergeTask_inv in Hrun
    as [(_ & Hdata & _) | (_ & derr & s0 & Hpc & _ & _ & _ & _ & Hrest)]; [now left |].
  cbv zeta in Hpc, Hrest.
  destruct (download_done peers jobID data _ schedule derr Hpc)
    as (_ & _ & _ & _ & _ & _ & Hopen).
  destruct derr as [e0|]; [left; now destruct Hrest |].
  destruct Hrest as (tree & size & merr & s1 & Hmerge & _ & _ & Hres).
  destruct merr as [e0|]; [left; now destruct Hres |].
  destruct Hres as [-> Herr]. right.
  apply merge_inv in Hmerge
    as (_ & _ & [(_ & _ & _ & _ & Hbad) | (written & reported & merged & index & _ & _
                   & _ & _ & Hok)]); [congruence |].
  destruct Hok as (_ & _ & _ & _ & hash0 & _ & _ & _ & -> & _).
  destruct (Download.parentReader _) eqn:Eopened; [| discriminate].
  destruct (Hopen eq_refl) as (hash & Hparent & Hreader).
  rewrite Hparent in Herr. exists hash, hash0, size. auto.
Qed.

Lemma handleMergeTask_failure_witness :
  ∃ s' hash tree size,
    Merge.handleMergeTask examplePeers closeFailsStore (Merge.eager 6) plainDriver "j"
      mergeWithParent emptyWorld
    = Returned ((Merge.set_Tree (Some "object-of-tree-a") 42 mergeWithParent,
                 Some (foreign (mkForeignError "close: broken pipe"))), s')
    ∧ md_Parent mergeWithParent = Some hash
    ∧ Merge.ParentClose closeFailsStore hash
      = Some (foreign (mkForeignError "close: broken pipe"))
    ∧ Merge.set_Tree (Some "object-of-tree-a") 42 mergeWithParent
      = Merge.set_Tree (Some tree) size mergeWithParent.
Proof.
  assert (Hrun : ∃ s',
    Merge.handleMergeTask examplePeers closeFailsStore (Merge.eager 6) plainDriver "j"
      mergeWithParent emptyWorld
    = Returned ((Merge.set_Tree (Some "object-of-tree-a") 42 mergeWithParent,
                 Some (foreign (mkForeignError "close: broken pipe"))), s'))
    by (eexists; vm_compute; reflexivity).
  destruct Hrun as [s' Hrun]. exists s'.
  destruct (handleMergeTask_failure _ _ _ _ _ _ _ _ _ _ Hrun)
    as [Hsame | (hash & tree & size & Hparent & _ & Hclose & Hdata)]; [discriminate Hsame |].
  exists hash, tree, size. auto.
Defined.

(** X21: when the download phase ends with an error, [handleMergeTask]
    returns that error with the request as it was; [merge] does not run:
    no object is written and no index; the only call left is the closing
    of the parent's reader, when it was opened. *)
Theorem handleMergeTask_download_error (peers : Download.Peers) (store : Merge.Store)
    (schedule : list Download.Choice) (driver : Driver) (jobID : string)
    (data : MergeData) (w : World) (derr : error) :
  let d := Download.run peers jobID data schedule
             (Download.init data (chunkCacheOf (md_Stats data) jobID w)) in
  GetOrCreateCache driver (md_Stats data) jobID = None →
  Download.pc d = Download.PcDone (Some derr) →
  ∃ s',
    Merge.handleMergeTask peers store schedule driver jobID data w
    = Returned ((data, Some derr), s')
    ∧ trace (Merge.mworld s') = trace w
    ∧ chunkCacheOf (md_Stats data) jobID (Merge.mworld s') = Download.cache d
    ∧ ∀ c, c ∈ Merge.calls s' →
           ∃ hash, c = Merge.CloseParent hash ∧ md_Parent data = Some hash.
Proof.
  intros d Hget Hpc.
  destruct (download_done peers jobID data _ schedule _ Hpc)
    as (_ & _ & _ & _ & _ & _ & Hopen).
  fold d in Hopen.
  assert (Hrun : ∃ data' err s',
    Merge.handleMergeTask peers store schedule driver jobID data w
    = Returned ((data', err), s')).
  { unfold Merge.handleMergeTask, LogStep, getOrCreateCache. rewrite Hget.
    fold (chunkCacheOf (md_Stats data) jobID w).
    assert (Hsame : chunkCacheOf (md_Stats data) jobID
              (set_registry (md_Stats data)
                 (<[jobID := chunkCacheOf (md_Stats data) jobID w]> (registry (md_Stats data) w))
                 w)
            = chunkCacheOf (md_Stats data) jobID w) by apply chunkCacheOf_set_registry.
    rewrite Hsame. fold d. rewrite Hpc.
    destruct (Merge.closeParent _ _ _ _); eauto. }
  destruct Hrun as (data' & err & s' & Hrun). exists s'.
  pose proof Hrun as Hinv.
  apply handleMergeTask_inv in Hinv
    as [(Hbad & _) | (_ & derr' & s0 & Hpc' & _ & Htrace0 & _ & Hcache & Hrest)];
    [congruence |].
  cbv zeta in Hpc', Hcache, Hrest. fold d in Hpc', Hcache, Hrest.
  rewrite Hpc in Hpc'. injection Hpc' as <-.
  destruct Hrest as (-> & -> & Hworld & Hcalls).
  split; [exact Hrun |]. split; [now rewrite Hworld |]. split; [exact Hcache |].
  intros c Hc. rewrite Hcalls in Hc.
  destruct (Download.parentReader d) eqn:Eopened; [| now apply elem_of_nil in Hc].
  destruct (Hopen eq_refl) as (hash & Hparent & _). rewrite Hparent in Hc.
  apply list_elem_of_singleton in Hc. eauto.
Qed.

Lemma handleMergeTask_download_error_witness :
  ∃ s',
    Merge.handleMergeTask lostChunks exampleStore (Merge.eager 6) plainDriver "j"
      mergeWithParent emptyWorld
    = Returned ((mergeWithParent, Some (foreign tagNotFound)), s')
    ∧ trace (Merge.mworld s') = []
    ∧ Merge.calls s' = [Merge.CloseParent "parent-hash"].
Proof.
  destruct (handleMergeTask_download_error lostChunks exampleStore (Merge.eager 6)
              plainDriver "j" mergeWithParent emptyWorld (foreign tagNotFound))
    as (s' & Hrun & Htrace & _); [reflexivity | vm_compute; reflexivity |].
  exists s'. split; [exact Hrun |]. split; [exact Htrace |].
  assert (Hconcrete : ∃ s0,
    Merge.handleMergeTask lostChunks exampleStore (Merge.eager 6) plainDriver "j"
      mergeWithParent emptyWorld
    = Returned ((mergeWithParent, Some (foreign tagNotFound)), s0)
    ∧ Merge.calls s0 = [Merge.CloseParent "parent-hash"]).
  { eexists. split; [vm_compute; reflexivity | reflexivity]. }
  destruct Hconcrete as (s0 & Hrun0 & Hcalls0).
  rewrite Hrun0 in Hrun. now injection Hrun as <-.
Defined.

Lemma merge_no_parent (store : Merge.Store) (driver : Driver) (parent : option string)
    (cache : gmap string bytes) (shard : Z) (s s1 : Merge.State)
    (r : option string * Z * option error) :
  Merge.merge store driver parent cache shard s = (r, s1) →
  Merge.calls s = [] →
  ∀ h, Merge.CloseParent h ∉ Merge.calls s1.
Proof.
  destruct r as [[tree size] err]. intros Hmerge Hempty h Hin.
  apply merge_inv in Hmerge
    as (_ & _ & [(_ & -> & _) | (written & reported & merged & index & _ & _
                   & Hcalls & Hindex & _)]).
  - rewrite Hempty in Hin. now apply elem_of_nil in Hin.
  - rewrite Hcalls, Hempty in Hin.
    destruct Hindex as [-> | (p & d & ->)]; cbn in Hin; in_events.
Qed.

(** X22: the reader of the parent is closed on every path on which it was
    opened, once, as the last call of [handleMergeTask]; and it is closed
    on no other path. *)
Theorem handleMergeTask_closes_the_parent (peers : Download.Peers) (store : Merge.Store)
    (schedule : list Download.Choice) (driver : Driver) (jobID : string)
    (data : MergeData) (w : World) (r : MergeData * option error) (s' : Merge.State) :
  Merge.handleMergeTask peers store schedule driver jobID data w = Returned (r, s') →
  let d := Download.run peers jobID data schedule
             (Download.init data (chunkCacheOf (md_Stats data) jobID w)) in
  (GetOrCreateCache driver (md_Stats data) jobID = None →
   Download.parentReader d = true →
   ∃ hash rest,
     md_Parent data = Some hash
     ∧ Download.GetObjectReader peers hash = None
     ∧ Merge.calls s' = Merge.CloseParent hash :: rest
     ∧ ∀ h, Merge.CloseParent h ∉ rest)
  ∧ (GetOrCreateCache driver (md_Stats data) jobID ≠ None
     ∨ Download.parentReader d = false →
     ∀ h, Merge.CloseParent h ∉ Merge.calls s').
Proof.
  destruct r as [data' err]. intros Hrun d.
  apply handleMergeTask_inv in Hrun
    as [(Hfailed & _ & _ & Hcalls & _)
       | (Hgot & derr & s0 & Hpc & Hcalls0 & _ & _ & _ & Hrest)].
  { split; [congruence |]. intros _ h Hin. rewrite Hcalls in Hin.
    now apply elem_of_nil in Hin. }
  cbv zeta in Hpc, Hrest. fold d in Hpc, Hrest.
  destruct (download_done peers jobID data _ schedule derr Hpc)
    as (_ & _ & _ & _ & _ & _ & Hopen).
  fold d in Hopen.
  assert (Hcalls : ∃ rest,
    (∀ h, Merge.CloseParent h ∉ rest)
    ∧ Merge.calls s' = match (if Download.parentReader d then md_Parent data else None) with
                       | Some h => Merge.CloseParent h :: rest
                       | None => rest
                       end).
  { destruct derr as [e|].
    - destruct Hrest as (_ & _ & _ & Hcalls). exists []. split; [in_events |].
      rewrite Hcalls. now destruct (if Download.parentReader d then _ else _).
    - destruct Hrest as (tree & size & merr & s1 & Hmerge & _ & Hcalls & _).
      exists (Merge.calls s1). split; [| exact Hcalls].
      eapply merge_no_parent; eassumption. }
  destruct Hcalls as (rest & Hnone & Hcalls). split.
  - intros _ Hopened. destruct (Hopen Hopened) as (hash & Hparent & Hreader).
    rewrite Hopened, Hparent in Hcalls. exists hash, rest. auto.
  - intros [Hbad | Hclosed]; [congruence |].
    rewrite Hclosed in Hcalls. now rewrite Hcalls.
Qed.

Lemma handleMergeTask_closes_the_parent_witness :
  ∃ r s' rest,
    Merge.handleMergeTask examplePeers exampleStore (Merge.eager 6) plainDriver "j"
      mergeWithParent emptyWorld
    = Returned (r, s')
    ∧ Merge.calls s' = Merge.CloseParent "parent-hash" :: rest
    ∧ ∀ h, Merge.CloseParent h ∉ rest.
Proof.
  assert (Hrun : ∃ r s',
    Merge.handleMergeTask examplePeers exampleStore (Merge.eager 6) plainDriver "j"
      mergeWithParent emptyWorld
    = Returned (r, s')) by (eexists _, _; vm_compute; reflexivity).
  destruct Hrun as (r & s' & Hrun). exists r, s'.
  destruct (handleMergeTask_closes_the_parent _ _ _ _ _ _ _ _ _ Hrun) as [Hopened _].
  destruct Hopened as (hash & rest & Hparent & _ & Hcalls & Hnone);
    [reflexivity | vm_compute; reflexivity |].
  injection Hparent as <-. eauto.
Defined.

(** X23: [merge] returns a tree with its size and no error, or no tree,
    size 0 and an error.  When it could open the object writer it closes
    it once, also when [cache.Merge] or anything after it fails; the
    index, when it came to it, was written once and its writer closed
    after that; and nothing else is called. *)
Theorem merge_closes_its_writers (store : Merge.Store) (driver : Driver)
    (parent : option string) (cache : gmap string bytes) (shard : Z)
    (s s' : Merge.State) (tree : option string) (size : Z) (err : option error) :
  Merge.merge store driver parent cache shard s = ((tree, size, err), s') →
  match err with
  | None => is_Some tree
  | Some _ => tree = None ∧ size = 0
  end
  ∧ match PutObjectAsync driver [] with
    | Some _ => s' = s
    | None =>
        ∃ index,
          Merge.calls s'
          = (index
             ++ Merge.CloseObject
                  (Merge.CacheMerge store cache parent (Merge.NumShards store) shard).1.1
             :: Merge.calls s)%list
          ∧ (index = [] ∨ ∃ p d, index = [Merge.CloseIndex p; Merge.WriteIndex p d])
    end.
Proof.
  intros Hmerge.
  apply merge_inv in Hmerge
    as (_ & _ & [(Hclosed & -> & -> & -> & Herr)
                | (written & reported & merged & index & Hopen & Hcm & Hcalls & Hindex & Hres)]).
  - destruct err; [| congruence]. destruct (PutObjectAsync driver []); [auto | congruence].
  - rewrite Hopen, Hcm. cbn [fst]. split; [| eauto].
    destruct err; [exact Hres |].
    destruct Hres as (_ & _ & _ & _ & hash & _ & _ & _ & -> & _). eauto.
Qed.

Lemma merge_closes_its_writers_witness :
  ∃ s',
    Merge.merge exampleStore plainDriver None {["a" := "tree-a"]} 0
      (Merge.mkState emptyWorld [])
    = ((Some "object-of-tree-a", 42, None), s')
    ∧ ∃ index, Merge.calls s' = (index ++ [Merge.CloseObject "tree-a"])%list
               ∧ (index = [] ∨ ∃ p d, index = [Merge.CloseIndex p; Merge.WriteIndex p d]).
Proof.
  assert (Hrun : ∃ s',
    Merge.merge exampleStore plainDriver None {["a" := "tree-a"]} 0
      (Merge.mkState emptyWorld [])
    = ((Some "object-of-tree-a", 42, None), s')) by (eexists; vm_compute; reflexivity).
  destruct Hrun as [s' Hrun]. exists s'. split; [exact Hrun |].
  destruct (merge_closes_its_writers _ _ _ _ _ _ _ _ _ _ Hrun) as [_ Hcalls].
  exact Hcalls.
Defined.

(** X24: [writeIndex] writes the index at the path of the tree's block
    followed by [IndexPath].  Once the writer is open the index is written
    once and the writer closed once, whatever the write returned; the
    error of the write is returned before that of the close; and without
    an error both succeeded. *)
Theorem writeIndex_closes_the_writer (store : Merge.Store) (driver : Driver)
    (tree : string) (indexData : bytes) (s s' : Merge.State) (err : option error) :
  Merge.writeIndex store driver tree indexData s = (err, s') →
  (∀ path data, Merge.WriteIndex path data ∈ Merge.calls s' →
     Merge.WriteIndex path data ∈ Merge.calls s
     ∨ (data = indexData
        ∧ ∃ block dir, InspectObject driver tree = inr block
            ∧ Merge.BlockPathFromEnv store block = inr dir
            ∧ path = dir +:+ Merge.IndexPath store
            ∧ Merge.calls s' = Merge.CloseIndex path :: Merge.WriteIndex path data
                               :: Merge.calls s
            ∧ (∀ e, Merge.IndexWrite store path data = Some e → err = Some e)
            ∧ (Merge.IndexWrite store path data = None →
               err = Merge.IndexClose store path data)))
  ∧ (err = None → ∃ path, Merge.WriteIndex path indexData ∈ Merge.calls s'
                          ∧ Merge.IndexWrite store path indexData = None
                          ∧ Merge.IndexClose store path indexData = None).
Proof.
  intros Hrun.
  apply writeIndex_inv in Hrun
    as (_ & [[Hsame Herr] | (block & dir & Hinspect & Hdir & _ & Hcalls & Hres)]).
  - split; [| congruence]. intros path data Hin. rewrite Hsame in Hin. now left.
  - split.
    + intros path data Hin. rewrite Hcalls in Hin.
      apply elem_of_cons in Hin as [[=]|Hin].
      apply elem_of_cons in Hin as [[= -> ->]|Hin]; [| now left].
      right. split; [reflexivity |]. exists block, dir.
      split; [exact Hinspect |]. split; [exact Hdir |]. split; [reflexivity |].
      split; [exact Hcalls |].
      destruct (Merge.IndexWrite store _ _); split; congruence.
    + intros ->. exists (dir +:+ Merge.IndexPath store).
      split; [rewrite Hcalls; apply list_elem_of_further, list_elem_of_here |].
      destruct (Merge.IndexWrite store _ _); [discriminate | auto].
Qed.

Lemma writeIndex_closes_the_writer_witness :
  ∃ s',
    Merge.writeIndex exampleStore plainDriver "object-of-tree-a" "index-of-tree-a"
      (Merge.mkState emptyWorld [])
    = (None, s')
    ∧ ∃ path, Merge.WriteIndex path "index-of-tree-a" ∈ Merge.calls s'.
Proof.
  assert (Hrun : ∃ s',
    Merge.writeIndex exampleStore plainDriver "object-of-tree-a" "index-of-tree-a"
      (Merge.mkState emptyWorld [])
    = (None, s')) by (eexists; vm_compute; reflexivity).
  destruct Hrun as [s' Hrun]. exists s'. split; [exact Hrun |].
  destruct (writeIndex_closes_the_writer _ _ _ _ _ _ _ Hrun) as [_ Hok].
  destruct (Hok eq_refl) as (path & Hin & _). eauto.
Defined.

(** X15: where a download goroutine takes a chunk from.  With no address,
    or when the stream of the worker cannot be opened, it is the object
    store, and the error of the worker is dropped; when the stream of the
    worker is open the store is not asked, also when reading the stream
    fails: the goroutine then fails the group and puts nothing in the
    cache.  A goroutine that fails leaves the cache as it was, and one
    that succeeds puts the body it read under the tag of the chunk. *)
Theorem chunk_sources (peers : Download.Peers) (jobID : string) (data : MergeData)
    (info : HashtreeInfo) (others : list Download.Goroutine) (s : Download.State) :
  let s' := Download.stepGoroutine peers jobID data (Download.GoFetch info) others s in
  let worker := Download.FetchChunkFromWorker peers jobID (Address info) (Tag info)
                  (md_Shard data) (md_Stats data) in
  let source := if bool_decide (Address info ≠ "") then
                  match worker with
                  | inr reader => inr reader
                  | inl _ => Download.GetTagReader peers (Tag info)
                  end
                else Download.GetTagReader peers (Tag info) in
  Download.running s' = others
  ∧ match source with
    | inr (inr buf) =>
        match Download.CachePutErr peers (Tag info) buf with
        | None => Download.cache s' = <[Tag info := buf]> (Download.cache s)
                  ∧ (Download.groupErr s = None →
                     Download.groupErr s' = received (Download.ReaderClose peers (Tag info)))
        | Some e => Download.cache s' = Download.cache s
                    ∧ (Download.groupErr s = None → Download.groupErr s' = Some (foreign e))
        end
    | inr (inl e) | inl e =>
        Download.cache s' = Download.cache s
        ∧ (Download.groupErr s = None → Download.groupErr s' = Some (foreign e))
    end
  ∧ (Download.groupErr s ≠ None → Download.groupErr s' = Download.groupErr s).
Proof.
  cbv zeta. unfold Download.stepGoroutine, Download.fetchChunk.
  destruct (bool_decide (Address info ≠ "")).
  - destruct (Download.FetchChunkFromWorker peers jobID _ _ _ _) as [e|[e|buf]].
    + destruct (Download.GetTagReader peers (Tag info)) as [e'|[e'|buf]]; cbn.
      * repeat split; [now intros -> | now destruct (Download.groupErr s)].
      * repeat split; [now intros -> | now destruct (Download.groupErr s)].
      * destruct (Download.CachePutErr peers (Tag info) buf); cbn;
          (repeat split; [now intros -> | now destruct (Download.groupErr s)]).
    + cbn. repeat split; [now intros -> | now destruct (Download.groupErr s)].
    + destruct (Download.CachePutErr peers (Tag info) buf); cbn;
        (repeat split; [now intros -> | now destruct (Download.groupErr s)]).
  - destruct (Download.GetTagReader peers (Tag info)) as [e'|[e'|buf]]; cbn.
    + repeat split; [now intros -> | now destruct (Download.groupErr s)].
    + repeat split; [now intros -> | now destruct (Download.groupErr s)].
    + destruct (Download.CachePutErr peers (Tag info) buf); cbn;
        (repeat split; [now intros -> | now destruct (Download.groupErr s)]).
Qed.

(** ** The dispatcher with the merge handler *)

(** When the merge of [handleMergeTask] ran to its end, whether the
    closing of the parent's reader then failed or not: what was written
    is an object, and the request holds it. *)
Lemma handleMergeTask_merged (peers : Download.Peers) (store : Merge.Store)
    (schedule : list Download.Choice) (driver : Driver) (jobID : string)
    (data data' : MergeData) (w : World) (err : option error) (s' : Merge.State) :
  Merge.handleMergeTask peers store schedule driver jobID data w
  = Returned ((data', err), s') →
  data' = data ∧ err ≠ None
  ∨ ∃ written tree size,
      Merge.CacheMerge store (chunkCacheOf (md_Stats data) jobID (Merge.mworld s'))
        (md_Parent data) (Merge.NumShards store) (md_Shard data) = (written, size, None)
      ∧ Merge.Object store written = inr tree
      ∧ trace (Merge.mworld s') = EvPutObjectAsync [] written :: trace w
      ∧ data' = Merge.set_Tree (Some tree) size data.
Proof.
  intros Hrun.
  apply handleMergeTask_inv in Hrun
    as [(Hbad & -> & -> & _) | (_ & derr & s0 & Hpc & _ & Htrace0 & _ & Hcache & Hrest)];
    [now left |].
  cbv zeta in Hpc, Hcache, Hrest.
  destruct (download_done peers jobID data _ schedule derr Hpc)
    as (_ & _ & _ & _ & _ & Hparent & _).
  destruct derr as [e|]; [left; now destruct Hrest as (-> & -> & _) |].
  destruct Hrest as (tree & size & merr & s1 & Hmerge & Hworld & _ & Hres).
  destruct merr as [e|]; [left; now destruct Hres as (-> & ->) |].
  destruct Hres as [-> _]. rewrite (Hparent eq_refl) in Hmerge.
  apply merge_inv in Hmerge
    as (_ & _ & [(_ & _ & _ & _ & Hbad) | (written & reported & merged & index & _ & Hcm
                   & _ & _ & Hok)]); [congruence |].
  destruct Hok as (-> & -> & _ & Htrace1 & hash & _ & _ & _ & -> & Hobject & _).
  right. exists written, hash, reported. rewrite Hcache.
  split; [exact Hcm |]. split; [exact Hobject |]. split; [| reflexivity].
  now rewrite Hworld, Htrace1, Htrace0.
Qed.

(** X25: [Worker] on a payload that is a merge request and not a datum
    request.  When the handler fails the subtask is returned just as it
    came, with the error of the handler: also when the merge had set
    [Tree] and only the closing of the parent failed.  Otherwise the merge
    ran to its end: what [cache.Merge] wrote from the job's chunk cache is
    committed as an object, and the payload of the subtask is the
    serialized request with [Tree] and [TreeSize] set to that object and
    its size, the error being the serializer's. *)
Theorem Worker_merge_task (jobTagPrefix : string → string)
    (deserializeDatumData : option bytes → error + DatumData)
    (serializeDatumData : DatumData → option bytes * option error)
    (deserializeMergeData : option bytes → error + MergeData)
    (serializeMergeData : MergeData → option bytes * option error)
    (peers : Download.Peers) (store : Merge.Store) (schedule : list Download.Choice)
    (fuel : nat) (driver : Driver) (subtask task' : Task) (w w' : World)
    (e0 : error) (data : MergeData) (err : option error) :
  deserializeDatumData (Data subtask) = inl e0 →
  deserializeMergeData (Data subtask) = inr data →
  Worker jobTagPrefix deserializeDatumData serializeDatumData deserializeMergeData
         serializeMergeData (Merge.handler peers store schedule) fuel driver subtask w
  = Returned ((task', err), w') →
  ∃ data1 herr s1,
    Merge.handleMergeTask peers store schedule driver (md_JobID data) data w
    = Returned ((data1, herr), s1)
    ∧ w' = Merge.mworld s1
    ∧ match herr with
      | Some e => task' = subtask ∧ err = Some e
      | None =>
          ∃ written tree size,
            Merge.CacheMerge store (chunkCacheOf (md_Stats data) (md_JobID data) w')
              (md_Parent data) (Merge.NumShards store) (md_Shard data)
            = (written, size, None)
            ∧ Merge.Object store written = inr tree
            ∧ trace w' = EvPutObjectAsync [] written :: trace w
            ∧ task' = mkTask (ID subtask)
                        (serializeMergeData (Merge.set_Tree (Some tree) size data)).1
            ∧ err = (serializeMergeData (Merge.set_Tree (Some tree) size data)).2
      end.
Proof.
  intros Hdatum Hmerge Hrun. unfold Worker, withJob, LogStep, Merge.handler in Hrun.
  rewrite Hdatum, Hmerge in Hrun.
  destruct (Merge.handleMergeTask peers store schedule driver (md_JobID data) data w)
    as [[[data1 herr] s1]| |] eqn:Ehandler; try discriminate.
  exists data1, herr, s1. split; [reflexivity |].
  destruct herr as [e|]; [injection Hrun as <- <- <-; auto |].
  pose proof (handleMergeTask_merged _ _ _ _ _ _ _ _ _ _ Ehandler) as Hcases.
  destruct Hcases as [[_ Herr] | (written & tree & size & Hcm & Hobject & Htrace & ->)];
    [congruence |].
  destruct (serializeMergeData _) as [payload serr] eqn:Eser.
  injection Hrun as <- <- <-. split; [reflexivity |].
  exists written, tree, size. rewrite Eser. auto.
Qed.

Lemma Worker_merge_task_witness :
  ∃ task' err w',
    Worker examplePrefix toyDeserializeDatumData toySerializeDatumData
           toyDeserializeMergeData toySerializeMergeData
           (Merge.handler examplePeers exampleStore (Merge.eager 6))
           1 plainDriver (mkTask "s" (Some "Mj")) emptyWorld
    = Returned ((task', err), w')
    ∧ task' = mkTask "s" (Some "mj") ∧ err = None
    ∧ trace w' = [EvPutObjectAsync [] ""].
Proof.
  assert (Hrun : ∃ r,
    Worker examplePrefix toyDeserializeDatumData toySerializeDatumData
           toyDeserializeMergeData toySerializeMergeData
           (Merge.handler examplePeers exampleStore (Merge.eager 6))
           1 plainDriver (mkTask "s" (Some "Mj")) emptyWorld
    = Returned r) by (eexists; vm_compute; reflexivity).
  destruct Hrun as [[[task' err] w'] Hrun]. exists task', err, w'. split; [exact Hrun |].
  destruct (Worker_merge_task examplePrefix toyDeserializeDatumData toySerializeDatumData
              toyDeserializeMergeData toySerializeMergeData examplePeers exampleStore
              (Merge.eager 6) 1 plainDriver (mkTask "s" (Some "Mj")) task' emptyWorld w'
              (foreign (mkForeignError "not a DatumData"))
              (mkMergeData "j" [] None 0 false None 0) err eq_refl eq_refl Hrun)
    as (data1 & herr & s1 & Hhandler & -> & Hres).
  vm_compute in Hhandler. injection Hhandler as <- <- <-.
  destruct Hres as (written & tree & size & Hcm & _ & Htrace & -> & ->).
  vm_compute in Hcm. injection Hcm as <- <-.
  repeat split.
Defined.
